(** * The HTLC switch ([htlcswitch/switch.go])

    A shallow embedding of the switch: its link registry, circuit map,
    pending-payment table, the handlers run by the dispatch loop
    ([htlcForwarder]) and the public facade, followed by the properties
    the specification states about them and by further properties of the
    code: lookups in the registry, the teardown, the statistics ticker, the
    pending-payment table and the lifecycle over whole runs.

    Conventions.
    - A Go function returning [(T, error)] becomes a function into
      [T + error]; a function returning [error] returns [option error]
      ([None] is [nil]).
    - Handlers run by the dispatch goroutine are state-passing functions on
      [Switch].  What a handler does to the outside world (offering a packet
      to a link, stopping a link, sending on a payment's channels) is
      appended to the [log] of the state, in program order.
    - A blocking operation is a partial step: [None] means that the
      operation cannot proceed in that state (no case of a [select] is
      ready, or a send finds the buffer of its channel full).
    - Goroutines interleave at their blocking points: a turn of the
      dispatch loop, and the code of a facade call between two blocking
      points, is one step.  A facade call that sends its command to the
      loop is one step together with the turn of the loop that serves it
      and the reply it reads. *)

From stdpp Require Import base numbers option list gmap.

(** ** Identities and wire values *)

(** [lnwire.ChannelID], [HopID], [lnwallet.PaymentHash] and the preimage are
    fixed-width byte arrays compared byte-wise; each is kept as the number
    its bytes spell.  [btcutil.Amount] is an [int64].  The names are
    abbreviations, so that maps keyed by them are plain [gmap N]. *)
Abbreviation ChannelID := N (only parsing).
Abbreviation HopID := N (only parsing).
Abbreviation PaymentHash := N (only parsing).
Abbreviation circuitKey := N (only parsing).
Abbreviation Preimage := N (only parsing).
Abbreviation Amount := Z (only parsing).
Abbreviation PubKey := (list N) (only parsing).
Abbreviation chanRef := nat (only parsing).

(** [zeroPreimage [sha256.Size]byte]: the zero value of the array. *)
Definition zeroPreimage : Preimage := 0%N.

(** Modelled from the spec: [lnwire.FailCode] is a one-byte code and
    [lnwire.OpaqueReason] the byte string of a Fail message's reason field
    (the lnwire package is not part of the sources at hand).  [byte(code)]
    is the code itself. *)
Abbreviation FailCode := N (only parsing).
Abbreviation OpaqueReason := (list N) (only parsing).

(** [wire.OutPoint]. *)
Record OutPoint := mkOutPoint { Hash : N; Index : N }.

(** Errors.  Each constructor is one [errors.New]/[errors.Errorf] site of
    switch.go, with the values its format string prints. *)
Inductive error :=
| ErrChannelLinkNotFound                          (* "channel link not found" *)
| ErrServiceShutdown                              (* "service is shutdown" *)
| ErrSwitchStopped                                (* "Htlc Switch was stopped" *)
| ErrCloseSwitchStopped                           (* "unable close channel link, htlc switch already stopped" *)
| ErrFailCode (code : FailCode)                   (* errors.New(code) *)
| ErrWrongUpdateType                              (* "wrong update type" *)
| ErrWrongTypeOfUpdate                            (* "wrong type of update" *)
| ErrDecodeFailCode (id : N) (e : error)          (* "can't decode fail code id(%v): %v" *)
| ErrFindSourceLink (src : ChannelID) (e : error) (* "unable to find channel link by channel point (%v): %v" *)
| ErrFindLinks (e : error)                        (* "unable to find links with destination %v" *)
| ErrLocateLinks (destination : HopID)            (* "unable to locate channel link by destination hop id %v" *)
| ErrInsufficientCapacity (need : Amount)         (* "unable to find appropriate channel link insufficient capacity, need %v" *)
| ErrAddCircuit (e : error)                       (* "unable to add circuit: %v" *)
| ErrRemoveCircuit (payHash : PaymentHash)        (* "unable to remove circuit for payment hash: %v" *)
| ErrGetSourceLink (e : error)                    (* "unable to get source channel link to forward settle/fail htlc: %v" *)
| ErrChannelNotFound (chanID : ChannelID)         (* "channel with ChannelID(%v) not found" *)
| ErrPendingPayment (hash : PaymentHash) (amount : Amount)
                                                  (* "unable to remove pending payment with hash(%v) and amount(%v)" *)
| ErrCircuitExists (key : circuitKey)             (* circuit map: duplicate insert *)
| ErrCircuitNotFound (key : circuitKey)           (* circuit map: nothing to remove *)
| ErrForeign (code : N).                          (* an error made outside the switch (link.Start, ToFailCode) *)

(** [lnwire.Message] as the switch sees it: the three HTLC updates with the
    fields the switch reads or writes, and any other message. *)
Inductive Message :=
| UpdateAddHTLC (PaymentHash : PaymentHash) (Amount : Amount)
| UpdateFufillHTLC (PaymentPreimage : Preimage)
| UpdateFailHTLC (ID : N) (Reason : OpaqueReason)
| OtherMessage.

(** Modelled from the spec: [htlcPacket] and its two constructors used by the
    switch (packet.go is not part of the sources at hand): the packet
    carries [source], [destination], [payment_hash], [amount] and the
    message; fields a constructor does not receive keep their zero value. *)
Record htlcPacket := mkPacket {
  payHash : PaymentHash;
  dest : HopID;
  src : ChannelID;
  amount : Amount;
  htlc : Message
}.

Definition newInitPacket (dest : HopID) (htlc : Message) : htlcPacket :=
  {| payHash := 0%N; dest := dest; src := 0%N; amount := 0%Z; htlc := htlc |}.

Definition newFailPacket (src : ChannelID) (htlc : Message)
    (payHash : PaymentHash) (amount : Amount) : htlcPacket :=
  {| payHash := payHash; dest := 0%N; src := src; amount := amount; htlc := htlc |}.

(** The [ChannelLink] collaborator, by what its methods report when the
    switch calls them: [ChanID()], [Peer().PubKey()], [Bandwidth()],
    [Stats()] and, as [StartErr], the error [Start()] returns. *)
Record ChannelLink := mkLink {
  ChanID : ChannelID;
  PeerPubKey : PubKey;
  Bandwidth : Amount;
  Stats : N * Amount * Amount;
  StartErr : option error
}.

(** [pendingPayment]: the two channels are references into the channel
    stores of the state. *)
Record pendingPayment := mkPayment {
  pp_paymentHash : PaymentHash;
  pp_amount : Amount;
  pp_preimage : chanRef;
  pp_err : chanRef
}.

(** [ChannelCloseType] and the part of [ChanClose] that is data (its two
    channels are made by [CloseLink] and returned to the caller). *)
Inductive ChannelCloseType := CloseRegular | CloseBreach.

Record ChanClose := mkChanClose {
  CloseType : ChannelCloseType;
  ChanPoint : OutPoint
}.

(** ** The circuit map *)

(** Modelled from the spec: the payment circuit and the circuit map
    (circuit.go is not part of the sources at hand).  The map goes from
    payment hash to the circuit in flight; an insert is "rejected as a
    duplicate if one already exists for that hash"; a remove of an absent
    hash is an error. *)
Record paymentCircuit := mkCircuit {
  c_PaymentHash : circuitKey;
  Src : ChannelID;
  Dest : ChannelID
}.

Definition newPaymentCircuit (src dest : ChannelID) (key : circuitKey) : paymentCircuit :=
  {| c_PaymentHash := key; Src := src; Dest := dest |}.

Definition newCircuitMap : gmap circuitKey paymentCircuit := ∅.

Definition circuitMap_add (circuit : paymentCircuit) (m : gmap circuitKey paymentCircuit)
    : option error * gmap circuitKey paymentCircuit :=
  match m !! c_PaymentHash circuit with
  | Some _ => (Some (ErrCircuitExists (c_PaymentHash circuit)), m)
  | None => (None, <[c_PaymentHash circuit := circuit]> m)
  end.

Definition circuitMap_remove (key : circuitKey) (m : gmap circuitKey paymentCircuit)
    : (paymentCircuit + error) * gmap circuitKey paymentCircuit :=
  match m !! key with
  | Some circuit => (inl circuit, delete key m)
  | None => (inr (ErrCircuitNotFound key), m)
  end.

(** ** The switch *)

(** What the switch does to its collaborators, in program order. *)
Inductive Effect :=
| EHandleSwitchPacket (detached : bool) (link : ChannelLink) (packet : htlcPacket)
    (* link.HandleSwitchPacket(packet); detached: run by a [go] statement *)
| ELinkStop (link : ChannelLink)                        (* go link.Stop() *)
| EChanSendErr (ch : chanRef) (e : option error)        (* payment.err <- e *)
| EChanSendPreimage (ch : chanRef) (p : Preimage)       (* payment.preimage <- p *)
| ELocalChannelClose (pubKey : PubKey) (req : ChanClose) (* s.cfg.LocalChannelClose(pubKey, req) *)
| EGoForwarder                                          (* go s.htlcForwarder() *)
| ECloseQuit.                                           (* close(s.quit) *)

(** The running totals of the statistics ticker, local to [htlcForwarder]. *)
Record forwardStats := mkStats {
  totalNumUpdates : N;
  totalSatSent : Amount;
  totalSatRecv : Amount
}.

(** Where the [htlcForwarder] goroutine is: not spawned yet, waiting in the
    [select] of its loop, or returned. *)
Inductive forwarderStatus :=
| NotSpawned
| Parked (totals : forwardStats)
| Exited.

(** The [Switch] struct and the Go objects it points to.  [quit] tells
    whether the [quit] channel has been closed; [errChans] and
    [preimageChans] hold the buffers of the channels of the pending
    payments (capacity 1 each). *)
Record Switch := mkSwitch {
  started : Z;
  shutdown : Z;
  quit : bool;
  pendingPayments : gmap PaymentHash (list pendingPayment);
  circuits : gmap circuitKey paymentCircuit;
  links : gmap ChannelID ChannelLink;
  linksIndex : gmap HopID (list ChannelLink);
  errChans : gmap chanRef (list (option error));
  preimageChans : gmap chanRef (list Preimage);
  forwarder : forwarderStatus;
  log : list Effect
}.

Definition set_started (v : Z) (s : Switch) : Switch :=
  {| started := v; shutdown := shutdown s; quit := quit s;
     pendingPayments := pendingPayments s; circuits := circuits s;
     links := links s; linksIndex := linksIndex s; errChans := errChans s;
     preimageChans := preimageChans s; forwarder := forwarder s; log := log s |}.

Definition set_shutdown (v : Z) (s : Switch) : Switch :=
  {| started := started s; shutdown := v; quit := quit s;
     pendingPayments := pendingPayments s; circuits := circuits s;
     links := links s; linksIndex := linksIndex s; errChans := errChans s;
     preimageChans := preimageChans s; forwarder := forwarder s; log := log s |}.

Definition set_quit (v : bool) (s : Switch) : Switch :=
  {| started := started s; shutdown := shutdown s; quit := v;
     pendingPayments := pendingPayments s; circuits := circuits s;
     links := links s; linksIndex := linksIndex s; errChans := errChans s;
     preimageChans := preimageChans s; forwarder := forwarder s; log := log s |}.

Definition set_pendingPayments (v : gmap PaymentHash (list pendingPayment)) (s : Switch) : Switch :=
  {| started := started s; shutdown := shutdown s; quit := quit s;
     pendingPayments := v; circuits := circuits s;
     links := links s; linksIndex := linksIndex s; errChans := errChans s;
     preimageChans := preimageChans s; forwarder := forwarder s; log := log s |}.

Definition set_circuits (v : gmap circuitKey paymentCircuit) (s : Switch) : Switch :=
  {| started := started s; shutdown := shutdown s; quit := quit s;
     pendingPayments := pendingPayments s; circuits := v;
     links := links s; linksIndex := linksIndex s; errChans := errChans s;
     preimageChans := preimageChans s; forwarder := forwarder s; log := log s |}.

Definition set_links (v : gmap ChannelID ChannelLink) (s : Switch) : Switch :=
  {| started := started s; shutdown := shutdown s; quit := quit s;
     pendingPayments := pendingPayments s; circuits := circuits s;
     links := v; linksIndex := linksIndex s; errChans := errChans s;
     preimageChans := preimageChans s; forwarder := forwarder s; log := log s |}.

Definition set_linksIndex (v : gmap HopID (list ChannelLink)) (s : Switch) : Switch :=
  {| started := started s; shutdown := shutdown s; quit := quit s;
     pendingPayments := pendingPayments s; circuits := circuits s;
     links := links s; linksIndex := v; errChans := errChans s;
     preimageChans := preimageChans s; forwarder := forwarder s; log := log s |}.

Definition set_errChans (v : gmap chanRef (list (option error))) (s : Switch) : Switch :=
  {| started := started s; shutdown := shutdown s; quit := quit s;
     pendingPayments := pendingPayments s; circuits := circuits s;
     links := links s; linksIndex := linksIndex s; errChans := v;
     preimageChans := preimageChans s; forwarder := forwarder s; log := log s |}.

Definition set_preimageChans (v : gmap chanRef (list Preimage)) (s : Switch) : Switch :=
  {| started := started s; shutdown := shutdown s; quit := quit s;
     pendingPayments := pendingPayments s; circuits := circuits s;
     links := links s; linksIndex := linksIndex s; errChans := errChans s;
     preimageChans := v; forwarder := forwarder s; log := log s |}.

Definition set_forwarder (v : forwarderStatus) (s : Switch) : Switch :=
  {| started := started s; shutdown := shutdown s; quit := quit s;
     pendingPayments := pendingPayments s; circuits := circuits s;
     links := links s; linksIndex := linksIndex s; errChans := errChans s;
     preimageChans := preimageChans s; forwarder := v; log := log s |}.

(** Record one more effect. *)
Definition emit (e : Effect) (s : Switch) : Switch :=
  {| started := started s; shutdown := shutdown s; quit := quit s;
     pendingPayments := pendingPayments s; circuits := circuits s;
     links := links s; linksIndex := linksIndex s; errChans := errChans s;
     preimageChans := preimageChans s; forwarder := forwarder s; log := log s ++ [e] |}.

(** The setters unfold under [simpl], so that a projection of an updated
    state reduces. *)
Arguments set_started _ _ /.
Arguments set_shutdown _ _ /.
Arguments set_quit _ _ /.
Arguments set_pendingPayments _ _ /.
Arguments set_circuits _ _ /.
Arguments set_links _ _ /.
Arguments set_linksIndex _ _ /.
Arguments set_errChans _ _ /.
Arguments set_preimageChans _ _ /.
Arguments set_forwarder _ _ /.
Arguments emit _ _ /.

(** [New]: every map empty, the flags zero, [quit] open, no goroutine. *)
Definition New : Switch :=
  {| started := 0; shutdown := 0; quit := false;
     pendingPayments := ∅; circuits := newCircuitMap;
     links := ∅; linksIndex := ∅; errChans := ∅; preimageChans := ∅;
     forwarder := NotSpawned; log := [] |}.

(** "Delete without preserving order": [l[i] = l[len(l)-1]], then the slice
    is cut to [l[:len(l)-1]].  The callers pass an index of the slice. *)
Definition swap_remove {A} (i : nat) (l : list A) : list A :=
  match last l with
  | Some x => take (length l - 1) (<[i := x]> l)
  | None => l
  end.

(** ** Commands, replies and steps *)

(** The commands of the [linkControl] channel. *)
Inductive linkControl :=
| addLinkCmd (link : ChannelLink)
| removeLinkCmd (chanID : ChannelID)
| getLinkCmd (chanID : ChannelID)
| getLinksCmd (peer : HopID).

(** The case the [select] of the loop takes, with the value received. *)
Inductive selectCase :=
| chanCloseRequest (req : ChanClose)
| forwardCommand (pkt : htlcPacket)
| logTickerC
| linkControlCmd (cmd : linkControl)
| quitClosed.

(** What the loop sends on the reply channels of the command. *)
Inductive reply :=
| NoReply
| ErrReply (e : option error)
| LinkReply (r : ChannelLink + error)
| LinksReply (r : list ChannelLink + error)
| CloseReply (errs : list error).

(** The case a facade [select] takes: the communication with the dispatch
    loop (the send of the command), or [<-s.quit]. *)
Inductive selected := selComm | selQuit.

(** The two channels [CloseLink] returns, as they are when it returns:
    whether [updateChan] is closed, and the buffer of [errChan]. *)
Record closeChans := mkCloseChans {
  updateChan_closed : bool;
  errChan_buf : list error
}.

(** [SendHTLC] runs in the goroutine of its caller and blocks three times:
    in [forward], on the error channel of its payment and on the preimage
    channel.  [SendHTLC_pc] is where a call is: about to call [forward], in
    the first [select], in the second [select] (holding the error read),
    or returned with its two results. *)
Inductive SendHTLC_pc :=
| atForward (payment : pendingPayment) (packet : htlcPacket)
| atAwaitErr (payment : pendingPayment)
| atAwaitPreimage (payment : pendingPayment) (err : option error)
| atReturn (preimage : Preimage) (err : option error).

(** The steps that change the switch: the lifecycle calls, a tick of the
    statistics ticker, the facade calls (each with the case its [select]
    takes), and the steps of calls of [SendHTLC]. *)
Inductive op :=
| OpStart
| OpStop
| OpTick
| OpForward (sel : selected) (packet : htlcPacket)
| OpAddLink (sel : selected) (link : ChannelLink)
| OpRemoveLink (sel : selected) (chanID : ChannelID)
| OpGetLink (sel : selected) (chanID : ChannelID)
| OpGetLinks (sel : selected) (hop : HopID)
| OpCloseLink (sel : selected) (chanPoint : OutPoint) (closeType : ChannelCloseType)
| OpSendHTLC (nextNode : PubKey) (update : Message)
| OpSendHTLC_step (sel : selected) (pc : SendHTLC_pc).

(** The two registry routines as steps. *)
Inductive registryOp :=
| opAddLink (link : ChannelLink)
| opRemoveLink (chanID : ChannelID).

(** ** Sample values *)

(** Values for the functions and constants of other packages, links, and
    states of a small switch, used to exercise the properties below. *)
Definition sample_NewHopID (pubKey : PubKey) : HopID :=
  match pubKey with [] => 0%N | b :: _ => b end.

Definition sample_NewChanID (chanPoint : OutPoint) : ChannelID := Hash chanPoint.

Definition sample_ToFailCode (reason : OpaqueReason) : FailCode + error :=
  match reason with [] => inr (ErrForeign 0%N) | b :: _ => inl b end.

Definition sample_UnknownDestination : FailCode := 4%N.
Definition sample_InsufficientCapacity : FailCode := 0%N.
Definition sample_UnknownError : FailCode := 7%N.

Definition linkA : ChannelLink :=
  {| ChanID := 1%N; PeerPubKey := [10%N]; Bandwidth := 100%Z;
     Stats := (0%N, 0%Z, 0%Z); StartErr := None |}.

Definition linkB : ChannelLink :=
  {| ChanID := 2%N; PeerPubKey := [20%N]; Bandwidth := 100%Z;
     Stats := (0%N, 0%Z, 0%Z); StartErr := None |}.

(** A second link that reports the channel id of [linkA]. *)
Definition linkA' : ChannelLink :=
  {| ChanID := 1%N; PeerPubKey := [10%N]; Bandwidth := 5%Z;
     Stats := (0%N, 0%Z, 0%Z); StartErr := None |}.

Definition zeroStats : forwardStats :=
  {| totalNumUpdates := 0%N; totalSatSent := 0%Z; totalSatRecv := 0%Z |}.

(** The switch started, with [linkA] and [linkB] registered. *)
Definition sample_ops : list op :=
  [OpStart; OpAddLink selComm linkA; OpAddLink selComm linkB].

Definition sample_started : Switch :=
  {| started := 1; shutdown := 0; quit := false;
     pendingPayments := ∅; circuits := ∅;
     links := <[2%N := linkB]> (<[1%N := linkA]> ∅);
     linksIndex := <[20%N := [linkB]]> (<[10%N := [linkA]]> ∅);
     errChans := ∅; preimageChans := ∅;
     forwarder := Parked zeroStats; log := [EGoForwarder] |}.

(** Two links added, the first removed. *)
Definition sample_registry_ops : list registryOp :=
  [opAddLink linkA; opAddLink linkB; opRemoveLink 1%N].

(** An Add of 50 from [linkA] to the peer of [linkB], and the Settle that
    answers it. *)
Definition sample_add : htlcPacket :=
  {| payHash := 0%N; dest := 20%N; src := 1%N; amount := 0%Z;
     htlc := UpdateAddHTLC 170%N 50%Z |}.


(** An Add to a peer with no link, and an Add no link has the bandwidth
    for. *)
Definition sample_add_nowhere : htlcPacket :=
  {| payHash := 0%N; dest := 99%N; src := 1%N; amount := 0%Z;
     htlc := UpdateAddHTLC 170%N 50%Z |}.

Definition sample_add_large : htlcPacket :=
  {| payHash := 0%N; dest := 20%N; src := 1%N; amount := 0%Z;
     htlc := UpdateAddHTLC 170%N 500%Z |}.

(** A packet whose message is none of the three updates. *)
Definition sample_other : htlcPacket :=
  {| payHash := 0%N; dest := 20%N; src := 1%N; amount := 0%Z; htlc := OtherMessage |}.

(** [sample_started] after [sample_add] went through: its circuit is in. *)
Definition sample_forwarded : Switch :=
  {| started := 1; shutdown := 0; quit := false;
     pendingPayments := ∅;
     circuits := <[170%N := {| c_PaymentHash := 170%N; Src := 1%N; Dest := 2%N |}]> ∅;
     links := <[2%N := linkB]> (<[1%N := linkA]> ∅);
     linksIndex := <[20%N := [linkB]]> (<[10%N := [linkA]]> ∅);
     errChans := ∅; preimageChans := ∅;
     forwarder := Parked zeroStats;
     log := [EGoForwarder; EHandleSwitchPacket false linkB sample_add] |}.

(** A local payment of 30 under hash 2, sent to the peer of [linkB] and
    waiting for its resolution; the Fail that resolves it. *)
Definition sample_payment : pendingPayment :=
  {| pp_paymentHash := 2%N; pp_amount := 30%Z; pp_preimage := 0; pp_err := 0 |}.

Definition sample_init : htlcPacket :=
  {| payHash := 0%N; dest := 20%N; src := 0%N; amount := 0%Z;
     htlc := UpdateAddHTLC 2%N 30%Z |}.

Definition sample_pending_ops : list op :=
  sample_ops ++ [OpSendHTLC [20%N] (UpdateAddHTLC 2%N 30%Z);
                 OpSendHTLC_step selComm (atForward sample_payment sample_init)].

Definition sample_pending : Switch :=
  {| started := 1; shutdown := 0; quit := false;
     pendingPayments := <[2%N := [sample_payment]]> ∅; circuits := ∅;
     links := <[2%N := linkB]> (<[1%N := linkA]> ∅);
     linksIndex := <[20%N := [linkB]]> (<[10%N := [linkA]]> ∅);
     errChans := <[0 := []]> ∅; preimageChans := <[0 := []]> ∅;
     forwarder := Parked zeroStats;
     log := [EGoForwarder; EHandleSwitchPacket false linkB sample_init] |}.

Definition sample_fail : htlcPacket :=
  {| payHash := 2%N; dest := 0%N; src := 2%N; amount := 30%Z;
     htlc := UpdateFailHTLC 0%N [4%N] |}.

(** A second send under the same hash and amount, to a peer with no
    link. *)
Definition sample_payment2 : pendingPayment :=
  {| pp_paymentHash := 2%N; pp_amount := 30%Z; pp_preimage := 1; pp_err := 1 |}.

Definition sample_init2 : htlcPacket :=
  {| payHash := 0%N; dest := 99%N; src := 0%N; amount := 0%Z;
     htlc := UpdateAddHTLC 2%N 30%Z |}.

(** A third link, of the peer of [linkB], with statistics to report; the
    switch started with that link alone. *)
Definition linkC : ChannelLink :=
  {| ChanID := 3%N; PeerPubKey := [20%N]; Bandwidth := 10%Z;
     Stats := (3%N, 40%Z, 2%Z); StartErr := None |}.

Definition sample_busy_ops : list op := [OpStart; OpAddLink selComm linkC].

Definition sample_busy : Switch :=
  {| started := 1; shutdown := 0; quit := false;
     pendingPayments := ∅; circuits := ∅;
     links := <[3%N := linkC]> ∅;
     linksIndex := <[20%N := [linkC]]> ∅;
     errChans := ∅; preimageChans := ∅;
     forwarder := Parked zeroStats; log := [EGoForwarder] |}.

(** The outpoints of the channel of [linkA] and of an unknown channel. *)
Definition sample_outpoint : OutPoint := {| Hash := 1%N; Index := 0%N |}.
Definition sample_outpoint_unknown : OutPoint := {| Hash := 9%N; Index := 0%N |}.

Section Switch.

(** Functions and constants of other packages, which the switch only calls:
    [NewHopID] (the fingerprint of a public key), [lnwire]'s
    [NewChanIDFromOutPoint], the three failure codes the switch emits, and
    [OpaqueReason.ToFailCode]. *)
Variable NewHopID : PubKey → HopID.
Variable NewChanIDFromOutPoint : OutPoint → ChannelID.
Variables UnknownDestination InsufficientCapacity UnknownError : FailCode.
Variable ToFailCode : OpaqueReason → FailCode + error.

(** ** Link registry *)

(** [getLink]. *)
Definition getLink (chanID : ChannelID) (s : Switch) : ChannelLink + error :=
  match links s !! chanID with
  | Some link => inl link
  | None => inr ErrChannelLinkNotFound
  end.

(** [getLinks]: a copy of the peer's slice. *)
Definition getLinks (destination : HopID) (s : Switch) : list ChannelLink + error :=
  match linksIndex s !! destination with
  | Some links => inl links
  | None => inr (ErrLocateLinks destination)
  end.

(** [addLink].  [s.linksIndex[hop]] of an absent key is the nil slice. *)
Definition addLink (link : ChannelLink) (s : Switch) : option error * Switch :=
  match StartErr link with
  | Some err => (Some err, s)
  | None =>
    let s := set_links (<[ChanID link := link]> (links s)) s in
    let hop := NewHopID (PeerPubKey link) in
    let s := set_linksIndex
               (<[hop := default [] (linksIndex s !! hop) ++ [link]]> (linksIndex s)) s in
    (None, s)
  end.

(** [removeLink].  The loop over the peer's slice stops at the first entry
    with the channel id of the link. *)
Definition removeLink (chanID : ChannelID) (s : Switch) : option error * Switch :=
  match links s !! chanID with
  | None => (Some ErrChannelLinkNotFound, s)
  | Some link =>
    let s := set_links (delete (ChanID link) (links s)) s in
    let hop := NewHopID (PeerPubKey link) in
    let links := default [] (linksIndex s !! hop) in
    let s :=
      match list_find (λ l, ChanID l = ChanID link) links with
      | Some (i, _) =>
        let s := set_linksIndex (<[hop := swap_remove i links]> (linksIndex s)) s in
        if decide (length (default [] (linksIndex s !! hop)) = 0)
        then set_linksIndex (delete hop (linksIndex s)) s
        else s
      | None => s
      end in
    (None, emit (ELinkStop link) s)
  end.

(** ** Pending-payment table *)

(** [findPayment]: the first record under [hash] with the given amount. *)
Definition findPayment (amount : Amount) (hash : PaymentHash) (s : Switch)
    : pendingPayment + error :=
  match list_find (λ payment, pp_amount payment = amount)
          (default [] (pendingPayments s !! hash)) with
  | Some (_, payment) => inl payment
  | None => inr (ErrPendingPayment hash amount)
  end.

(** [removePendingPayment]: swap-remove of the first record under [hash]
    with the given amount; the key goes when its slice becomes empty. *)
Definition removePendingPayment (amount : Amount) (hash : PaymentHash) (s : Switch)
    : option error * Switch :=
  let payments := default [] (pendingPayments s !! hash) in
  match list_find (λ payment, pp_amount payment = amount) payments with
  | Some (i, _) =>
    let s := set_pendingPayments
               (<[hash := swap_remove i payments]> (pendingPayments s)) s in
    let s := if decide (length (default [] (pendingPayments s !! hash)) = 0)
             then set_pendingPayments (delete hash (pendingPayments s)) s
             else s in
    (None, s)
  | None => (Some (ErrPendingPayment hash amount), s)
  end.

(** [numPendingPayments]. *)
Definition numPendingPayments (s : Switch) : nat :=
  foldr (λ payments l, l + length payments) 0 (map_to_list (pendingPayments s)).*2.

(** [payment.err <- e] and [payment.preimage <- p] on channels made with
    capacity 1: the send proceeds only while the buffer has room. *)
Definition send_err (ch : chanRef) (e : option error) (s : Switch) : option Switch :=
  match errChans s !! ch with
  | Some buf =>
    if decide (length buf < 1)
    then Some (emit (EChanSendErr ch e) (set_errChans (<[ch := buf ++ [e]]> (errChans s)) s))
    else None
  | None => None
  end.

Definition send_preimage (ch : chanRef) (p : Preimage) (s : Switch) : option Switch :=
  match preimageChans s !! ch with
  | Some buf =>
    if decide (length buf < 1)
    then Some (emit (EChanSendPreimage ch p)
                 (set_preimageChans (<[ch := buf ++ [p]]> (preimageChans s)) s))
    else None
  | None => None
  end.

(** ** The two handlers of a forward command *)

(** The loop that both handlers run over the candidate links: the first link
    with [link.Bandwidth() >= htlc.Amount], [nil] when there is none. *)
Definition findDestination (amount : Amount) (links : list ChannelLink) : option ChannelLink :=
  find (λ link, bool_decide (amount ≤ Bandwidth link)%Z) links.

(** The error a Fail message is turned into for the user. *)
Definition userErr (id : N) (reason : OpaqueReason) : error :=
  match ToFailCode reason with
  | inr err => ErrDecodeFailCode id err
  | inl code => ErrFailCode code
  end.

(** [handleLocalDispatch]. *)
Definition handleLocalDispatch (payment : pendingPayment) (packet : htlcPacket)
    (s : Switch) : option (option error * Switch) :=
  match htlc packet with
  | UpdateAddHTLC _ hAmount =>
    match getLinks (dest packet) s with
    | inr _ => Some (Some (ErrFailCode UnknownDestination), s)
    | inl links =>
      match findDestination hAmount links with
      | None => Some (Some (ErrFailCode InsufficientCapacity), s)
      | Some destination =>
        Some (None, emit (EHandleSwitchPacket false destination packet) s)
      end
    end
  | UpdateFufillHTLC preimage =>
    s ← send_err (pp_err payment) None s;
    s ← send_preimage (pp_preimage payment) preimage s;
    Some (None, (removePendingPayment (pp_amount payment) (pp_paymentHash payment) s).2)
  | UpdateFailHTLC id reason =>
    s ← send_err (pp_err payment) (Some (userErr id reason)) s;
    s ← send_preimage (pp_preimage payment) zeroPreimage s;
    Some (None, (removePendingPayment (pp_amount payment) (pp_paymentHash payment) s).2)
  | OtherMessage => Some (Some ErrWrongUpdateType, s)
  end.

(** The Fail packet sent back to the source link of a forwarded Add. *)
Definition failBack (source : ChannelLink) (packet : htlcPacket) (code : FailCode)
    (hPaymentHash : PaymentHash) (s : Switch) : Switch :=
  emit (EHandleSwitchPacket true source
          (newFailPacket (src packet) (UpdateFailHTLC 0%N [code]) hPaymentHash 0%Z)) s.

(** [handlePacketForward]. *)
Definition handlePacketForward (packet : htlcPacket) (s : Switch) : option error * Switch :=
  match htlc packet with
  | UpdateAddHTLC hPaymentHash hAmount =>
    match getLink (src packet) s with
    | inr err => (Some (ErrFindSourceLink (src packet) err), s)
    | inl source =>
      match getLinks (dest packet) s with
      | inr err =>
        (Some (ErrFindLinks err), failBack source packet UnknownDestination hPaymentHash s)
      | inl links =>
        match findDestination hAmount links with
        | None =>
          (Some (ErrInsufficientCapacity hAmount),
           failBack source packet InsufficientCapacity hPaymentHash s)
        | Some destination =>
          match circuitMap_add
                  (newPaymentCircuit (ChanID source) (ChanID destination) hPaymentHash)
                  (circuits s) with
          | (Some err, m) =>
            (Some (ErrAddCircuit err),
             failBack source packet UnknownError hPaymentHash (set_circuits m s))
          | (None, m) =>
            (None, emit (EHandleSwitchPacket false destination packet) (set_circuits m s))
          end
        end
      end
    end
  | UpdateFufillHTLC _ | UpdateFailHTLC _ _ =>
    match circuitMap_remove (payHash packet) (circuits s) with
    | (inr _, m) => (Some (ErrRemoveCircuit (payHash packet)), set_circuits m s)
    | (inl circuit, m) =>
      let s := set_circuits m s in
      match getLink (Src circuit) s with
      | inr err => (Some (ErrGetSourceLink err), s)
      | inl source => (None, emit (EHandleSwitchPacket false source packet) s)
      end
    end
  | OtherMessage => (Some ErrWrongUpdateType, s)
  end.

(** ** The dispatch loop *)

(** [handleChanelClose]: the link whose [ChanID()] is the channel id of the
    outpoint (the last one met, in the order the map is ranged over); the
    first component is what is sent on [req.Err]. *)
Definition handleChanelClose (req : ChanClose) (s : Switch) : list error * Switch :=
  let chanID := NewChanIDFromOutPoint (ChanPoint req) in
  let link := foldl (λ link l, if decide (ChanID l = chanID) then Some l else link)
                None (map_to_list (links s)).*2 in
  match link with
  | None => ([ErrChannelNotFound chanID], s)
  | Some link => ([], emit (ELocalChannelClose (PeerPubKey link) req) s)
  end.

(** [uint64] and [int64] arithmetic of the statistics. *)
Definition u64 (n : N) : N := (n mod 2 ^ 64)%N.
Definition u64_sub (a b : N) : N := ((u64 a + 2 ^ 64 - u64 b) mod 2 ^ 64)%N.
Definition i64 (z : Z) : Z := ((z + 2 ^ 63) mod 2 ^ 64 - 2 ^ 63)%Z.

(** The [logTicker.C] case: the new running totals. *)
Definition logTick (totals : forwardStats) (s : Switch) : forwardStats :=
  let prevSatSent := totalSatSent totals in
  let prevSatRecv := totalSatRecv totals in
  let prevNumUpdates := totalNumUpdates totals in
  let '(newNumUpdates, newSatSent, newSatRecv) :=
    foldl (λ '(n, st, rv) link,
             let '(updates, sent, recv) := Stats link in
             (u64 (n + updates), i64 (st + sent), i64 (rv + recv)))
      (0%N, 0%Z, 0%Z) (map_to_list (links s)).*2 in
  let '(diffNumUpdates, diffSatSent, diffSatRecv) :=
    if decide (prevNumUpdates = 0%N)
    then (newNumUpdates, newSatSent, newSatRecv)
    else (u64_sub newNumUpdates prevNumUpdates,
          i64 (newSatSent - prevSatSent), i64 (newSatRecv - prevSatRecv)) in
  if decide (diffNumUpdates = 0%N) then totals
  else {| totalNumUpdates := u64 (totalNumUpdates totals + diffNumUpdates);
          totalSatSent := i64 (totalSatSent totals + diffSatSent);
          totalSatRecv := i64 (totalSatRecv totals + diffSatRecv) |}.

(** The deferred teardown of [htlcForwarder]: a range over [s.links] in
    which each turn removes a link; an entry removed before the range
    reaches it is not produced. *)
Fixpoint removeLinks (entries : list (ChannelID * ChannelLink)) (s : Switch) : Switch :=
  match entries with
  | [] => s
  | (chanID, link) :: entries =>
    match links s !! chanID with
    | Some _ => removeLinks entries (removeLink (ChanID link) s).2
    | None => removeLinks entries s
    end
  end.

(** [htlcForwarder] returns: the deferred functions run. *)
Definition forwarderReturn (s : Switch) : Switch :=
  set_forwarder Exited (removeLinks (map_to_list (links s)) s).

(** The forward-command case: by a pending payment with the hash and amount
    of the packet, or else the forward path. *)
Definition dispatch (paymentHash : PaymentHash) (amount : Amount) (pkt : htlcPacket)
    (s : Switch) : option (option error * Switch) :=
  match findPayment amount paymentHash s with
  | inr _ => Some (handlePacketForward pkt s)
  | inl payment => handleLocalDispatch payment pkt s
  end.

(** One turn of the [for { select { ... } }] of [htlcForwarder], entered
    with the goroutine waiting in the [select] ([forwarder s = Parked
    totals]).  The result is [None] when the turn never ends (a send on a
    full payment channel) or the case is not ready. *)
Definition htlcForwarder (c : selectCase) (totals : forwardStats) (s : Switch)
    : option (reply * Switch) :=
  match c with
  | chanCloseRequest req =>
    let '(errs, s) := handleChanelClose req s in Some (CloseReply errs, s)
  | forwardCommand pkt =>
    match htlc pkt with
    | UpdateAddHTLC mPaymentHash mAmount =>
      '(err, s) ← dispatch mPaymentHash mAmount pkt s; Some (ErrReply err, s)
    | UpdateFufillHTLC _ | UpdateFailHTLC _ _ =>
      '(err, s) ← dispatch (payHash pkt) (amount pkt) pkt s; Some (ErrReply err, s)
    | OtherMessage =>
      Some (ErrReply (Some ErrWrongTypeOfUpdate), forwarderReturn s)
    end
  | logTickerC => Some (NoReply, set_forwarder (Parked (logTick totals s)) s)
  | linkControlCmd cmd =>
    match cmd with
    | addLinkCmd link => let '(err, s) := addLink link s in Some (ErrReply err, s)
    | removeLinkCmd chanID => let '(err, s) := removeLink chanID s in Some (ErrReply err, s)
    | getLinkCmd chanID => Some (LinkReply (getLink chanID s), s)
    | getLinksCmd peer => Some (LinksReply (getLinks peer s), s)
    end
  | quitClosed => if quit s then Some (NoReply, forwarderReturn s) else None
  end.

(** ** The public facade *)

(** [select { case ch <- command: ...; case <-s.quit: ... }] for a command
    channel of the loop.  The send is ready when the loop waits in its
    [select]; the loop then runs its turn for the command and the reply is
    what it sent back.  [<-s.quit] is ready once [quit] is closed. *)
Definition submit (sel : selected) (c : selectCase) (s : Switch)
    : option (option reply * Switch) :=
  match sel with
  | selComm =>
    match forwarder s with
    | Parked totals => '(r, s) ← htlcForwarder c totals s; Some (Some r, s)
    | _ => None
    end
  | selQuit => if quit s then Some (None, s) else None
  end.

(** [forward]. *)
Definition forward (sel : selected) (packet : htlcPacket) (s : Switch)
    : option (option error * Switch) :=
  '(r, s) ← submit sel (forwardCommand packet) s;
  match r with
  | None => Some (Some ErrSwitchStopped, s)
  | Some (ErrReply err) => Some (err, s)
  | Some _ => None
  end.

(** [AddLink]. *)
Definition AddLink (sel : selected) (link : ChannelLink) (s : Switch)
    : option (option error * Switch) :=
  '(r, s) ← submit sel (linkControlCmd (addLinkCmd link)) s;
  match r with
  | None => Some (Some ErrSwitchStopped, s)
  | Some (ErrReply err) => Some (err, s)
  | Some _ => None
  end.

(** [RemoveLink]. *)
Definition RemoveLink (sel : selected) (chanID : ChannelID) (s : Switch)
    : option (option error * Switch) :=
  '(r, s) ← submit sel (linkControlCmd (removeLinkCmd chanID)) s;
  match r with
  | None => Some (Some ErrSwitchStopped, s)
  | Some (ErrReply err) => Some (err, s)
  | Some _ => None
  end.

(** [GetLink]. *)
Definition GetLink (sel : selected) (chanID : ChannelID) (s : Switch)
    : option ((ChannelLink + error) * Switch) :=
  '(r, s) ← submit sel (linkControlCmd (getLinkCmd chanID)) s;
  match r with
  | None => Some (inr ErrSwitchStopped, s)
  | Some (LinkReply res) => Some (res, s)
  | Some _ => None
  end.

(** [GetLinks]. *)
Definition GetLinks (sel : selected) (hop : HopID) (s : Switch)
    : option ((list ChannelLink + error) * Switch) :=
  '(r, s) ← submit sel (linkControlCmd (getLinksCmd hop)) s;
  match r with
  | None => Some (inr ErrSwitchStopped, s)
  | Some (LinksReply res) => Some (res, s)
  | Some _ => None
  end.

(** [CloseLink]. *)
Definition CloseLink (sel : selected) (chanPoint : OutPoint) (closeType : ChannelCloseType)
    (s : Switch) : option (closeChans * Switch) :=
  '(r, s) ← submit sel (chanCloseRequest {| CloseType := closeType; ChanPoint := chanPoint |}) s;
  match r with
  | None => Some ({| updateChan_closed := true; errChan_buf := [ErrCloseSwitchStopped] |}, s)
  | Some (CloseReply errs) => Some ({| updateChan_closed := false; errChan_buf := errs |}, s)
  | Some _ => None
  end.

(** [SendHTLC] up to the call of [forward]: the payment is made, with two
    fresh channels of capacity 1, and appended under its hash.  The type
    assertion on [update] panics ([None]) for any other message. *)
Definition SendHTLC_enter (nextNode : PubKey) (update : Message) (s : Switch)
    : option (SendHTLC_pc * Switch) :=
  match update with
  | UpdateAddHTLC hPaymentHash hAmount =>
    let errCh := fresh (dom (errChans s)) in
    let preimageCh := fresh (dom (preimageChans s)) in
    let payment := {| pp_paymentHash := hPaymentHash; pp_amount := hAmount;
                      pp_preimage := preimageCh; pp_err := errCh |} in
    let s := set_errChans (<[errCh := []]> (errChans s)) s in
    let s := set_preimageChans (<[preimageCh := []]> (preimageChans s)) s in
    let s := set_pendingPayments
               (<[hPaymentHash := default [] (pendingPayments s !! hPaymentHash) ++ [payment]]>
                  (pendingPayments s)) s in
    let hop := NewHopID nextNode in
    Some (atForward payment (newInitPacket hop update), s)
  | _ => None
  end.

(** One step of a call of [SendHTLC], from one blocking point to the next;
    [sel] is the case its [select] takes. *)
Definition SendHTLC_step (sel : selected) (pc : SendHTLC_pc) (s : Switch)
    : option (SendHTLC_pc * Switch) :=
  match pc with
  | atForward payment packet =>
    '(err, s) ← forward sel packet s;
    match err with
    | Some err =>
      let s := (removePendingPayment (pp_amount payment) (pp_paymentHash payment) s).2 in
      Some (atReturn zeroPreimage (Some err), s)
    | None => Some (atAwaitErr payment, s)
    end
  | atAwaitErr payment =>
    match sel with
    | selComm =>
      match errChans s !! pp_err payment with
      | Some (e :: buf) =>
        Some (atAwaitPreimage payment e,
              set_errChans (<[pp_err payment := buf]> (errChans s)) s)
      | _ => None
      end
    | selQuit =>
      if quit s then Some (atReturn zeroPreimage (Some ErrServiceShutdown), s) else None
    end
  | atAwaitPreimage payment err =>
    match sel with
    | selComm =>
      match preimageChans s !! pp_preimage payment with
      | Some (p :: buf) =>
        Some (atReturn p err,
              set_preimageChans (<[pp_preimage payment := buf]> (preimageChans s)) s)
      | _ => None
      end
    | selQuit =>
      if quit s then Some (atReturn zeroPreimage (Some ErrServiceShutdown), s) else None
    end
  | atReturn _ _ => None
  end.

(** ** Lifecycle *)

(** [Start] (it returns [nil] on both paths).  The new goroutine goes to the
    [select] of its loop; when [quit] is closed already that [select] can
    only take [<-s.quit], since no facade call waits on a command channel
    once [quit] is closed. *)
Definition Start (s : Switch) : Switch :=
  if decide (started s = 0%Z)
  then
    let s := emit EGoForwarder (set_started 1%Z s) in
    if quit s then forwarderReturn s
    else set_forwarder (Parked {| totalNumUpdates := 0%N; totalSatSent := 0%Z; totalSatRecv := 0%Z |}) s
  else s.

(** [Stop] (it returns [nil] on both paths): [close(s.quit)], then
    [s.wg.Wait()] until the loop has taken [<-s.quit] and returned. *)
Definition Stop (s : Switch) : Switch :=
  if decide (shutdown s = 0%Z)
  then
    let s := emit ECloseQuit (set_quit true (set_shutdown 1%Z s)) in
    match forwarder s with
    | Parked totals => default s (snd <$> htlcForwarder quitClosed totals s)
    | _ => s
    end
  else s.

(** ** Runs of the whole switch *)

Definition exec (o : op) (s : Switch) : option Switch :=
  match o with
  | OpStart => Some (Start s)
  | OpStop => Some (Stop s)
  | OpTick =>
    match forwarder s with
    | Parked totals => snd <$> htlcForwarder logTickerC totals s
    | _ => None
    end
  | OpForward sel packet => snd <$> forward sel packet s
  | OpAddLink sel link => snd <$> AddLink sel link s
  | OpRemoveLink sel chanID => snd <$> RemoveLink sel chanID s
  | OpGetLink sel chanID => snd <$> GetLink sel chanID s
  | OpGetLinks sel hop => snd <$> GetLinks sel hop s
  | OpCloseLink sel chanPoint closeType => snd <$> CloseLink sel chanPoint closeType s
  | OpSendHTLC nextNode update => snd <$> SendHTLC_enter nextNode update s
  | OpSendHTLC_step sel pc => snd <$> SendHTLC_step sel pc s
  end.

Fixpoint run (ops : list op) (s : Switch) : option Switch :=
  match ops with
  | [] => Some s
  | o :: ops => s ← exec o s; run ops s
  end.

(** The states of a switch made by [New]. *)
Inductive reachable : Switch → Prop :=
| reachable_New : reachable New
| reachable_exec s o s' : reachable s → exec o s = Some s' → reachable s'.

(** ** Predicates of the properties *)

(** The two link maps agree: every link is stored under its own channel
    id; every link of [links] is in the slice of its peer; every slice holds
    each of its links once, is not empty, and holds only links of that peer
    that are in [links]. *)
Definition registry_inv (s : Switch) : Prop :=
  (∀ chanID link, links s !! chanID = Some link → ChanID link = chanID) ∧
  (∀ chanID link, links s !! chanID = Some link →
     ∃ ls, linksIndex s !! NewHopID (PeerPubKey link) = Some ls ∧ link ∈ ls) ∧
  (∀ hop ls, linksIndex s !! hop = Some ls →
     NoDup ls ∧ ls ≠ [] ∧
     ∀ link, link ∈ ls →
       NewHopID (PeerPubKey link) = hop ∧ links s !! ChanID link = Some link).

Definition registry_step (o : registryOp) (s : Switch) : Switch :=
  match o with
  | opAddLink link => (addLink link s).2
  | opRemoveLink chanID => (removeLink chanID s).2
  end.

Definition registry_run (ops : list registryOp) (s : Switch) : Switch :=
  foldl (λ s o, registry_step o s) s ops.

(** The links a sequence of steps adds. *)
Definition added (ops : list registryOp) : list ChannelLink :=
  omap (λ o, match o with opAddLink link => Some link | opRemoveLink _ => None end) ops.

(** Link-registry consistency, as the specification words it: every entry
    of [links] is a link with that channel id; every link of [links] has
    exactly one entry in the slice of its peer; every entry of a slice is a
    link of that peer that [links] holds; and no peer has an empty slice. *)
Definition registry_consistent (s : Switch) : Prop :=
  (∀ chanID link, links s !! chanID = Some link → ChanID link = chanID) ∧
  (∀ chanID link, links s !! chanID = Some link →
     ∃ ls, linksIndex s !! NewHopID (PeerPubKey link) = Some ls ∧
           ∃ i, ls !! i = Some link ∧ ∀ j, ls !! j = Some link → j = i) ∧
  (∀ hop ls i link, linksIndex s !! hop = Some ls → ls !! i = Some link →
     NewHopID (PeerPubKey link) = hop ∧ links s !! ChanID link = Some link) ∧
  (∀ hop ls, linksIndex s !! hop = Some ls → ls ≠ []).

(** A Settle or a Fail message. *)
Definition is_settle_or_fail (m : Message) : Prop :=
  match m with
  | UpdateFufillHTLC _ | UpdateFailHTLC _ _ => True
  | _ => False
  end.

(** The offer of a Fail packet back to [source] for the Add of [packet],
    on a detached goroutine: the packet names the source channel and the
    payment hash of the Add, and its reason is the one byte [code]. *)
Definition failOffer (source : ChannelLink) (packet : htlcPacket)
    (hPaymentHash : PaymentHash) (code : FailCode) : Effect :=
  EHandleSwitchPacket true source
    {| payHash := hPaymentHash; dest := 0%N; src := src packet; amount := 0%Z;
       htlc := UpdateFailHTLC 0%N [code] |}.

(** What a Settle or Fail message writes to the two channels of a payment:
    [nil] and the preimage, or the error made from the reason and the zero
    preimage. *)
Definition resolution_err (m : Message) : option error :=
  match m with
  | UpdateFailHTLC id reason => Some (userErr id reason)
  | _ => None
  end.

Definition resolution_preimage (m : Message) : Preimage :=
  match m with
  | UpdateFufillHTLC preimage => preimage
  | _ => zeroPreimage
  end.

(** Parts of the state a step leaves as they are. *)
Definition keeps_lifecycle (s s' : Switch) : Prop :=
  started s' = started s ∧ shutdown s' = shutdown s ∧ quit s' = quit s.

Definition keeps_payments (s s' : Switch) : Prop :=
  pendingPayments s' = pendingPayments s ∧ errChans s' = errChans s ∧
  preimageChans s' = preimageChans s.

Definition keeps_registry (s s' : Switch) : Prop :=
  links s' = links s ∧ linksIndex s' = linksIndex s.

(** The lifecycle flags agree with the Go objects: once [shutdown] is set
    [quit] is closed, and once [quit] is closed no dispatch loop waits in
    its [select]. *)
Definition lifecycle_inv (s : Switch) : Prop :=
  (shutdown s ≠ 0%Z → quit s = true) ∧
  (quit s = true → ∀ totals, forwarder s ≠ Parked totals).

(** Every facade call fails fast with the "stopped" error of its kind, and
    leaves the state as it is: the communication case of its [select]
    cannot be taken, the [<-s.quit] case can, and it returns the error; a
    call of [SendHTLC] returns the zero preimage and the error of
    [forward], with the registry and the circuit map as they were. *)
Definition facade_stopped (s : Switch) : Prop :=
  (∀ packet, forward selComm packet s = None ∧
             forward selQuit packet s = Some (Some ErrSwitchStopped, s)) ∧
  (∀ link, AddLink selComm link s = None ∧
           AddLink selQuit link s = Some (Some ErrSwitchStopped, s)) ∧
  (∀ chanID, RemoveLink selComm chanID s = None ∧
             RemoveLink selQuit chanID s = Some (Some ErrSwitchStopped, s)) ∧
  (∀ chanID, GetLink selComm chanID s = None ∧
             GetLink selQuit chanID s = Some (inr ErrSwitchStopped, s)) ∧
  (∀ hop, GetLinks selComm hop s = None ∧
          GetLinks selQuit hop s = Some (inr ErrSwitchStopped, s)) ∧
  (∀ chanPoint closeType,
     CloseLink selComm chanPoint closeType s = None ∧
     CloseLink selQuit chanPoint closeType s =
       Some ({| updateChan_closed := true; errChan_buf := [ErrCloseSwitchStopped] |}, s)) ∧
  (∀ nextNode h a,
     ∃ payment packet s1 s2,
       SendHTLC_enter nextNode (UpdateAddHTLC h a) s = Some (atForward payment packet, s1) ∧
       SendHTLC_step selComm (atForward payment packet) s1 = None ∧
       SendHTLC_step selQuit (atForward payment packet) s1 =
         Some (atReturn zeroPreimage (Some ErrSwitchStopped), s2) ∧
       links s2 = links s ∧ linksIndex s2 = linksIndex s ∧ circuits s2 = circuits s).





(** [payment] is in the pending-payment table. *)
Definition pending (payment : pendingPayment) (s : Switch) : Prop :=
  ∃ hash ps, pendingPayments s !! hash = Some ps ∧ payment ∈ ps.

(** The pending-payment table and the channels of its records: a slice
    holds each of its records once, is not empty, and holds records of its
    hash; both channels of a pending record are empty; two pending records
    share no channel. *)
Definition pending_inv (s : Switch) : Prop :=
  (∀ hash ps, pendingPayments s !! hash = Some ps →
     NoDup ps ∧ ps ≠ [] ∧ ∀ payment, payment ∈ ps → pp_paymentHash payment = hash) ∧
  (∀ payment, pending payment s →
     errChans s !! pp_err payment = Some [] ∧
     preimageChans s !! pp_preimage payment = Some []) ∧
  (∀ p1 p2, pending p1 s → pending p2 s →
     pp_err p1 = pp_err p2 ∨ pp_preimage p1 = pp_preimage p2 → p1 = p2).

(** The steps that can take a record out of the pending-payment table: a
    [forward] of a Settle or Fail, and the step of a call of [SendHTLC]
    that calls [forward] (and removes its payment when [forward] fails). *)
Definition removes_pending (o : op) : Prop :=
  (∃ sel packet, o = OpForward sel packet ∧ is_settle_or_fail (htlc packet)) ∨
  (∃ sel payment packet, o = OpSendHTLC_step sel (atForward payment packet)).



(** Effects other than a send on a channel of a payment. *)
Definition quiet (l : list Effect) : Prop :=
  Forall (λ ev, match ev with
                | EChanSendErr _ _ | EChanSendPreimage _ _ => False
                | _ => True
                end) l.

(** [s'] has the log of [s] and, after it, effects that are no sends. *)
Definition extends_quietly (s s' : Switch) : Prop :=
  ∃ l, log s' = log s ++ l ∧ quiet l.


(** Every link of [links] is stored under its own channel id and is in the
    slice of its peer. *)
Definition links_indexed (s : Switch) : Prop :=
  ∀ chanID link, links s !! chanID = Some link →
    ChanID link = chanID ∧
    ∃ ls, linksIndex s !! NewHopID (PeerPubKey link) = Some ls ∧ link ∈ ls.

(** The steps of the facade that concern the link registry: the four
    link-control calls and [CloseLink]. *)
Definition is_link_control (o : op) : Prop :=
  match o with
  | OpAddLink _ _ | OpRemoveLink _ _ | OpGetLink _ _ | OpGetLinks _ _
  | OpCloseLink _ _ _ => True
  | _ => False
  end.

(** The two lookups among them. *)
Definition is_lookup (o : op) : Prop :=
  match o with
  | OpGetLink _ _ | OpGetLinks _ _ => True
  | _ => False
  end.

(** The sums of the statistics of the registered links, as the ticker of
    [htlcForwarder] collates them. *)
Definition collate (s : Switch) : N * Amount * Amount :=
  foldl (λ '(n, st, rv) link,
           let '(updates, sent, recv) := Stats link in
           (u64 (n + updates), i64 (st + sent), i64 (rv + recv)))
    (0%N, 0%Z, 0%Z) (map_to_list (links s)).*2.

(** The values of a [uint64] and of an [int64]; running totals that are
    values of their Go types. *)
Definition in_u64 (n : N) : Prop := (n < 2 ^ 64)%N.
Definition in_i64 (z : Z) : Prop := (- 2 ^ 63 ≤ z < 2 ^ 63)%Z.

Definition stats_typed (totals : forwardStats) : Prop :=
  in_u64 (totalNumUpdates totals) ∧ in_i64 (totalSatSent totals) ∧
  in_i64 (totalSatRecv totals).

(** The running totals of a waiting loop are values of their Go types. *)
Definition forwarder_typed (s : Switch) : Prop :=
  ∀ totals, forwarder s = Parked totals → stats_typed totals.

(** The number of times a log records the spawn of the dispatch goroutine,
    and the close of [quit]. *)
Fixpoint spawns (l : list Effect) : nat :=
  match l with
  | [] => 0
  | EGoForwarder :: l => S (spawns l)
  | _ :: l => spawns l
  end.

Fixpoint closes (l : list Effect) : nat :=
  match l with
  | [] => 0
  | ECloseQuit :: l => S (closes l)
  | _ :: l => closes l
  end.

(** Effects other than the spawn and the close. *)
Definition calm (l : list Effect) : Prop :=
  Forall (λ ev, match ev with EGoForwarder | ECloseQuit => False | _ => True end) l.

(** [s'] has the log of [s] and, after it, neither a spawn nor a close. *)
Definition extends_calmly (s s' : Switch) : Prop :=
  ∃ l, log s' = log s ++ l ∧ calm l.

(** The two flags tell what has been done: [started] is 0 and no
    goroutine was spawned, or it is 1 and one was spawned, once;
    [shutdown] is 0 and [quit] is open, or it is 1 and [quit] was closed,
    once. *)
Definition lifecycle_log_inv (s : Switch) : Prop :=
  (started s = 0%Z ∧ forwarder s = NotSpawned ∧ spawns (log s) = 0 ∨
   started s = 1%Z ∧ forwarder s ≠ NotSpawned ∧ spawns (log s) = 1) ∧
  (shutdown s = 0%Z ∧ quit s = false ∧ closes (log s) = 0 ∨
   shutdown s = 1%Z ∧ quit s = true ∧ closes (log s) = 1).

(** * Properties *)

(** ** Slices *)

Lemma swap_remove_Permutation {A} (i : nat) (l : list A) (x : A) :
  l !! i = Some x → swap_remove i l ≡ₚ delete i l.
Proof.
  intros Hi. unfold swap_remove.
  destruct (last l) as [y|] eqn:Hlast.
  - apply last_Some in Hlast as [l' ->].
    rewrite length_app. simpl. replace (length l' + 1 - 1) with (length l') by lia.
    destruct (decide (i < length l')) as [Hlt|Hge].
    + rewrite insert_app_l by done. rewrite take_app_length' by (by rewrite length_insert).
      rewrite delete_take_drop.
      rewrite insert_take_drop by done.
      rewrite take_app_le by lia.
      rewrite drop_app_le by lia.
      rewrite (Permutation_app_comm (drop (S i) l') [y]). done.
    + apply lookup_lt_Some in Hi. rewrite length_app in Hi. simpl in Hi.
      assert (i = length l') as -> by lia.
      rewrite insert_app_r_alt by done. rewrite take_app_length.
      rewrite delete_take_drop, take_app_length.
      rewrite drop_app_ge by lia.
      replace (S (length l') - length l') with 1 by lia. simpl.
      by rewrite app_nil_r.
  - apply last_None in Hlast. by subst.
Qed.

(** Removing the entry at [i] keeps exactly the other entries of a slice
    without repetitions. *)
Lemma swap_remove_elem_of {A} (i : nat) (l : list A) (x y : A) :
  NoDup l → l !! i = Some x → y ∈ swap_remove i l ↔ y ∈ l ∧ y ≠ x.
Proof.
  intros Hnd Hi.
  rewrite (swap_remove_Permutation i l x Hi).
  pose proof (delete_Permutation l i x Hi) as Hp.
  set (d := delete i l) in *.
  rewrite Hp in Hnd. apply NoDup_cons in Hnd as [Hx _].
  rewrite Hp, elem_of_cons. split.
  - intros Hy. split; [by right|]. by intros ->.
  - intros [[->|Hy] Hne]; done.
Qed.

Lemma swap_remove_NoDup {A} (i : nat) (l : list A) (x : A) :
  NoDup l → l !! i = Some x → NoDup (swap_remove i l).
Proof.
  intros Hnd Hi. rewrite (swap_remove_Permutation i l x Hi).
  pose proof (delete_Permutation l i x Hi) as Hp.
  set (d := delete i l) in *.
  rewrite Hp in Hnd. by apply NoDup_cons in Hnd as [_ ?].
Qed.

Lemma swap_remove_length {A} (i : nat) (l : list A) (x : A) :
  l !! i = Some x → S (length (swap_remove i l)) = length l.
Proof.
  intros Hi. rewrite (swap_remove_Permutation i l x Hi).
  pose proof (delete_Permutation l i x Hi) as Hp.
  set (d := delete i l) in *. by rewrite Hp.
Qed.

(** ** The link registry *)

Lemma New_registry : registry_inv New.
Proof. split_and!; intros *; simpl; by rewrite lookup_empty. Qed.

Lemma addLink_registry link s :
  registry_inv s → links s !! ChanID link = None → registry_inv (addLink link s).2.
Proof.
  intros (I1 & I2 & I3) Hfresh. unfold addLink.
  destruct (StartErr link); [done|]. unfold registry_inv. simpl.
  set (hop := NewHopID (PeerPubKey link)).
  assert (Hold : ∀ l, l ∈ default [] (linksIndex s !! hop) →
            NewHopID (PeerPubKey l) = hop ∧ links s !! ChanID l = Some l).
  { destruct (linksIndex s !! hop) as [ls|] eqn:E; simpl; [|by intros ? ?%elem_of_nil].
    intros l Hl. by apply (I3 hop ls). }
  assert (Hne : ∀ l, links s !! ChanID l = Some l → ChanID link ≠ ChanID l).
  { intros l Hl Heq. rewrite <- Heq in Hl. congruence. }
  split_and!.
  - intros c l. rewrite lookup_insert. case_decide; [by intros [= <-] | apply I1].
  - intros c l. rewrite lookup_insert. case_decide as Hc.
    + intros [= <-]. exists (default [] (linksIndex s !! hop) ++ [link]).
      rewrite lookup_insert_eq. split; [done|]. apply elem_of_app. right. constructor.
    + intros Hl. destruct (I2 c l Hl) as (ls & Hls & Hin).
      destruct (decide (NewHopID (PeerPubKey l) = hop)) as [Heq|Hneq].
      * rewrite Heq, lookup_insert_eq. eexists; split; [done|].
        rewrite Heq in Hls. rewrite Hls. simpl. apply elem_of_app. by left.
      * rewrite lookup_insert_ne by done. eauto.
  - intros h ls. rewrite lookup_insert. case_decide as Hh.
    + intros [= <-]. split_and!.
      * apply NoDup_app. split_and!.
        -- destruct (linksIndex s !! hop) as [ls|] eqn:E; simpl; [by apply (I3 hop ls)|constructor].
        -- intros x Hx ->%list_elem_of_singleton. apply Hold in Hx as [_ Hx]. congruence.
        -- apply NoDup_singleton.
      * by destruct (default _ _).
      * intros l [Hl| ->%list_elem_of_singleton]%elem_of_app.
        -- destruct (Hold l Hl) as [? Hl']. subst h. split; [done|].
           rewrite lookup_insert_ne; [done|]. by apply Hne.
        -- by rewrite lookup_insert_eq.
    + intros Hls. destruct (I3 h ls Hls) as (? & ? & Hm). split_and!; [done..|].
      intros l Hl. destruct (Hm l Hl) as [? Hl']. split; [done|].
      rewrite lookup_insert_ne; [done|]. by apply Hne.
Qed.

Lemma removeLink_registry chanID s :
  registry_inv s → registry_inv (removeLink chanID s).2.
Proof.
  intros (I1 & I2 & I3). unfold removeLink.
  destruct (links s !! chanID) as [link|] eqn:Hlink; [|done].
  pose proof (I1 _ _ Hlink) as Hc.
  destruct (I2 _ _ Hlink) as (ls & Hls & Hin).
  destruct (I3 _ _ Hls) as (Hnd & Hnil & Hm).
  unfold registry_inv. simpl. rewrite Hls. simpl.
  destruct (list_find _ ls) as [[i x]|] eqn:Hfind; last first.
  { apply list_find_None in Hfind. rewrite Forall_forall in Hfind.
    by destruct (Hfind link Hin). }
  apply list_find_Some in Hfind as (Hi & Hx & _).
  assert (x = link) as ->.
  { destruct (Hm x) as [_ Hx']; [by eapply list_elem_of_lookup_2|].
    rewrite Hx, Hc in Hx'. congruence. }
  rewrite lookup_insert_eq. simpl.
  set (hop := NewHopID (PeerPubKey link)) in *.
  set (ls' := swap_remove i ls).
  assert (Hin' : ∀ l, l ∈ ls' ↔ l ∈ ls ∧ l ≠ link) by (intros l; by apply swap_remove_elem_of).
  assert (Hnd' : NoDup ls') by (by eapply swap_remove_NoDup).
  assert (Hkeep : ∀ l, links s !! ChanID l = Some l → l ≠ link →
            delete (ChanID link) (links s) !! ChanID l = Some l).
  { intros l Hl Hne. rewrite lookup_delete_ne; [done|].
    intros Heq. rewrite <- Heq, Hc in Hl. congruence. }
  assert (Hother : ∀ h ls0 l, h ≠ hop → linksIndex s !! h = Some ls0 → l ∈ ls0 →
            NewHopID (PeerPubKey l) = h ∧ delete (ChanID link) (links s) !! ChanID l = Some l).
  { intros h ls0 l Hh Hls0 Hl. destruct (I3 h ls0 Hls0) as (_ & _ & Hm0).
    destruct (Hm0 l Hl) as [Hhop Hl']. split; [done|]. apply Hkeep; [done|].
    intros ->. by apply Hh. }
  assert (Hlinks : ∀ c l, delete (ChanID link) (links s) !! c = Some l →
            links s !! c = Some l ∧ l ≠ link).
  { intros c l. rewrite lookup_delete. case_decide as Hd; [done|]. intros Hl. split; [done|].
    intros ->. apply Hd. exact (I1 _ _ Hl). }
  case_decide as Hlen; simpl.
  - apply nil_length_inv in Hlen. split_and!.
    + intros c l [Hl _]%Hlinks. by apply I1.
    + intros c l [Hl Hne]%Hlinks. destruct (I2 c l Hl) as (ls0 & Hls0 & Hl0).
      destruct (decide (NewHopID (PeerPubKey l) = hop)) as [Heq|Hneq].
      * rewrite Heq, Hls in Hls0. injection Hls0 as <-.
        assert (l ∈ ls') as Hl' by (by apply Hin'). rewrite Hlen in Hl'. by apply elem_of_nil in Hl'.
      * rewrite lookup_delete_ne by done. rewrite lookup_insert_ne by done. eauto.
    + intros h ls0. rewrite lookup_delete. case_decide as Hh; [done|].
      rewrite lookup_insert_ne by done. intros Hls0.
      destruct (I3 h ls0 Hls0) as (? & ? & _). split_and!; [done..|].
      intros l Hl. by eapply Hother.
  - split_and!.
    + intros c l [Hl _]%Hlinks. by apply I1.
    + intros c l [Hl Hne]%Hlinks. destruct (I2 c l Hl) as (ls0 & Hls0 & Hl0).
      destruct (decide (NewHopID (PeerPubKey l) = hop)) as [Heq|Hneq].
      * rewrite Heq, Hls in Hls0. injection Hls0 as <-. rewrite Heq, lookup_insert_eq.
        eexists; split; [done|]. by apply Hin'.
      * rewrite lookup_insert_ne by done. eauto.
    + intros h ls0. rewrite lookup_insert. case_decide as Hh.
      * intros [= <-]. split_and!; [done| |].
        -- intros Hnil'. apply Hlen. fold ls'. by rewrite Hnil'.
        -- intros l [Hl Hne]%Hin'. destruct (Hm l Hl) as [? Hl']. split; [by subst|].
           by apply Hkeep.
      * intros Hls0. destruct (I3 h ls0 Hls0) as (? & ? & _). split_and!; [done..|].
        intros l Hl. eapply Hother; eauto.
Qed.

Lemma registry_inv_consistent s : registry_inv s → registry_consistent s.
Proof.
  intros (I1 & I2 & I3). split_and!.
  - done.
  - intros c l Hl. destruct (I2 c l Hl) as (ls & Hls & Hin).
    exists ls. split; [done|].
    apply list_elem_of_lookup in Hin as [i Hi]. exists i. split; [done|].
    intros j Hj. destruct (I3 _ _ Hls) as (Hnd & _). by eapply NoDup_lookup.
  - intros hop ls i l Hls Hi. destruct (I3 _ _ Hls) as (_ & _ & Hm).
    apply Hm. by eapply list_elem_of_lookup_2.
  - intros hop ls Hls. by destruct (I3 _ _ Hls) as (_ & ? & _).
Qed.

Lemma removeLink_links chanID s :
  links (removeLink chanID s).2 =
  match links s !! chanID with
  | Some link => delete (ChanID link) (links s)
  | None => links s
  end.
Proof.
  unfold removeLink. destruct (links s !! chanID) as [link|]; [|done]. simpl.
  destruct (list_find _ _) as [[i x]|]; [|done]. simpl. by case_decide.
Qed.

(** [removeLink] changes the two link maps and the log only. *)
Lemma removeLink_frame chanID s :
  started (removeLink chanID s).2 = started s ∧
  shutdown (removeLink chanID s).2 = shutdown s ∧
  quit (removeLink chanID s).2 = quit s ∧
  pendingPayments (removeLink chanID s).2 = pendingPayments s ∧
  circuits (removeLink chanID s).2 = circuits s ∧
  errChans (removeLink chanID s).2 = errChans s ∧
  preimageChans (removeLink chanID s).2 = preimageChans s ∧
  forwarder (removeLink chanID s).2 = forwarder s.
Proof.
  unfold removeLink. destruct (links s !! chanID) as [link|]; [|done]. simpl.
  destruct (list_find _ _) as [[i x]|]; [|done]. simpl. by case_decide.
Qed.

Lemma registry_step_links o s c :
  is_Some (links (registry_step o s) !! c) →
  is_Some (links s !! c) ∨ ∃ link, o = opAddLink link ∧ c = ChanID link.
Proof.
  destruct o as [link|chanID]; simpl.
  - unfold addLink. destruct (StartErr link); simpl; [by left|].
    rewrite lookup_insert. case_decide; [right; eauto | by left].
  - rewrite removeLink_links. destruct (links s !! chanID) as [link|]; [|by left].
    rewrite lookup_delete. case_decide; [by intros [? [=]] | by left].
Qed.

Lemma registry_run_inv ops s :
  registry_inv s →
  NoDup (ChanID <$> added ops) →
  (∀ link, link ∈ added ops → links s !! ChanID link = None) →
  registry_inv (registry_run ops s).
Proof.
  revert s. induction ops as [|o ops IH]; intros s Hinv Hnd Hfresh; [done|].
  simpl. apply IH.
  - destruct o as [link|chanID]; simpl.
    + apply addLink_registry; [done|]. apply Hfresh. simpl. left.
    + by apply removeLink_registry.
  - destruct o; simpl in Hnd; [by apply NoDup_cons in Hnd as [_ ?] | done].
  - intros link Hlink.
    destruct (links (registry_step o s) !! ChanID link) as [l|] eqn:E; [|done].
    exfalso. destruct (registry_step_links o s (ChanID link)) as [Hs|(l' & -> & Hc)]; [by eauto| |].
    + assert (links s !! ChanID link = None) as Hn.
      { apply Hfresh. destruct o; simpl; [by right | done]. }
      rewrite Hn in Hs. by destruct Hs.
    + simpl in Hnd. apply NoDup_cons in Hnd as [Hnotin _]. apply Hnotin.
      rewrite <- Hc. apply list_elem_of_fmap. eauto.
Qed.

Lemma added_take_NoDup ops k :
  NoDup (ChanID <$> added ops) → NoDup (ChanID <$> added (take k ops)).
Proof.
  intros Hnd. rewrite <- (take_drop k ops) in Hnd.
  unfold added in Hnd. rewrite omap_app, fmap_app in Hnd.
  by apply NoDup_app in Hnd as [? _].
Qed.

(** C2.  Along every sequence of [addLink] and [removeLink] steps from the
    new switch in which the added links report distinct channel ids, the
    two link maps are consistent after each step: each entry of [links] has
    that channel id, each link has exactly one entry in the slice of its
    peer and each entry of a slice is such a link, and no peer keeps an
    empty slice. *)
Theorem link_registry_consistent (ops : list registryOp) (k : nat) :
  NoDup (ChanID <$> added ops) →
  registry_consistent (registry_run (take k ops) New).
Proof.
  intros Hnd. apply registry_inv_consistent, registry_run_inv.
  - apply New_registry.
  - by apply added_take_NoDup.
  - intros link _. apply lookup_empty.
Qed.

(** The slice of a peer goes with its last link. *)
Lemma removeLink_last_of_peer chanID link s :
  links s !! chanID = Some link →
  linksIndex s !! NewHopID (PeerPubKey link) = Some [link] →
  linksIndex (removeLink chanID s).2 !! NewHopID (PeerPubKey link) = None.
Proof.
  intros Hlink Hls. unfold removeLink. rewrite Hlink. simpl. rewrite Hls. simpl.
  rewrite decide_True by done. simpl. rewrite lookup_insert_eq. simpl.
  by rewrite lookup_delete_eq.
Qed.

(** C9.  [addLink] of a link whose channel id is registered already (for
    [old]), in a consistent registry: [links] now holds the new link under
    that channel id; the slice of the new link's peer is the one before
    with the new link appended; every entry of every slice, the one of
    [old] among them, stays where it was; so the peer index holds both
    links for the one channel id, and the registry is no longer
    consistent. *)
Theorem addLink_duplicate_chanID (link old : ChannelLink) (s : Switch) :
  registry_inv s →
  links s !! ChanID link = Some old →
  StartErr link = None →
  let s' := (addLink link s).2 in
  let hop := NewHopID (PeerPubKey link) in
  (addLink link s).1 = None ∧
  ChanID old = ChanID link ∧
  links s' !! ChanID link = Some link ∧
  linksIndex s' !! hop = Some (default [] (linksIndex s !! hop) ++ [link]) ∧
  (∀ h ls i l, linksIndex s !! h = Some ls → ls !! i = Some l →
     ∃ ls', linksIndex s' !! h = Some ls' ∧ ls' !! i = Some l) ∧
  (∃ ls i, linksIndex s' !! NewHopID (PeerPubKey old) = Some ls ∧ ls !! i = Some old ∧
     i < length (default [] (linksIndex s !! NewHopID (PeerPubKey old)))) ∧
  ¬ registry_consistent s'.
Proof.
  intros (I1 & I2 & I3) Hold Hstart s' hop.
  assert (Hs' : s' = set_linksIndex
            (<[hop := default [] (linksIndex s !! hop) ++ [link]]> (linksIndex s))
            (set_links (<[ChanID link := link]> (links s)) s)).
  { unfold s', addLink. by rewrite Hstart. }
  assert (Hkeep : ∀ h ls i l, linksIndex s !! h = Some ls → ls !! i = Some l →
            ∃ ls', linksIndex s' !! h = Some ls' ∧ ls' !! i = Some l).
  { intros h ls i l Hls Hi. rewrite Hs'. simpl.
    destruct (decide (hop = h)) as [<-|Hne].
    - rewrite lookup_insert_eq, Hls. simpl. eexists; split; [done|].
      by apply lookup_app_l_Some.
    - rewrite lookup_insert_ne by done. eauto. }
  destruct (I2 _ _ Hold) as (lsold & Hlsold & Hin).
  apply list_elem_of_lookup in Hin as [i Hi].
  destruct (Hkeep _ _ _ _ Hlsold Hi) as (ls' & Hls' & Hi').
  split_and!.
  - unfold addLink. by rewrite Hstart.
  - by apply I1 in Hold.
  - rewrite Hs'. simpl. by rewrite lookup_insert_eq.
  - rewrite Hs'. simpl. by rewrite lookup_insert_eq.
  - done.
  - exists ls', i. split_and!; [done..|]. rewrite Hlsold. simpl. by eapply lookup_lt_Some.
  - intros (C1 & C2 & C3 & _).
    destruct (C3 _ _ _ _ Hls' Hi') as [_ Hl].
    pose proof (I1 _ _ Hold) as Hc.
    assert (links s' !! ChanID link = Some link) as Hnew.
    { rewrite Hs'. simpl. by rewrite lookup_insert_eq. }
    assert (old = link) as -> by congruence.
    destruct (C2 _ _ Hnew) as (ls & Hls & j & Hj & Huniq).
    assert (linksIndex s' !! NewHopID (PeerPubKey link) = Some (lsold ++ [link])) as Hls2.
    { rewrite Hs'. simpl. unfold hop. rewrite lookup_insert_eq. by rewrite Hlsold. }
    rewrite Hls2 in Hls. injection Hls as <-.
    assert (i = j) as <-. { apply Huniq. by apply lookup_app_l_Some. }
    assert (length lsold = i) as Hlen.
    { apply Huniq. rewrite lookup_app_r by done. by rewrite Nat.sub_diag. }
    apply lookup_lt_Some in Hi. lia.
Qed.

(** ** The packet-forward path *)

Lemma circuitMap_add_error circuit m e m' :
  circuitMap_add circuit m = (Some e, m') → m' = m ∧ is_Some (m !! c_PaymentHash circuit).
Proof.
  unfold circuitMap_add. destruct (m !! c_PaymentHash circuit); [|done].
  intros [= <- <-]. eauto.
Qed.

Lemma circuitMap_add_ok circuit m m' :
  circuitMap_add circuit m = (None, m') →
  m' = <[c_PaymentHash circuit := circuit]> m ∧ m !! c_PaymentHash circuit = None.
Proof.
  unfold circuitMap_add. destruct (m !! c_PaymentHash circuit); [done|].
  by intros [= <-].
Qed.

Lemma findDestination_None amount ls :
  findDestination amount ls = None ↔ Forall (λ link, (Bandwidth link < amount)%Z) ls.
Proof.
  unfold findDestination. induction ls as [|l ls IH]; simpl.
  - split; [constructor|done].
  - case_bool_decide as Hb.
    + split; [done|]. intros [Hl _]%Forall_cons. lia.
    + rewrite IH. split; [intros; constructor; [lia|done] | by intros [_ ?]%Forall_cons].
Qed.

(** C3.  A forwarded Add (its source link is registered) that cannot go
    on: when no links are registered for the destination hop, when no
    candidate link has [Bandwidth() >= amount], and when the insert of the
    circuit fails, [handlePacketForward] returns an error, the one thing it
    does is to offer, on a detached goroutine, a Fail packet to the source
    link with the reason [UnknownDestination], [InsufficientCapacity] or
    [UnknownError], and the circuit map is as it was. *)
Theorem forwarded_add_failure (packet : htlcPacket) (h : PaymentHash) (a : Amount)
    (source : ChannelLink) (s : Switch) :
  htlc packet = UpdateAddHTLC h a →
  links s !! src packet = Some source →
  let err := (handlePacketForward packet s).1 in
  let s' := (handlePacketForward packet s).2 in
  (linksIndex s !! dest packet = None →
     is_Some err ∧
     log s' = log s ++ [failOffer source packet h UnknownDestination] ∧
     circuits s' = circuits s) ∧
  (∀ ls, linksIndex s !! dest packet = Some ls →
     Forall (λ link, (Bandwidth link < a)%Z) ls →
     is_Some err ∧
     log s' = log s ++ [failOffer source packet h InsufficientCapacity] ∧
     circuits s' = circuits s) ∧
  (∀ ls destination e m,
     linksIndex s !! dest packet = Some ls →
     findDestination a ls = Some destination →
     circuitMap_add (newPaymentCircuit (ChanID source) (ChanID destination) h) (circuits s)
       = (Some e, m) →
     is_Some err ∧
     log s' = log s ++ [failOffer source packet h UnknownError] ∧
     circuits s' = circuits s).
Proof.
  intros Hhtlc Hsrc err s'. subst err s'.
  unfold handlePacketForward, getLink, getLinks. rewrite Hhtlc, Hsrc.
  split_and!.
  - intros ->. simpl. eauto.
  - intros ls -> Hbw. apply findDestination_None in Hbw. rewrite Hbw. simpl. eauto.
  - intros ls destination e m -> -> Hadd. rewrite Hadd. simpl.
    apply circuitMap_add_error in Hadd as [-> _]. eauto.
Qed.


(** ** The local-dispatch path *)

(** [removePendingPayment] changes the pending-payment table only. *)
Lemma removePendingPayment_frame amount hash s :
  started (removePendingPayment amount hash s).2 = started s ∧
  shutdown (removePendingPayment amount hash s).2 = shutdown s ∧
  quit (removePendingPayment amount hash s).2 = quit s ∧
  circuits (removePendingPayment amount hash s).2 = circuits s ∧
  links (removePendingPayment amount hash s).2 = links s ∧
  linksIndex (removePendingPayment amount hash s).2 = linksIndex s ∧
  errChans (removePendingPayment amount hash s).2 = errChans s ∧
  preimageChans (removePendingPayment amount hash s).2 = preimageChans s ∧
  forwarder (removePendingPayment amount hash s).2 = forwarder s ∧
  log (removePendingPayment amount hash s).2 = log s.
Proof.
  unfold removePendingPayment. destruct (list_find _ _) as [[i x]|]; [|done].
  simpl. by case_decide.
Qed.

Lemma handleLocalDispatch_resolution payment packet s :
  errChans s !! pp_err payment = Some [] →
  preimageChans s !! pp_preimage payment = Some [] →
  is_settle_or_fail (htlc packet) →
  let e := resolution_err (htlc packet) in
  let p := resolution_preimage (htlc packet) in
  let s1 := emit (EChanSendErr (pp_err payment) e)
              (set_errChans (<[pp_err payment := [e]]> (errChans s)) s) in
  let s2 := emit (EChanSendPreimage (pp_preimage payment) p)
              (set_preimageChans (<[pp_preimage payment := [p]]> (preimageChans s1)) s1) in
  handleLocalDispatch payment packet s =
    Some (None, (removePendingPayment (pp_amount payment) (pp_paymentHash payment) s2).2).
Proof.
  intros He Hp Hm. unfold handleLocalDispatch.
  destruct (htlc packet) as [| preimage | id reason |]; try done; simpl.
  - unfold send_err. rewrite He. simpl.
    unfold send_preimage. simpl. rewrite Hp. simpl. done.
  - unfold send_err. rewrite He. simpl.
    unfold send_preimage. simpl. rewrite Hp. simpl. done.
Qed.

(** ** What each routine leaves unchanged *)

Lemma addLink_frame link s :
  keeps_lifecycle s (addLink link s).2 ∧ keeps_payments s (addLink link s).2 ∧
  circuits (addLink link s).2 = circuits s ∧
  forwarder (addLink link s).2 = forwarder s ∧
  log (addLink link s).2 = log s.
Proof. unfold addLink. by destruct (StartErr link). Qed.

Lemma removeLinks_frame entries s :
  keeps_lifecycle s (removeLinks entries s) ∧ keeps_payments s (removeLinks entries s) ∧
  circuits (removeLinks entries s) = circuits s ∧
  forwarder (removeLinks entries s) = forwarder s.
Proof.
  revert s. induction entries as [|[chanID link] entries IH]; intros s; [done|].
  simpl. destruct (links s !! chanID); [|apply IH].
  destruct (IH (removeLink (ChanID link) s).2) as ((? & ? & ?) & (? & ? & ?) & ? & ?).
  destruct (removeLink_frame (ChanID link) s) as (? & ? & ? & ? & ? & ? & ? & ?).
  unfold keeps_lifecycle, keeps_payments. split_and!; congruence.
Qed.

Lemma forwarderReturn_frame s :
  keeps_lifecycle s (forwarderReturn s) ∧ keeps_payments s (forwarderReturn s) ∧
  circuits (forwarderReturn s) = circuits s ∧
  forwarder (forwarderReturn s) = Exited.
Proof.
  unfold forwarderReturn. simpl.
  destruct (removeLinks_frame (map_to_list (links s)) s) as (? & ? & ? & _). done.
Qed.

Lemma handleChanelClose_frame req s :
  keeps_lifecycle s (handleChanelClose req s).2 ∧
  keeps_payments s (handleChanelClose req s).2 ∧
  keeps_registry s (handleChanelClose req s).2 ∧
  circuits (handleChanelClose req s).2 = circuits s ∧
  forwarder (handleChanelClose req s).2 = forwarder s.
Proof. unfold handleChanelClose. by destruct (foldl _ _ _). Qed.

Lemma handlePacketForward_frame packet s :
  keeps_lifecycle s (handlePacketForward packet s).2 ∧
  keeps_payments s (handlePacketForward packet s).2 ∧
  keeps_registry s (handlePacketForward packet s).2 ∧
  forwarder (handlePacketForward packet s).2 = forwarder s.
Proof.
  unfold handlePacketForward, getLink, getLinks, circuitMap_add, circuitMap_remove.
  repeat case_match; simplify_eq; done.
Qed.

Lemma send_err_frame ch e s s' :
  send_err ch e s = Some s' →
  keeps_lifecycle s s' ∧ keeps_registry s s' ∧ circuits s' = circuits s ∧
  forwarder s' = forwarder s ∧
  pendingPayments s' = pendingPayments s ∧ preimageChans s' = preimageChans s.
Proof. unfold send_err. repeat case_match; intros; simplify_eq; done. Qed.

Lemma send_preimage_frame ch p s s' :
  send_preimage ch p s = Some s' →
  keeps_lifecycle s s' ∧ keeps_registry s s' ∧ circuits s' = circuits s ∧
  forwarder s' = forwarder s ∧
  pendingPayments s' = pendingPayments s ∧ errChans s' = errChans s.
Proof. unfold send_preimage. repeat case_match; intros; simplify_eq; done. Qed.

Lemma handleLocalDispatch_frame payment packet s err s' :
  handleLocalDispatch payment packet s = Some (err, s') →
  keeps_lifecycle s s' ∧ keeps_registry s s' ∧ circuits s' = circuits s ∧
  forwarder s' = forwarder s.
Proof.
  unfold handleLocalDispatch, getLinks. intros H.
  destruct (htlc packet) as [h a | preimage | id reason |].
  - repeat case_match; simplify_eq; done.
  - destruct (send_err _ _ _) as [s1|] eqn:E1; [|done]. simpl in H.
    destruct (send_preimage _ _ _) as [s2|] eqn:E2; [|done]. simpl in H.
    inversion H; subst; clear H.
    apply send_err_frame in E1 as ((? & ? & ?) & (? & ?) & ? & ? & _).
    apply send_preimage_frame in E2 as ((? & ? & ?) & (? & ?) & ? & ? & _).
    destruct (removePendingPayment_frame (pp_amount payment) (pp_paymentHash payment) s2)
      as (? & ? & ? & ? & ? & ? & _ & _ & ? & _).
    unfold keeps_lifecycle, keeps_registry. split_and!; congruence.
  - destruct (send_err _ _ _) as [s1|] eqn:E1; [|done]. simpl in H.
    destruct (send_preimage _ _ _) as [s2|] eqn:E2; [|done]. simpl in H.
    inversion H; subst; clear H.
    apply send_err_frame in E1 as ((? & ? & ?) & (? & ?) & ? & ? & _).
    apply send_preimage_frame in E2 as ((? & ? & ?) & (? & ?) & ? & ? & _).
    destruct (removePendingPayment_frame (pp_amount payment) (pp_paymentHash payment) s2)
      as (? & ? & ? & ? & ? & ? & _ & _ & ? & _).
    unfold keeps_lifecycle, keeps_registry. split_and!; congruence.
  - by simplify_eq.
Qed.

Lemma dispatch_frame paymentHash amount pkt s err s' :
  dispatch paymentHash amount pkt s = Some (err, s') →
  keeps_lifecycle s s' ∧ forwarder s' = forwarder s.
Proof.
  unfold dispatch. destruct (findPayment _ _ _) as [payment|].
  - intros H. apply handleLocalDispatch_frame in H as (? & _ & _ & ?). done.
  - intros [= H]. destruct (handlePacketForward_frame pkt s) as (? & _ & _ & ?).
    rewrite H in *. done.
Qed.

(** A turn of the loop leaves the lifecycle flags alone, and leaves the
    goroutine in its [select] or returned. *)
Lemma htlcForwarder_lifecycle c totals s r s' :
  forwarder s = Parked totals →
  htlcForwarder c totals s = Some (r, s') →
  keeps_lifecycle s s' ∧ (forwarder s' = Exited ∨ ∃ totals', forwarder s' = Parked totals').
Proof.
  intros Hf H. destruct c as [req | pkt | | cmd |]; simpl in H.
  - destruct (handleChanelClose req s) as [errs s1] eqn:E. injection H as <- <-.
    destruct (handleChanelClose_frame req s) as (? & _ & _ & _ & Hfw).
    rewrite E in *. simpl in *. split; [done|]. right. exists totals. congruence.
  - destruct (htlc pkt).
    + destruct (dispatch _ _ _ _) as [[err s1]|] eqn:E; [|done]. injection H as <- <-.
      apply dispatch_frame in E as [? Hfw]. split; [done|]. right. exists totals. congruence.
    + destruct (dispatch _ _ _ _) as [[err s1]|] eqn:E; [|done]. injection H as <- <-.
      apply dispatch_frame in E as [? Hfw]. split; [done|]. right. exists totals. congruence.
    + destruct (dispatch _ _ _ _) as [[err s1]|] eqn:E; [|done]. injection H as <- <-.
      apply dispatch_frame in E as [? Hfw]. split; [done|]. right. exists totals. congruence.
    + injection H as <- <-. destruct (forwarderReturn_frame s) as (? & _ & _ & ?). eauto.
  - injection H as <- <-. split; [done|]. right. by eexists.
  - destruct cmd as [link | chanID | chanID | peer].
    + destruct (addLink link s) as [err s1] eqn:E. injection H as <- <-.
      destruct (addLink_frame link s) as (? & _ & _ & Hfw & _). rewrite E in *. simpl in *.
      split; [done|]. right. exists totals. congruence.
    + destruct (removeLink chanID s) as [err s1] eqn:E. injection H as <- <-.
      destruct (removeLink_frame chanID s) as (? & ? & ? & _ & _ & _ & _ & Hfw).
      rewrite E in *. simpl in *. split; [done|]. right. exists totals. congruence.
    + injection H as <- <-. split; [done|]. right. eauto.
    + injection H as <- <-. split; [done|]. right. eauto.
  - destruct (quit s); [|done]. injection H as <- <-.
    destruct (forwarderReturn_frame s) as (? & _ & _ & ?). eauto.
Qed.

(** ** Facade calls go through [submit] *)

Lemma submit_cases sel c s r s' :
  submit sel c s = Some (r, s') →
  (sel = selQuit ∧ quit s = true ∧ s' = s ∧ r = None) ∨
  (sel = selComm ∧ ∃ totals r', forwarder s = Parked totals ∧
     htlcForwarder c totals s = Some (r', s') ∧ r = Some r').
Proof.
  unfold submit. destruct sel.
  - destruct (forwarder s) as [|totals|]; [done| |done].
    destruct (htlcForwarder c totals s) as [[r' s1]|] eqn:E; [|done].
    simpl. intros [= <- <-]. right. eauto 10.
  - destruct (quit s); [|done]. intros [= <- <-]. by left.
Qed.

Ltac facade_submit H :=
  let Hsub := fresh "Hsub" in
  destruct (submit _ _ _) as [[? ?]|] eqn:Hsub; simpl in H; [|done];
  repeat case_match; simplify_eq; eauto.

Lemma forward_submit sel packet s e s' :
  forward sel packet s = Some (e, s') →
  ∃ r, submit sel (forwardCommand packet) s = Some (r, s').
Proof. unfold forward. intros H. facade_submit H. Qed.

Lemma AddLink_submit sel link s e s' :
  AddLink sel link s = Some (e, s') →
  ∃ r, submit sel (linkControlCmd (addLinkCmd link)) s = Some (r, s').
Proof. unfold AddLink. intros H. facade_submit H. Qed.

Lemma RemoveLink_submit sel chanID s e s' :
  RemoveLink sel chanID s = Some (e, s') →
  ∃ r, submit sel (linkControlCmd (removeLinkCmd chanID)) s = Some (r, s').
Proof. unfold RemoveLink. intros H. facade_submit H. Qed.

Lemma GetLink_submit sel chanID s e s' :
  GetLink sel chanID s = Some (e, s') →
  ∃ r, submit sel (linkControlCmd (getLinkCmd chanID)) s = Some (r, s').
Proof. unfold GetLink. intros H. facade_submit H. Qed.

Lemma GetLinks_submit sel hop s e s' :
  GetLinks sel hop s = Some (e, s') →
  ∃ r, submit sel (linkControlCmd (getLinksCmd hop)) s = Some (r, s').
Proof. unfold GetLinks. intros H. facade_submit H. Qed.

Lemma CloseLink_submit sel chanPoint closeType s e s' :
  CloseLink sel chanPoint closeType s = Some (e, s') →
  ∃ r, submit sel (chanCloseRequest {| CloseType := closeType; ChanPoint := chanPoint |}) s
       = Some (r, s').
Proof. unfold CloseLink. intros H. facade_submit H. Qed.

(** Every step of a run is one of: [Start], [Stop], a case of a facade
    [select] (a turn of the loop, or [<-s.quit] with the state untouched),
    the entry of [SendHTLC], and, within [SendHTLC], the removal of a
    pending payment after [forward] or the receipt of a value from one of
    the two channels. *)
Lemma exec_cases o s s' :
  exec o s = Some s' →
  s' = Start s ∨ s' = Stop s ∨
  (∃ sel c r, submit sel c s = Some (r, s')) ∨
  (∃ totals, forwarder s = Parked totals ∧
     htlcForwarder logTickerC totals s = Some (NoReply, s')) ∨
  (∃ nextNode update pc, SendHTLC_enter nextNode update s = Some (pc, s')) ∨
  (∃ sel c r s1 amount hash, submit sel c s = Some (r, s1) ∧
     s' = (removePendingPayment amount hash s1).2) ∨
  (∃ ch e buf, errChans s !! ch = Some (e :: buf) ∧
     s' = set_errChans (<[ch := buf]> (errChans s)) s) ∨
  (∃ ch p buf, preimageChans s !! ch = Some (p :: buf) ∧
     s' = set_preimageChans (<[ch := buf]> (preimageChans s)) s) ∨
  (quit s = true ∧ s' = s).
Proof.
  destruct o; simpl; intros H.
  - left. by simplify_eq.
  - right. left. by simplify_eq.
  - destruct (forwarder s) as [|totals|] eqn:Hf; [done| |done].
    simpl in H. simplify_eq. do 3 right. left. eauto.
  - destruct (forward _ _ _) as [[e s1]|] eqn:E; [|done]. simpl in H. simplify_eq.
    apply forward_submit in E as [r E]. do 2 right. left. eauto.
  - destruct (AddLink _ _ _) as [[e s1]|] eqn:E; [|done]. simpl in H. simplify_eq.
    apply AddLink_submit in E as [r E]. do 2 right. left. eauto.
  - destruct (RemoveLink _ _ _) as [[e s1]|] eqn:E; [|done]. simpl in H. simplify_eq.
    apply RemoveLink_submit in E as [r E]. do 2 right. left. eauto.
  - destruct (GetLink _ _ _) as [[e s1]|] eqn:E; [|done]. simpl in H. simplify_eq.
    apply GetLink_submit in E as [r E]. do 2 right. left. eauto.
  - destruct (GetLinks _ _ _) as [[e s1]|] eqn:E; [|done]. simpl in H. simplify_eq.
    apply GetLinks_submit in E as [r E]. do 2 right. left. eauto.
  - destruct (CloseLink _ _ _) as [[e s1]|] eqn:E; [|done]. simpl in H. simplify_eq.
    apply CloseLink_submit in E as [r E]. do 2 right. left. eauto.
  - destruct (SendHTLC_enter _ _ _) as [[pc s1]|] eqn:E; [|done]. simpl in H. simplify_eq.
    do 4 right. left. eauto.
  - destruct pc as [payment packet | payment | payment err | ]; simpl in H.
    + destruct (forward _ _ _) as [[e s1]|] eqn:E; [|done]. simpl in H.
      apply forward_submit in E as [r E].
      destruct e; simpl in H; simplify_eq.
      * do 5 right. left. eauto 10.
      * do 2 right. left. eauto.
    + destruct sel.
      * destruct (errChans s !! pp_err payment) as [[|e buf]|] eqn:E; simpl in H; simplify_eq.
        do 6 right. left. eauto.
      * destruct (quit s) eqn:Hq; simpl in H; simplify_eq. do 8 right. done.
    + destruct sel.
      * destruct (preimageChans s !! pp_preimage payment) as [[|p buf]|] eqn:E;
          simpl in H; simplify_eq.
        do 7 right. left. eauto.
      * destruct (quit s) eqn:Hq; simpl in H; simplify_eq. do 8 right. done.
    + done.
Qed.

(** ** Lifecycle *)

Lemma lifecycle_inv_keep s s' :
  keeps_lifecycle s s' → forwarder s' = forwarder s → lifecycle_inv s → lifecycle_inv s'.
Proof.
  intros (_ & Hsh & Hq) Hf [I1 I2]. unfold lifecycle_inv. rewrite Hsh, Hq, Hf. done.
Qed.

Lemma htlcForwarder_lifecycle_inv c totals s r s' :
  lifecycle_inv s → forwarder s = Parked totals →
  htlcForwarder c totals s = Some (r, s') →
  lifecycle_inv s' ∧ shutdown s' = shutdown s ∧ shutdown s = 0%Z.
Proof.
  intros [I1 I2] Hf H.
  destruct (htlcForwarder_lifecycle _ _ _ _ _ Hf H) as [(_ & Hsh & Hq) _].
  assert (quit s = false) as Hquit.
  { destruct (quit s); [|done]. by destruct (I2 eq_refl totals). }
  assert (shutdown s = 0%Z) as Hshut.
  { destruct (decide (shutdown s = 0%Z)); [done|]. rewrite I1 in Hquit; done. }
  split_and!; [|done..]. split.
  - rewrite Hsh, Hshut. done.
  - rewrite Hq, Hquit. done.
Qed.

Lemma submit_lifecycle_inv sel c s r s' :
  lifecycle_inv s → submit sel c s = Some (r, s') →
  lifecycle_inv s' ∧ shutdown s' = shutdown s.
Proof.
  intros Hinv [(-> & _ & -> & _)|(-> & totals & r' & Hf & H & _)]%submit_cases; [done|].
  by destruct (htlcForwarder_lifecycle_inv _ _ _ _ _ Hinv Hf H) as (? & ? & _).
Qed.

Lemma Start_lifecycle_inv s :
  lifecycle_inv s → lifecycle_inv (Start s) ∧ shutdown (Start s) = shutdown s.
Proof.
  intros [I1 I2]. unfold Start. case_decide; [|done]. cbv zeta.
  set (s1 := emit EGoForwarder (set_started 1 s)).
  change (quit s1) with (quit s).
  destruct (quit s) eqn:Hq.
  - destruct (forwarderReturn_frame s1) as ((_ & Hsh & Hq') & _ & _ & Hf).
    split; [|done]. split.
    + by rewrite Hq'.
    + by rewrite Hf.
  - split; [|done]. split; simpl; [|by rewrite Hq]. intros Hsh. by rewrite I1 in Hq.
Qed.

Lemma Stop_lifecycle_inv s :
  lifecycle_inv s → lifecycle_inv (Stop s) ∧ shutdown (Stop s) ≠ 0%Z.
Proof.
  intros [I1 I2]. unfold Stop. case_decide as Hsh; [|done]. cbv zeta.
  set (s1 := emit ECloseQuit (set_quit true (set_shutdown 1 s))).
  change (forwarder s1) with (forwarder s).
  destruct (forwarder s) as [|totals|] eqn:Hf.
  - split; [|done]. split; simpl; [done|]. by rewrite Hf.
  - change (default s1 (snd <$> htlcForwarder quitClosed totals s1))
      with (forwarderReturn s1).
    destruct (forwarderReturn_frame s1) as ((_ & Hsh' & Hq') & _ & _ & Hf').
    split; [|by rewrite Hsh'].
    split; [by rewrite Hq'|by rewrite Hf'].
  - split; [|done]. split; simpl; [done|]. by rewrite Hf.
Qed.

Lemma SendHTLC_enter_frame nextNode update s pc s' :
  SendHTLC_enter nextNode update s = Some (pc, s') →
  keeps_lifecycle s s' ∧ keeps_registry s s' ∧ circuits s' = circuits s ∧
  forwarder s' = forwarder s ∧ log s' = log s.
Proof. unfold SendHTLC_enter. destruct update; intros; simplify_eq; done. Qed.

Lemma exec_lifecycle_inv o s s' :
  lifecycle_inv s → exec o s = Some s' →
  lifecycle_inv s' ∧ (shutdown s ≠ 0%Z → shutdown s' ≠ 0%Z).
Proof.
  intros Hinv H. apply exec_cases in H
    as [-> | [-> | [(sel & c & r & H) | [(totals & Hf & H) | [(n & u & pc & H) |
       [(sel & c & r & s1 & a & h & H & ->) | [(ch & e & buf & _ & ->) |
       [(ch & p & buf & _ & ->) | [_ ->]]]]]]]]].
  - destruct (Start_lifecycle_inv s Hinv) as [? ->]. done.
  - destruct (Stop_lifecycle_inv s Hinv). done.
  - destruct (submit_lifecycle_inv _ _ _ _ _ Hinv H) as [? ->]. done.
  - destruct (htlcForwarder_lifecycle_inv _ _ _ _ _ Hinv Hf H) as (? & -> & _). done.
  - apply SendHTLC_enter_frame in H as (Hk & _ & _ & Hf & _).
    split; [by eapply lifecycle_inv_keep|]. destruct Hk as (_ & -> & _). done.
  - destruct (submit_lifecycle_inv _ _ _ _ _ Hinv H) as [Hinv1 Hsh].
    destruct (removePendingPayment_frame a h s1) as (? & Hsh' & ? & _ & _ & _ & _ & _ & ? & _).
    split; [by eapply lifecycle_inv_keep|]. by rewrite Hsh', Hsh.
  - done.
  - done.
  - done.
Qed.

Lemma reachable_lifecycle_inv s : reachable s → lifecycle_inv s.
Proof.
  induction 1 as [|s o s' _ IH H].
  - split; simpl; done.
  - by destruct (exec_lifecycle_inv _ _ _ IH H).
Qed.

Lemma run_reachable ops s s' : reachable s → run ops s = Some s' → reachable s'.
Proof.
  revert s. induction ops as [|o ops IH]; intros s Hs; simpl.
  - by intros [= <-].
  - destruct (exec o s) as [s1|] eqn:E; [|done]. simpl. apply IH.
    by eapply reachable_exec.
Qed.

Lemma run_shutdown ops s s' :
  lifecycle_inv s → run ops s = Some s' → shutdown s ≠ 0%Z →
  lifecycle_inv s' ∧ shutdown s' ≠ 0%Z.
Proof.
  revert s. induction ops as [|o ops IH]; intros s Hinv; simpl.
  - by intros [= <-].
  - destruct (exec o s) as [s1|] eqn:E; [|done]. simpl. intros Hrun Hsh.
    destruct (exec_lifecycle_inv _ _ _ Hinv E) as [? Hsh1]. apply (IH s1); auto.
Qed.

Lemma stopped_facade s :
  quit s = true → (∀ totals, forwarder s ≠ Parked totals) → facade_stopped s.
Proof.
  intros Hq Hf.
  assert (Hcomm : ∀ c, submit selComm c s = None).
  { intros c. unfold submit. destruct (forwarder s) as [|totals|] eqn:E; try done.
    by destruct (Hf totals). }
  assert (Hquit : ∀ c, submit selQuit c s = Some (None, s)).
  { intros c. unfold submit. by rewrite Hq. }
  unfold facade_stopped, forward, AddLink, RemoveLink, GetLink, GetLinks, CloseLink.
  split_and!; intros *; try (rewrite Hcomm, Hquit; done).
  eexists _, _, _, _. split; [done|].
  assert (Hq1 : ∀ s1 : Switch, quit s1 = quit s → forwarder s1 = forwarder s →
            forward selComm (newInitPacket (NewHopID nextNode) (UpdateAddHTLC h a)) s1 = None ∧
            forward selQuit (newInitPacket (NewHopID nextNode) (UpdateAddHTLC h a)) s1
              = Some (Some ErrSwitchStopped, s1)).
  { intros s1 Hq1 Hf1. unfold forward, submit. rewrite Hq1, Hq, Hf1.
    destruct (forwarder s) as [|totals|] eqn:E; try done. by destruct (Hf totals). }
  simpl. match goal with |- context [forward selComm ?p ?s1] =>
    destruct (Hq1 s1 eq_refl eq_refl) as [-> ->] end.
  simpl. split; [done|]. split; [done|].
  match goal with |- context [removePendingPayment ?a ?h ?s1] =>
    destruct (removePendingPayment_frame a h s1) as (_ & _ & _ & -> & -> & -> & _) end.
  done.
Qed.

(** C8.  [Start] and [Stop] are idempotent: a second call changes nothing
    of the state (so it spawns no second dispatch loop and closes [quit] no
    second time).  And in every state of the switch after [Stop], each
    facade call ([forward], [AddLink], [RemoveLink], [GetLink], [GetLinks],
    [CloseLink], [SendHTLC]) can only take the [<-s.quit] case of its
    [select] and fails with the "stopped" error, leaving the link registry
    and the circuit map as they are. *)
Theorem lifecycle_idempotent_and_stopped :
  (∀ s, Start (Start s) = Start s) ∧
  (∀ s, Stop (Stop s) = Stop s) ∧
  (∀ s ops s', reachable s → run ops (Stop s) = Some s' → facade_stopped s').
Proof.
  split_and!.
  - intros s. unfold Start at 1. case_decide as H; [|done]. exfalso.
    unfold Start in H. case_decide; [|done]. cbv zeta in H.
    set (s1 := emit EGoForwarder (set_started 1 s)) in H.
    change (quit s1) with (quit s) in H.
    destruct (quit s); [|done].
    by destruct (forwarderReturn_frame s1) as ((Hst & _) & _); rewrite Hst in H.
  - intros s. unfold Stop at 1. case_decide as H; [|done]. exfalso.
    unfold Stop in H. case_decide; [|done]. cbv zeta in H.
    set (s1 := emit ECloseQuit (set_quit true (set_shutdown 1 s))) in H.
    change (forwarder s1) with (forwarder s) in H.
    destruct (forwarder s) as [|totals|]; try done.
    change (default s1 (snd <$> htlcForwarder quitClosed totals s1))
      with (forwarderReturn s1) in H.
    by destruct (forwarderReturn_frame s1) as ((_ & Hsh & _) & _); rewrite Hsh in H.
  - intros s ops s' Hs Hrun.
    destruct (Stop_lifecycle_inv s (reachable_lifecycle_inv s Hs)) as [Hinv Hsh].
    destruct (run_shutdown _ _ _ Hinv Hrun Hsh) as [[I1 I2] Hsh'].
    apply stopped_facade; auto.
Qed.

(** ** Circuits *)
















(** ** The pending-payment table *)

Lemma removePendingPayment_pendingPayments amount hash s :
  let ps := default [] (pendingPayments s !! hash) in
  pendingPayments (removePendingPayment amount hash s).2 =
  match list_find (λ payment, pp_amount payment = amount) ps with
  | Some (i, _) =>
    if decide (swap_remove i ps = []) then delete hash (pendingPayments s)
    else <[hash := swap_remove i ps]> (pendingPayments s)
  | None => pendingPayments s
  end.
Proof.
  intros ps. unfold removePendingPayment. fold ps.
  destruct (list_find _ ps) as [[i x]|]; [|done]. simpl.
  rewrite lookup_insert_eq. simpl.
  destruct (decide (length (swap_remove i ps) = 0)) as [Hl|Hl].
  - apply nil_length_inv in Hl as Hnil. rewrite decide_True by done. simpl.
    apply delete_insert_eq.
  - rewrite decide_False; [done|]. intros Hnil. by rewrite Hnil in Hl.
Qed.

(** After [removePendingPayment] every slice is a slice from before, or the
    slice of [hash] with its first entry of that amount swap-removed. *)
Lemma removePendingPayment_lookup amount hash s h ps' :
  pendingPayments (removePendingPayment amount hash s).2 !! h = Some ps' →
  (pendingPayments s !! h = Some ps' ∧
   (h ≠ hash ∨ list_find (λ payment, pp_amount payment = amount)
                 (default [] (pendingPayments s !! hash)) = None)) ∨
  (h = hash ∧ ps' ≠ [] ∧ ∃ ps i x,
     pendingPayments s !! hash = Some ps ∧
     list_find (λ payment, pp_amount payment = amount) ps = Some (i, x) ∧
     ps' = swap_remove i ps).
Proof.
  rewrite removePendingPayment_pendingPayments.
  destruct (pendingPayments s !! hash) as [ps|] eqn:Hps; simpl; [|by eauto].
  destruct (list_find _ ps) as [[i x]|] eqn:Hfind; [|by eauto].
  case_decide as Hnil.
  - rewrite lookup_delete. case_decide; [done|by eauto].
  - rewrite lookup_insert. case_decide as Hh; [|by eauto].
    intros [= <-]. right. split_and!; [done..|]. exists ps, i, x. by subst.
Qed.

Lemma removePendingPayment_pending amount hash s payment :
  (∀ h ps, pendingPayments s !! h = Some ps → NoDup ps) →
  pending payment (removePendingPayment amount hash s).2 → pending payment s.
Proof.
  intros Hnd (h & ps' & Hps' & Hin).
  apply removePendingPayment_lookup in Hps'
    as [[Hps _] | (-> & _ & ps & i & x & Hps & Hfind & ->)].
  - by exists h, ps'.
  - exists hash, ps. split; [done|]. apply list_find_Some in Hfind as (Hi & _).
    by apply (swap_remove_elem_of i ps x payment (Hnd _ _ Hps) Hi) in Hin as [? _].
Qed.

Lemma removePendingPayment_inv amount hash s :
  pending_inv s → pending_inv (removePendingPayment amount hash s).2.
Proof.
  intros (I1 & I2 & I3).
  assert (Hnd : ∀ h ps, pendingPayments s !! h = Some ps → NoDup ps).
  { intros h ps Hps. by destruct (I1 h ps Hps). }
  destruct (removePendingPayment_frame amount hash s)
    as (_ & _ & _ & _ & _ & _ & Herr & Hpre & _).
  split_and!.
  - intros h ps' Hps'.
    apply removePendingPayment_lookup in Hps'
      as [[Hps _] | (-> & Hnil & ps & i & x & Hps & Hfind & ->)]; [by apply I1|].
    apply list_find_Some in Hfind as (Hi & _).
    destruct (I1 _ _ Hps) as (Hndps & _ & Hh).
    split_and!; [by eapply swap_remove_NoDup|done|].
    intros p Hp. apply Hh. by apply (swap_remove_elem_of i ps x p Hndps Hi) in Hp as [? _].
  - intros p Hp. rewrite Herr, Hpre. apply I2. by eapply removePendingPayment_pending.
  - intros p1 p2 Hp1 Hp2. apply I3; by eapply removePendingPayment_pending.
Qed.

Lemma pending_inv_keep s s' : keeps_payments s s' → pending_inv s → pending_inv s'.
Proof.
  intros (Hp & He & Hpre). unfold pending_inv, pending. by rewrite Hp, He, Hpre.
Qed.

Lemma findPayment_pending amount hash s payment :
  findPayment amount hash s = inl payment →
  ∃ ps i, pendingPayments s !! hash = Some ps ∧
    list_find (λ p, pp_amount p = amount) ps = Some (i, payment).
Proof.
  unfold findPayment.
  destruct (pendingPayments s !! hash) as [ps|] eqn:Hps; simpl; [|done].
  destruct (list_find _ ps) as [[i x]|] eqn:Hfind; [|done].
  intros [= <-]. eauto.
Qed.

(** The writes of a resolution go to empty channels (so they do not
    block), and the record resolved leaves the table. *)
Lemma handleLocalDispatch_resolution_inv amount hash payment packet s :
  pending_inv s →
  findPayment amount hash s = inl payment →
  is_settle_or_fail (htlc packet) →
  ∃ s', handleLocalDispatch payment packet s = Some (None, s') ∧
    pending_inv s' ∧ ¬ pending payment s' ∧
    (∀ p, pending p s' → pending p s) ∧
    log s' = log s ++ [EChanSendErr (pp_err payment) (resolution_err (htlc packet));
                       EChanSendPreimage (pp_preimage payment)
                         (resolution_preimage (htlc packet))] ∧
    errChans s' = <[pp_err payment := [resolution_err (htlc packet)]]> (errChans s) ∧
    preimageChans s' =
      <[pp_preimage payment := [resolution_preimage (htlc packet)]]> (preimageChans s).
Proof.
  intros (I1 & I2 & I3) Hfind Hm.
  destruct (findPayment_pending _ _ _ _ Hfind) as (ps & i & Hps & Hfound).
  pose proof Hfound as Hi. apply list_find_Some in Hi as (Hi & Ha & _).
  assert (Hpend : pending payment s).
  { exists hash, ps. split; [done|]. by eapply list_elem_of_lookup_2. }
  destruct (I1 _ _ Hps) as (Hnd & _ & Hh).
  assert (pp_paymentHash payment = hash) as Hhash.
  { apply Hh. by eapply list_elem_of_lookup_2. }
  destruct (I2 _ Hpend) as [He Hp].
  eexists. split; [by apply handleLocalDispatch_resolution|].
  set (s2 := emit _ (set_preimageChans _ (emit _ (set_errChans _ s)))).
  assert (Hs2 : pendingPayments s2 = pendingPayments s) by done.
  destruct (removePendingPayment_frame (pp_amount payment) (pp_paymentHash payment) s2)
    as (_ & _ & _ & _ & _ & _ & Herr & Hpre & _ & Hlog).
  rewrite Hhash, Ha in *.
  assert (Hslice : ∀ h ps', pendingPayments (removePendingPayment amount hash s2).2 !! h
                              = Some ps' →
            (h ≠ hash ∧ pendingPayments s !! h = Some ps') ∨
            (h = hash ∧ ps' ≠ [] ∧ ps' = swap_remove i ps)).
  { intros h ps' Hps'.
    apply removePendingPayment_lookup in Hps'
      as [[Hps1 [Hne|Hnone]] | (-> & Hnil & ps1 & i1 & x1 & Hps1 & Hfind1 & ->)];
      rewrite Hs2 in *.
    - by left.
    - rewrite Hps in Hnone. simpl in Hnone. congruence.
    - right. rewrite Hps in Hps1. injection Hps1 as <-.
      rewrite Hfound in Hfind1. by injection Hfind1 as <- <-. }
  assert (Hsub : ∀ p, pending p (removePendingPayment amount hash s2).2 →
            pending p s ∧ p ≠ payment).
  { intros p (h & ps' & Hps' & Hin).
    apply Hslice in Hps' as [[Hne Hps1] | (-> & _ & ->)].
    - split; [by exists h, ps'|]. intros ->. apply Hne.
      destruct (I1 _ _ Hps1) as (_ & _ & Hh1). by rewrite <- (Hh1 _ Hin).
    - apply (swap_remove_elem_of i ps payment p Hnd Hi) in Hin as [Hin Hne].
      split; [by exists hash, ps|done]. }
  split_and!.
  - split_and!.
    + intros h ps' Hps'. apply Hslice in Hps' as [[_ Hps1] | (-> & Hnil & ->)].
      * by apply I1.
      * split_and!; [by eapply swap_remove_NoDup|done|].
        intros p Hin. apply Hh.
        by apply (swap_remove_elem_of i ps payment p Hnd Hi) in Hin as [? _].
    + intros p Hp'. destruct (Hsub _ Hp') as [Hps0 Hne].
      destruct (I2 _ Hps0) as [He0 Hp0]. rewrite Herr, Hpre. simpl.
      rewrite !lookup_insert_ne; [done|..].
      * intros Heq. apply Hne. symmetry. apply I3; auto.
      * intros Heq. apply Hne. symmetry. apply I3; auto.
    + intros p1 p2 Hp1 Hp2. apply I3; by apply Hsub.
  - intros Hp'. by destruct (Hsub _ Hp').
  - intros p Hp'. by destruct (Hsub _ Hp').
  - rewrite Hlog. simpl. by rewrite <- app_assoc.
  - by rewrite Herr.
  - by rewrite Hpre.
Qed.

Lemma handleLocalDispatch_add_other payment packet s err s' :
  ¬ is_settle_or_fail (htlc packet) →
  handleLocalDispatch payment packet s = Some (err, s') → keeps_payments s s'.
Proof.
  unfold handleLocalDispatch, getLinks. intros Hm H.
  destruct (htlc packet); simpl in Hm; try done; repeat case_match; by simplify_eq.
Qed.

Lemma dispatch_pending_inv paymentHash amount pkt s err s' :
  pending_inv s → dispatch paymentHash amount pkt s = Some (err, s') → pending_inv s'.
Proof.
  intros Hinv. unfold dispatch.
  destruct (findPayment amount paymentHash s) as [payment|] eqn:Hfind.
  - intros H.
    assert (is_settle_or_fail (htlc pkt) ∨ ¬ is_settle_or_fail (htlc pkt)) as [Hm|Hm]
      by (destruct (htlc pkt); simpl; auto).
    + destruct (handleLocalDispatch_resolution_inv _ _ _ _ _ Hinv Hfind Hm)
        as (s1 & H1 & ? & _). rewrite H1 in H. by simplify_eq.
    + eapply pending_inv_keep; [|done]. by eapply handleLocalDispatch_add_other.
  - intros [= H]. eapply pending_inv_keep; [|done].
    destruct (handlePacketForward_frame pkt s) as (_ & Hk & _). by rewrite H in Hk.
Qed.

Lemma htlcForwarder_pending_inv c totals s r s' :
  pending_inv s → htlcForwarder c totals s = Some (r, s') → pending_inv s'.
Proof.
  intros Hinv H. destruct c as [req | pkt | | cmd |]; simpl in H.
  - destruct (handleChanelClose req s) as [errs s1] eqn:E. simplify_eq.
    destruct (handleChanelClose_frame req s) as (_ & Hk & _). rewrite E in Hk.
    by eapply pending_inv_keep.
  - destruct (htlc pkt).
    + destruct (dispatch _ _ _ _) as [[err s1]|] eqn:E; [|done]. simpl in H. simplify_eq.
      by eapply dispatch_pending_inv.
    + destruct (dispatch _ _ _ _) as [[err s1]|] eqn:E; [|done]. simpl in H. simplify_eq.
      by eapply dispatch_pending_inv.
    + destruct (dispatch _ _ _ _) as [[err s1]|] eqn:E; [|done]. simpl in H. simplify_eq.
      by eapply dispatch_pending_inv.
    + simplify_eq. destruct (forwarderReturn_frame s) as (_ & Hk & _).
      by eapply pending_inv_keep.
  - simplify_eq. by eapply pending_inv_keep.
  - destruct cmd as [link | chanID | chanID | peer].
    + destruct (addLink link s) as [err s1] eqn:E. simplify_eq.
      destruct (addLink_frame link s) as (_ & Hk & _). rewrite E in Hk.
      by eapply pending_inv_keep.
    + destruct (removeLink chanID s) as [err s1] eqn:E. simplify_eq.
      destruct (removeLink_frame chanID s) as (_ & _ & _ & ? & _ & ? & ? & _).
      rewrite E in *. by eapply pending_inv_keep.
    + by simplify_eq.
    + by simplify_eq.
  - destruct (quit s); [|done]. simplify_eq.
    destruct (forwarderReturn_frame s) as (_ & Hk & _). by eapply pending_inv_keep.
Qed.

Lemma submit_pending_inv sel c s r s' :
  pending_inv s → submit sel c s = Some (r, s') → pending_inv s'.
Proof.
  intros Hinv [(_ & _ & -> & _)|(_ & totals & r' & _ & H & _)]%submit_cases; [done|].
  by eapply htlcForwarder_pending_inv.
Qed.

Lemma Start_payments s : keeps_payments s (Start s).
Proof.
  unfold Start. case_decide; [|done]. cbv zeta.
  set (s1 := emit EGoForwarder (set_started 1 s)).
  destruct (quit s1); [|done]. by destruct (forwarderReturn_frame s1) as (_ & ? & _).
Qed.

Lemma Stop_payments s : keeps_payments s (Stop s).
Proof.
  unfold Stop. case_decide; [|done]. cbv zeta.
  set (s1 := emit ECloseQuit (set_quit true (set_shutdown 1 s))).
  destruct (forwarder s1) as [|totals|]; [done| |done].
  change (default s1 (snd <$> htlcForwarder quitClosed totals s1)) with (forwarderReturn s1).
  by destruct (forwarderReturn_frame s1) as (_ & ? & _).
Qed.

(** [SendHTLC] up to [forward]: what it makes and where it puts it. *)
Lemma SendHTLC_enter_spec nextNode h a s :
  let payment := {| pp_paymentHash := h; pp_amount := a;
                    pp_preimage := fresh (dom (preimageChans s));
                    pp_err := fresh (dom (errChans s)) |} in
  SendHTLC_enter nextNode (UpdateAddHTLC h a) s =
    Some (atForward payment (newInitPacket (NewHopID nextNode) (UpdateAddHTLC h a)),
          set_pendingPayments
            (<[h := default [] (pendingPayments s !! h) ++ [payment]]> (pendingPayments s))
            (set_preimageChans (<[pp_preimage payment := []]> (preimageChans s))
               (set_errChans (<[pp_err payment := []]> (errChans s)) s))) ∧
  errChans s !! pp_err payment = None ∧
  preimageChans s !! pp_preimage payment = None.
Proof.
  intros payment. split_and!; [done|..]; apply not_elem_of_dom, is_fresh.
Qed.

Lemma SendHTLC_enter_pending_inv nextNode update s pc s' :
  pending_inv s → SendHTLC_enter nextNode update s = Some (pc, s') → pending_inv s'.
Proof.
  intros (I1 & I2 & I3) H. destruct update as [h a| | |]; try done.
  destruct (SendHTLC_enter_spec nextNode h a s) as (Hs' & Herr & Hpre).
  rewrite Hs' in H. injection H as _ <-.
  set (payment := {| pp_paymentHash := h; pp_amount := a;
                     pp_preimage := fresh (dom (preimageChans s));
                     pp_err := fresh (dom (errChans s)) |}) in *.
  assert (Hfresh : ∀ p, pending p s → pp_err p ≠ pp_err payment ∧
                                     pp_preimage p ≠ pp_preimage payment).
  { intros p Hp. destruct (I2 _ Hp) as [He Hp']. split; intros Heq; congruence. }
  assert (Hold : ∀ p, p ∈ default [] (pendingPayments s !! h) → pending p s).
  { intros p Hp. destruct (pendingPayments s !! h) as [ps|] eqn:Hps; simpl in Hp.
    - by exists h, ps.
    - by apply elem_of_nil in Hp. }
  assert (Hpend : ∀ p s1, pending p s1 → pendingPayments s1 =
              <[h := default [] (pendingPayments s !! h) ++ [payment]]> (pendingPayments s) →
            p = payment ∨ pending p s).
  { intros p s1 (h' & ps & Hps & Hin) Hs1. rewrite Hs1 in Hps.
    rewrite lookup_insert in Hps. case_decide.
    - injection Hps as <-. apply elem_of_app in Hin as [Hin|Hin%list_elem_of_singleton]; auto.
    - right. by exists h', ps. }
  split_and!; simpl.
  - intros h' ps. rewrite lookup_insert. case_decide as Hh; [|apply I1].
    intros [= <-]. subst h'. split_and!.
    + apply NoDup_app. split_and!.
      * destruct (pendingPayments s !! h) as [ps|] eqn:Hps; simpl; [|constructor].
        by destruct (I1 _ _ Hps).
      * intros p Hp ->%list_elem_of_singleton. by destruct (Hfresh _ (Hold _ Hp)).
      * apply NoDup_singleton.
    + by destruct (default _ _).
    + intros p [Hp| ->%list_elem_of_singleton]%elem_of_app; [|done].
      destruct (pendingPayments s !! h) as [ps|] eqn:Hps; simpl in Hp.
      * destruct (I1 _ _ Hps) as (_ & _ & Hh). by apply Hh.
      * by apply elem_of_nil in Hp.
  - intros p Hp. destruct (Hpend p _ Hp eq_refl) as [-> | Hp'].
    + by rewrite !lookup_insert_eq.
    + destruct (Hfresh _ Hp'). destruct (I2 _ Hp'). by rewrite !lookup_insert_ne.
  - intros p1 p2 Hp1 Hp2 Heq.
    destruct (Hpend p1 _ Hp1 eq_refl) as [-> | Hp1'];
      destruct (Hpend p2 _ Hp2 eq_refl) as [-> | Hp2'].
    + done.
    + destruct (Hfresh _ Hp2'). destruct Heq; congruence.
    + destruct (Hfresh _ Hp1'). destruct Heq; congruence.
    + by apply I3.
Qed.

Lemma exec_pending_inv o s s' : pending_inv s → exec o s = Some s' → pending_inv s'.
Proof.
  intros Hinv H. apply exec_cases in H
    as [-> | [-> | [(sel & c & r & H) | [(totals & Hf & H) | [(n & u & pc & H) |
       [(sel & c & r & s1 & a & h & H & ->) | [(ch & e & buf & Hch & ->) |
       [(ch & p & buf & Hch & ->) | [_ ->]]]]]]]]].
  - eapply pending_inv_keep; [apply Start_payments|done].
  - eapply pending_inv_keep; [apply Stop_payments|done].
  - by eapply submit_pending_inv.
  - by eapply htlcForwarder_pending_inv.
  - by eapply SendHTLC_enter_pending_inv.
  - apply removePendingPayment_inv. by eapply submit_pending_inv.
  - destruct Hinv as (I1 & I2 & I3). split_and!; [done| |done]. simpl.
    intros p0 Hp0. destruct (I2 _ Hp0) as [He ?]. split; [|done].
    rewrite lookup_insert_ne; [done|]. intros ->. congruence.
  - destruct Hinv as (I1 & I2 & I3). split_and!; [done| |done]. simpl.
    intros p0 Hp0. destruct (I2 _ Hp0) as [? Hp']. split; [done|].
    rewrite lookup_insert_ne; [done|]. intros ->. congruence.
  - done.
Qed.

Lemma reachable_pending_inv s : reachable s → pending_inv s.
Proof.
  induction 1 as [|s o s' _ IH H].
  - split_and!.
    + intros h ps. simpl. by rewrite lookup_empty.
    + intros p (h & ps & Hps & _). simpl in Hps. by rewrite lookup_empty in Hps.
    + intros p1 p2 (h & ps & Hps & _). simpl in Hps. by rewrite lookup_empty in Hps.
  - by eapply exec_pending_inv.
Qed.

(** ** [SendHTLC] and the resolution of its payment *)

(** The two reads of [SendHTLC] after a resolution wrote [e] and [p]. *)
Lemma SendHTLC_await_resolved payment e p s :
  errChans s !! pp_err payment = Some [e] →
  preimageChans s !! pp_preimage payment = Some [p] →
  ∃ s1 s2,
    SendHTLC_step selComm (atAwaitErr payment) s = Some (atAwaitPreimage payment e, s1) ∧
    preimageChans s1 = preimageChans s ∧
    SendHTLC_step selComm (atAwaitPreimage payment e) s1 = Some (atReturn p e, s2) ∧
    keeps_registry s s2 ∧ circuits s2 = circuits s ∧ pendingPayments s2 = pendingPayments s.
Proof.
  intros He Hp. simpl. rewrite He. eexists _, _. split; [done|]. simpl.
  rewrite Hp. done.
Qed.


(** After the dispatch of a Settle or Fail to a pending payment, its two
    channels hold the error and the preimage of the resolution. *)
Lemma resolution_fills_slots s amount hash payment packet :
  pending_inv s →
  findPayment amount hash s = inl payment →
  is_settle_or_fail (htlc packet) →
  ∃ s', handleLocalDispatch payment packet s = Some (None, s') ∧
    errChans s' !! pp_err payment = Some [resolution_err (htlc packet)] ∧
    preimageChans s' !! pp_preimage payment = Some [resolution_preimage (htlc packet)].
Proof.
  intros Hinv Hfind Hm.
  destruct (handleLocalDispatch_resolution_inv _ _ _ _ _ Hinv Hfind Hm)
    as (s' & Hd & _ & _ & _ & _ & Herr & Hpre).
  exists s'. split_and!; [done|..].
  - by rewrite Herr, lookup_insert_eq.
  - by rewrite Hpre, lookup_insert_eq.
Qed.

Lemma swap_remove_last {A} (l : list A) (x : A) : swap_remove (length l) (l ++ [x]) = l.
Proof.
  unfold swap_remove. rewrite last_snoc, length_app. simpl.
  replace (length l + 1 - 1) with (length l) by lia.
  rewrite insert_app_r_alt by done. rewrite Nat.sub_diag. simpl.
  by rewrite take_app_length.
Qed.

(** [forward] of an Add leaves the pending-payment table and the channels
    of the payments as they are. *)
Lemma forward_add_payments sel packet h a s e s' :
  htlc packet = UpdateAddHTLC h a →
  forward sel packet s = Some (e, s') → keeps_payments s s'.
Proof.
  intros Hm [r H]%forward_submit.
  apply submit_cases in H as [(_ & _ & -> & _)|(_ & totals & r' & _ & H & _)]; [done|].
  simpl in H. rewrite Hm in H. unfold dispatch in H.
  destruct (findPayment a h s) as [payment|].
  - destruct (handleLocalDispatch payment packet s) as [[err s1]|] eqn:E; [|done].
    simpl in H. simplify_eq. eapply handleLocalDispatch_add_other; [|done].
    rewrite Hm. by intros [].
  - destruct (handlePacketForward_frame packet s) as (_ & Hk & _).
    destruct (handlePacketForward packet s) as [err s1]. simpl in H. by simplify_eq.
Qed.

(** Insert a fresh record, then [removePendingPayment] of its hash and
    amount: when no record of the table had that hash and amount, the table
    is as before. *)
Lemma removePendingPayment_inserted payment s s1 :
  pending_inv s →
  findPayment (pp_amount payment) (pp_paymentHash payment) s
    = inr (ErrPendingPayment (pp_paymentHash payment) (pp_amount payment)) →
  pendingPayments s1 =
    <[pp_paymentHash payment :=
        default [] (pendingPayments s !! pp_paymentHash payment) ++ [payment]]>
      (pendingPayments s) →
  pendingPayments
    (removePendingPayment (pp_amount payment) (pp_paymentHash payment) s1).2
    = pendingPayments s.
Proof.
  intros (I1 & _) Hnone Hs1. rewrite removePendingPayment_pendingPayments.
  rewrite Hs1, lookup_insert_eq. simpl.
  unfold findPayment in Hnone.
  set (old := default [] (pendingPayments s !! pp_paymentHash payment)) in *.
  destruct (list_find _ old) as [[i x]|] eqn:Hold; [done|].
  rewrite (list_find_app_r _ _ _ Hold). simpl. case_decide; [|done]. simpl.
  rewrite swap_remove_last.
  destruct (pendingPayments s !! pp_paymentHash payment) as [ps|] eqn:Hps; subst old; simpl.
  - destruct (I1 _ _ Hps) as (_ & Hnil & _). destruct (decide (ps = [])); [done|].
    rewrite insert_insert_eq. by apply insert_id.
  - rewrite delete_insert_eq. by apply delete_id.
Qed.

Lemma removePendingPayment_same_table amount hash s1 s2 :
  pendingPayments s2 = pendingPayments s1 →
  pendingPayments (removePendingPayment amount hash s2).2
    = pendingPayments (removePendingPayment amount hash s1).2.
Proof. intros H. rewrite !removePendingPayment_pendingPayments. by rewrite H. Qed.

(** C6.  In a state of the switch, under the contract of the table (a
    record is identified by its hash and amount, and two simultaneous
    local sends with the same hash and amount are an error of the
    caller):
    - when [forward] fails for the Add of a call of [SendHTLC], the call
      returns the zero preimage and that error, after
      [removePendingPayment] of its hash and amount on the table that holds
      its record; when no pending payment had that hash and amount before
      the call, the record removed is the one the call inserted: it is
      pending no more and the table is again as it was before the call;
    - after a Settle or Fail was dispatched to its payment, the two reads
      of [SendHTLC] make it return the preimage and a [nil] error for a
      Settle, the zero preimage and the error made from the reason for a
      Fail. *)
Theorem SendHTLC_result_contract (s : Switch) :
  reachable s →
  (∀ nextNode h a payment packet s1 sel err s2,
     SendHTLC_enter nextNode (UpdateAddHTLC h a) s = Some (atForward payment packet, s1) →
     forward sel packet s1 = Some (Some err, s2) →
     ∃ s3,
       SendHTLC_step sel (atForward payment packet) s1
         = Some (atReturn zeroPreimage (Some err), s3) ∧
       pendingPayments s3 = pendingPayments (removePendingPayment a h s1).2 ∧
       (findPayment a h s = inr (ErrPendingPayment h a) →
        pendingPayments s3 = pendingPayments s ∧ ¬ pending payment s3)) ∧
  (∀ amount hash payment packet,
     findPayment amount hash s = inl payment →
     is_settle_or_fail (htlc packet) →
     ∃ s1 s2 s3,
       handleLocalDispatch payment packet s = Some (None, s1) ∧
       SendHTLC_step selComm (atAwaitErr payment) s1
         = Some (atAwaitPreimage payment (resolution_err (htlc packet)), s2) ∧
       SendHTLC_step selComm (atAwaitPreimage payment (resolution_err (htlc packet))) s2
         = Some (atReturn (resolution_preimage (htlc packet))
                   (resolution_err (htlc packet)), s3)) ∧
  (∀ id reason,
     resolution_preimage (UpdateFailHTLC id reason) = zeroPreimage ∧
     resolution_err (UpdateFailHTLC id reason) = Some (userErr id reason)) ∧
  (∀ preimage,
     resolution_preimage (UpdateFufillHTLC preimage) = preimage ∧
     resolution_err (UpdateFufillHTLC preimage) = None).
Proof.
  intros Hs. pose proof (reachable_pending_inv s Hs) as Hinv. split_and!; [| |done..].
  - intros nextNode h a payment packet s1 sel err s2 Henter Hfwd.
    destruct (SendHTLC_enter_spec nextNode h a s) as (Hs1 & Hfe & Hfp).
    rewrite Hs1 in Henter. injection Henter as <- <- <-.
    set (payment := {| pp_paymentHash := h; pp_amount := a;
                       pp_preimage := fresh (dom (preimageChans s));
                       pp_err := fresh (dom (errChans s)) |}) in *.
    match type of Hfwd with forward _ _ ?st = _ => set (s1 := st) in * end.
    assert (Hkeep : pendingPayments s2 = pendingPayments s1).
    { by destruct (forward_add_payments sel
                     (newInitPacket (NewHopID nextNode) (UpdateAddHTLC h a))
                     h a s1 (Some err) s2 eq_refl Hfwd) as (? & _). }
    exists (removePendingPayment a h s2).2. split_and!.
    + simpl. rewrite Hfwd. done.
    + by apply removePendingPayment_same_table.
    + intros Hnone.
      assert (pendingPayments (removePendingPayment a h s2).2 = pendingPayments s) as Heq.
      { rewrite (removePendingPayment_same_table a h s1 s2 Hkeep).
        by apply (removePendingPayment_inserted payment s s1). }
      split; [done|]. intros (h' & ps & Hps & Hin). rewrite Heq in Hps.
      destruct Hinv as (_ & I2 & _). destruct (I2 payment) as [He _]; [by exists h', ps|].
      rewrite Hfe in He. done.
  - intros amount hash payment packet Hfind Hm.
    destruct (resolution_fills_slots s amount hash payment packet Hinv Hfind Hm)
      as (s1 & Hd & He & Hp).
    destruct (SendHTLC_await_resolved payment _ _ s1 He Hp) as (s2 & s3 & ? & _ & ? & _).
    eauto 10.
Qed.

(** ** Shutdown while [SendHTLC] waits *)

Lemma htlcForwarder_payments c totals s r s' :
  htlcForwarder c totals s = Some (r, s') →
  keeps_payments s s' ∨ ∃ pkt, c = forwardCommand pkt ∧ is_settle_or_fail (htlc pkt).
Proof.
  intros H. destruct c as [req | pkt | | cmd |]; simpl in H.
  - destruct (handleChanelClose req s) as [errs s1] eqn:E. simplify_eq.
    destruct (handleChanelClose_frame req s) as (_ & Hk & _). rewrite E in Hk. by left.
  - destruct (htlc pkt) as [h a| | |] eqn:Hm.
    + left. destruct (dispatch _ _ _ _) as [[err s1]|] eqn:E; [|done]. simpl in H. simplify_eq.
      unfold dispatch in E. destruct (findPayment a h s) as [payment|].
      * eapply handleLocalDispatch_add_other; [|done]. rewrite Hm. by intros [].
      * destruct (handlePacketForward_frame pkt s) as (_ & Hk & _).
        destruct (handlePacketForward pkt s). by simplify_eq.
    + right. exists pkt. by rewrite Hm.
    + right. exists pkt. by rewrite Hm.
    + left. simplify_eq. by destruct (forwarderReturn_frame s) as (_ & ? & _).
  - left. by simplify_eq.
  - left. destruct cmd as [link | chanID | chanID | peer].
    + destruct (addLink link s) as [err s1] eqn:E. simplify_eq.
      destruct (addLink_frame link s) as (_ & Hk & _). by rewrite E in Hk.
    + destruct (removeLink chanID s) as [err s1] eqn:E. simplify_eq.
      destruct (removeLink_frame chanID s) as (_ & _ & _ & ? & _ & ? & ? & _).
      rewrite E in *. done.
    + by simplify_eq.
    + by simplify_eq.
  - left. destruct (quit s); [|done]. simplify_eq.
    by destruct (forwarderReturn_frame s) as (_ & ? & _).
Qed.

Lemma submit_payments sel c s r s' :
  submit sel c s = Some (r, s') →
  keeps_payments s s' ∨ ∃ pkt, c = forwardCommand pkt ∧ is_settle_or_fail (htlc pkt).
Proof.
  intros [(_ & _ & -> & _)|(_ & totals & r' & _ & H & _)]%submit_cases; [by left|].
  by eapply htlcForwarder_payments.
Qed.

(** A pending record stays pending over every step other than the two
    that call [removePendingPayment]. *)
Lemma exec_pending_kept o s s' p :
  exec o s = Some s' → pending p s → pending p s' ∨ removes_pending o.
Proof.
  intros H Hp.
  assert (Hkeep : ∀ s1, pendingPayments s1 = pendingPayments s → pending p s1).
  { intros s1 Heq. unfold pending. by rewrite Heq. }
  destruct o; simpl in H.
  - left. simplify_eq. apply Hkeep. by destruct (Start_payments s).
  - left. simplify_eq. apply Hkeep. by destruct (Stop_payments s).
  - left. destruct (forwarder s) as [|totals|] eqn:Hf; [done| |done].
    simpl in H. simplify_eq. by apply Hkeep.
  - destruct (forward _ _ _) as [[e s1]|] eqn:E; [|done]. simpl in H. simplify_eq.
    apply forward_submit in E as [r E].
    apply submit_payments in E as [[? _]|(pkt & [= <-] & Hm)]; [left; by apply Hkeep|].
    right. left. eauto.
  - left. destruct (AddLink _ _ _) as [[e s1]|] eqn:E; [|done]. simpl in H. simplify_eq.
    apply AddLink_submit in E as [r E].
    apply submit_payments in E as [[? _]|(pkt & [=] & _)]. by apply Hkeep.
  - left. destruct (RemoveLink _ _ _) as [[e s1]|] eqn:E; [|done]. simpl in H. simplify_eq.
    apply RemoveLink_submit in E as [r E].
    apply submit_payments in E as [[? _]|(pkt & [=] & _)]. by apply Hkeep.
  - left. destruct (GetLink _ _ _) as [[e s1]|] eqn:E; [|done]. simpl in H. simplify_eq.
    apply GetLink_submit in E as [r E].
    apply submit_payments in E as [[? _]|(pkt & [=] & _)]. by apply Hkeep.
  - left. destruct (GetLinks _ _ _) as [[e s1]|] eqn:E; [|done]. simpl in H. simplify_eq.
    apply GetLinks_submit in E as [r E].
    apply submit_payments in E as [[? _]|(pkt & [=] & _)]. by apply Hkeep.
  - left. destruct (CloseLink _ _ _) as [[e s1]|] eqn:E; [|done]. simpl in H. simplify_eq.
    apply CloseLink_submit in E as [r E].
    apply submit_payments in E as [[? _]|(pkt & [=] & _)]. by apply Hkeep.
  - left. destruct update as [h a| | |]; try done. simpl in H. simplify_eq.
    destruct Hp as (h' & ps & Hps & Hin). unfold pending. simpl.
    destruct (decide (h = h')) as [->|Hne].
    + eexists h', _. rewrite lookup_insert_eq. split; [done|]. rewrite Hps. simpl.
      apply elem_of_app. by left.
    + exists h', ps. by rewrite lookup_insert_ne.
  - destruct pc as [payment packet | payment | payment err | ]; simpl in H.
    + right. right. eauto.
    + left. destruct sel.
      * destruct (errChans s !! pp_err payment) as [[|e buf]|]; simpl in H; simplify_eq.
        by apply Hkeep.
      * destruct (quit s); simpl in H; by simplify_eq.
    + left. destruct sel.
      * destruct (preimageChans s !! pp_preimage payment) as [[|p0 buf]|]; simpl in H;
          simplify_eq. by apply Hkeep.
      * destruct (quit s); simpl in H; by simplify_eq.
    + done.
Qed.

(** C10.  In a state of the switch where a call of [SendHTLC] waits for its
    error or for its preimage: after [Stop], the [<-s.quit] case of its
    [select] lets it return the zero preimage and the "service is
    shutdown" error, with the state untouched; [Stop] leaves the
    pending-payment table as it is, so the record of the call, when it is
    pending, stays in the table.  A pending record leaves the table only by
    a step that calls [removePendingPayment]: the [forward] of a call of
    [SendHTLC] (when it fails) or the dispatch of a Settle or Fail. *)
Theorem SendHTLC_shutdown_keeps_pending (s : Switch) (payment : pendingPayment)
    (pc : SendHTLC_pc) :
  reachable s →
  pc = atAwaitErr payment ∨ (∃ err, pc = atAwaitPreimage payment err) →
  SendHTLC_step selQuit pc (Stop s)
    = Some (atReturn zeroPreimage (Some ErrServiceShutdown), Stop s) ∧
  pendingPayments (Stop s) = pendingPayments s ∧
  (pending payment s → pending payment (Stop s)) ∧
  (∀ o s' p, exec o s = Some s' → pending p s → pending p s' ∨ removes_pending o).
Proof.
  intros Hs Hpc.
  destruct (Stop_lifecycle_inv s (reachable_lifecycle_inv s Hs)) as [[I1 _] Hsh].
  pose proof (I1 Hsh) as Hq.
  destruct (Stop_payments s) as (Hp & _).
  split_and!.
  - destruct Hpc as [-> | [err ->]]; simpl; by rewrite Hq.
  - done.
  - unfold pending. by rewrite Hp.
  - intros o s' p. apply exec_pending_kept.
Qed.

(** ** The dispatch loop *)

(** A forward command always gets its reply from a waiting loop: the
    dispatch never blocks in a state of the switch. *)
Lemma dispatch_total paymentHash amount pkt s :
  pending_inv s → is_Some (dispatch paymentHash amount pkt s).
Proof.
  intros Hinv. unfold dispatch.
  destruct (findPayment amount paymentHash s) as [payment|] eqn:Hfind; [|by eauto].
  assert (is_settle_or_fail (htlc pkt) ∨ ¬ is_settle_or_fail (htlc pkt)) as [Hm|Hm]
    by (destruct (htlc pkt); simpl; auto).
  - destruct (handleLocalDispatch_resolution_inv _ _ _ _ _ Hinv Hfind Hm) as (s1 & -> & _).
    by eauto.
  - unfold handleLocalDispatch, getLinks.
    destruct (htlc pkt); simpl in Hm; try done; repeat case_match; eauto.
Qed.

(** For an Add, Settle or Fail the reply is the outcome of the handler and
    the loop goes back to its [select]. *)
Lemma forward_served pkt totals s :
  reachable s → forwarder s = Parked totals → htlc pkt ≠ OtherMessage →
  ∃ err s', forward selComm pkt s = Some (err, s') ∧ forwarder s' = Parked totals ∧
    ∃ paymentHash amount, dispatch paymentHash amount pkt s = Some (err, s').
Proof.
  intros Hs Hf Hm. pose proof (reachable_pending_inv s Hs) as Hinv.
  unfold forward, submit. rewrite Hf. simpl.
  destruct (htlc pkt) as [h a | preimage | id reason |] eqn:Hhtlc; [| | |done].
  - destruct (dispatch_total h a pkt s Hinv) as [[err s'] Hd]. rewrite Hd. simpl.
    exists err, s'. split_and!; [done| |by eauto].
    apply dispatch_frame in Hd as [_ ->]. done.
  - destruct (dispatch_total (payHash pkt) (amount pkt) pkt s Hinv) as [[err s'] Hd].
    rewrite Hd. simpl. exists err, s'. split_and!; [done| |by eauto].
    apply dispatch_frame in Hd as [_ ->]. done.
  - destruct (dispatch_total (payHash pkt) (amount pkt) pkt s Hinv) as [[err s'] Hd].
    rewrite Hd. simpl. exists err, s'. split_and!; [done| |by eauto].
    apply dispatch_frame in Hd as [_ ->]. done.
Qed.

(** For any other message the reply is "wrong type of update" and the loop
    returns, without any shutdown signal: no later command is received. *)
Lemma forward_other_message pkt totals s :
  forwarder s = Parked totals → htlc pkt = OtherMessage →
  forward selComm pkt s = Some (Some ErrWrongTypeOfUpdate, forwarderReturn s) ∧
  forwarder (forwarderReturn s) = Exited ∧
  quit (forwarderReturn s) = quit s ∧
  (quit s = false → ∀ sel pkt', forward sel pkt' (forwarderReturn s) = None).
Proof.
  intros Hf Hm. destruct (forwarderReturn_frame s) as ((_ & _ & Hq) & _ & _ & Hex).
  split_and!; [|done..|].
  - unfold forward, submit. rewrite Hf. simpl. by rewrite Hm.
  - intros Hquit sel pkt'. unfold forward, submit. rewrite Hex, Hq, Hquit. by destruct sel.
Qed.

(** The loop returns on [<-s.quit] and on a forward command with another
    message only. *)
Lemma htlcForwarder_exit_cases c totals s r s' :
  forwarder s = Parked totals →
  htlcForwarder c totals s = Some (r, s') →
  forwarder s' = Exited →
  (c = quitClosed ∧ quit s = true) ∨
  (∃ pkt, c = forwardCommand pkt ∧ htlc pkt = OtherMessage).
Proof.
  intros Hf H Hex. destruct c as [req | pkt | | cmd |]; simpl in H.
  - destruct (handleChanelClose req s) as [errs s1] eqn:E. simplify_eq.
    destruct (handleChanelClose_frame req s) as (_ & _ & _ & _ & Hfw).
    rewrite E in Hfw. simpl in Hfw. congruence.
  - destruct (htlc pkt) eqn:Hm; [| | |by eauto].
    + destruct (dispatch _ _ _ _) as [[err s1]|] eqn:E; [|done]. simpl in H. simplify_eq.
      apply dispatch_frame in E as [_ ?]. congruence.
    + destruct (dispatch _ _ _ _) as [[err s1]|] eqn:E; [|done]. simpl in H. simplify_eq.
      apply dispatch_frame in E as [_ ?]. congruence.
    + destruct (dispatch _ _ _ _) as [[err s1]|] eqn:E; [|done]. simpl in H. simplify_eq.
      apply dispatch_frame in E as [_ ?]. congruence.
  - by simplify_eq.
  - destruct cmd as [link | chanID | chanID | peer].
    + destruct (addLink link s) as [err s1] eqn:E. simplify_eq.
      destruct (addLink_frame link s) as (_ & _ & _ & Hfw & _). rewrite E in Hfw.
      simpl in Hfw. congruence.
    + destruct (removeLink chanID s) as [err s1] eqn:E. simplify_eq.
      destruct (removeLink_frame chanID s) as (_ & _ & _ & _ & _ & _ & _ & Hfw).
      rewrite E in Hfw. simpl in Hfw. congruence.
    + simplify_eq. congruence.
    + simplify_eq. congruence.
  - destruct (quit s) eqn:Hq; [|done]. by left.
Qed.

(** ** Sends on the channels of the payments, over a whole run *)




Lemma extends_quietly_refl s s' : log s' = log s → extends_quietly s s'.
Proof. intros H. exists []. rewrite H, app_nil_r. split; [done|constructor]. Qed.

Lemma extends_quietly_trans s1 s2 s3 :
  extends_quietly s1 s2 → extends_quietly s2 s3 → extends_quietly s1 s3.
Proof.
  intros (l1 & H1 & Hq1) (l2 & H2 & Hq2). exists (l1 ++ l2).
  rewrite H2, H1, app_assoc. split; [done|]. by apply Forall_app.
Qed.

Lemma extends_quietly_emit ev s :
  match ev with EChanSendErr _ _ | EChanSendPreimage _ _ => False | _ => True end →
  extends_quietly s (emit ev s).
Proof. intros Hev. exists [ev]. split; [done|]. by repeat constructor. Qed.


Lemma removeLink_quiet chanID s : extends_quietly s (removeLink chanID s).2.
Proof.
  unfold removeLink. destruct (links s !! chanID) as [link|]; [|by apply extends_quietly_refl].
  simpl. destruct (list_find _ _) as [[i x]|]; simpl.
  - case_decide; exists [ELinkStop link]; split; try done; by repeat constructor.
  - exists [ELinkStop link]. split; [done|]. by repeat constructor.
Qed.

Lemma removeLinks_quiet entries s : extends_quietly s (removeLinks entries s).
Proof.
  revert s. induction entries as [|[chanID link] entries IH]; intros s; simpl.
  - by apply extends_quietly_refl.
  - destruct (links s !! chanID); [|apply IH].
    eapply extends_quietly_trans; [apply removeLink_quiet|apply IH].
Qed.


Lemma handleChanelClose_quiet req s : extends_quietly s (handleChanelClose req s).2.
Proof.
  unfold handleChanelClose. destruct (foldl _ _ _); simpl.
  - by apply extends_quietly_emit.
  - by apply extends_quietly_refl.
Qed.














(** ** The teardown of the loop *)

Lemma removeLink_stops chanID link s :
  links s !! chanID = Some link →
  log (removeLink chanID s).2 = log s ++ [ELinkStop link].
Proof.
  intros Hl. unfold removeLink. rewrite Hl. simpl.
  destruct (list_find _ _) as [[i x]|]; [|done]. simpl. by case_decide.
Qed.

Lemma removeLinks_consistent entries s :
  registry_inv s →
  NoDup entries.*1 →
  (∀ chanID link, (chanID, link) ∈ entries → links s !! chanID = Some link) →
  registry_inv (removeLinks entries s) ∧
  (∀ chanID, chanID ∈ entries.*1 → links (removeLinks entries s) !! chanID = None) ∧
  (∀ chanID, links s !! chanID = None → links (removeLinks entries s) !! chanID = None) ∧
  (∀ chanID link, (chanID, link) ∈ entries → ELinkStop link ∈ log (removeLinks entries s)).
Proof.
  revert s. induction entries as [|[k l] entries IH]; intros s Hinv Hnd Hin.
  - split_and!; [done| | done |].
    + intros chanID H. by apply elem_of_nil in H.
    + intros chanID link H. by apply elem_of_nil in H.
  - rewrite fmap_cons in Hnd. apply NoDup_cons in Hnd as [Hk Hnd].
    assert (links s !! k = Some l) as Hl by (apply Hin; left).
    cbn [removeLinks]. rewrite Hl.
    destruct Hinv as (I1 & I2 & I3). pose proof (I1 _ _ Hl) as Hc.
    pose proof (removeLink_registry (ChanID l) s (conj I1 (conj I2 I3))) as Hinv1.
    pose proof (removeLink_links (ChanID l) s) as Hlinks.
    pose proof (removeLink_stops (ChanID l) l s) as Hstop.
    rewrite Hc in *. rewrite Hl, Hc in Hlinks. specialize (Hstop Hl).
    destruct (IH (removeLink k s).2 Hinv1 Hnd) as (Hinv2 & Hgone & Hnone & Hlog).
    { intros k' l' Hin'. rewrite Hlinks. rewrite lookup_delete_ne.
      - apply Hin. by right.
      - intros ->. apply Hk. apply list_elem_of_fmap. by exists (k', l'). }
    split_and!; [done| | |].
    + intros chanID. rewrite fmap_cons. intros [->|Hin']%elem_of_cons.
      * apply Hnone. rewrite Hlinks. apply lookup_delete_eq.
      * by apply Hgone.
    + intros chanID Hn. apply Hnone. rewrite Hlinks.
      rewrite lookup_delete. by case_decide.
    + intros chanID link [Heq|Hin']%elem_of_cons.
      * injection Heq as -> ->.
        destruct (removeLinks_quiet entries (removeLink k s).2) as (l0 & -> & _).
        rewrite Hstop. apply elem_of_app. left. apply elem_of_app. right. constructor.
      * by eapply Hlog.
Qed.

(** With a consistent registry, the return of the loop leaves no link in
    either map and has stopped each link. *)
Lemma forwarderReturn_removes_links s :
  registry_inv s →
  links (forwarderReturn s) = ∅ ∧ linksIndex (forwarderReturn s) = ∅ ∧
  (∀ chanID link, links s !! chanID = Some link → ELinkStop link ∈ log (forwarderReturn s)).
Proof.
  intros Hinv. unfold forwarderReturn. simpl.
  destruct (removeLinks_consistent (map_to_list (links s)) s Hinv)
    as (Hinv' & Hgone & Hnone & Hlog).
  { apply NoDup_fst_map_to_list. }
  { intros k l. by apply elem_of_map_to_list. }
  assert (Hempty : links (removeLinks (map_to_list (links s)) s) = ∅).
  { apply map_eq. intros k. rewrite lookup_empty.
    destruct (links s !! k) as [l|] eqn:Hl; [|by apply Hnone].
    apply Hgone. apply list_elem_of_fmap. exists (k, l). split; [done|].
    by apply elem_of_map_to_list. }
  split_and!; [done| |].
  - apply map_eq. intros hop. rewrite lookup_empty.
    destruct (linksIndex _ !! hop) as [ls|] eqn:Hls; [|done]. exfalso.
    destruct Hinv' as (_ & _ & I3). destruct (I3 _ _ Hls) as (_ & Hnil & Hm).
    destruct ls as [|l ls]; [done|]. destruct (Hm l) as [_ Hl]; [left|].
    rewrite Hempty in Hl. by rewrite lookup_empty in Hl.
  - intros k l Hl. apply (Hlog k l). by apply elem_of_map_to_list.
Qed.

(** ** The slice trick of [removeLink] and [removePendingPayment] *)

Lemma swap_remove_lookup {A} (i j : nat) (l : list A) :
  i < length l → j < length l - 1 →
  swap_remove i l !! j = if decide (j = i) then last l else l !! j.
Proof.
  intros Hi Hj. unfold swap_remove.
  destruct (last l) as [x|] eqn:Hlast.
  - rewrite lookup_take_lt by done. case_decide as Hji.
    + subst j. by rewrite list_lookup_insert_eq.
    + by rewrite list_lookup_insert_ne.
  - apply last_None in Hlast. subst l. simpl in Hi. lia.
Qed.

(** X17.  "Delete without preserving order": for an index [i] of the
    slice, the result is one shorter; the entry at [i] is overwritten by
    the last entry and every other entry below the new length stays where
    it was; so the result holds the entries of the slice other than the one
    at [i], each as often as before, with the last one moved to [i]. *)
Theorem swap_remove_spec {A} (i : nat) (l : list A) (x : A) :
  l !! i = Some x →
  S (length (swap_remove i l)) = length l ∧
  (∀ j, j < length l - 1 → j ≠ i → swap_remove i l !! j = l !! j) ∧
  (i < length l - 1 → swap_remove i l !! i = last l) ∧
  (i = length l - 1 → swap_remove i l = take i l) ∧
  swap_remove i l ≡ₚ delete i l.
Proof.
  intros Hi. pose proof (lookup_lt_Some _ _ _ Hi) as Hlt. split_and!.
  - by eapply swap_remove_length.
  - intros j Hj Hne. rewrite swap_remove_lookup by done. by rewrite decide_False.
  - intros Hlt'. rewrite swap_remove_lookup by done. by rewrite decide_True.
  - intros ->. unfold swap_remove. rewrite last_lookup.
    replace (Init.Nat.pred (length l)) with (length l - 1) by lia.
    rewrite Hi. by rewrite list_insert_id.
  - by eapply swap_remove_Permutation.
Qed.

(** ** Lookups in the link registry *)

Lemma addLink_ok link s :
  StartErr link = None →
  addLink link s =
    (None,
     set_linksIndex
       (<[NewHopID (PeerPubKey link) :=
            default [] (linksIndex s !! NewHopID (PeerPubKey link)) ++ [link]]> (linksIndex s))
       (set_links (<[ChanID link := link]> (links s)) s)).
Proof. intros H. unfold addLink. by rewrite H. Qed.

(** X1.  Adding a link through the facade of a running switch, then
    looking it up.  When [link.Start()] fails, [AddLink] returns that error
    and the switch is as before.  Otherwise [AddLink] returns [nil] and the
    loop keeps running; [GetLink] and [GetLinks] then answer from the two
    maps without changing the switch: the channel id of the link gives the
    link, its peer gives the slice the peer had with the link appended, and
    every other channel id and every other peer gives what it gave
    before. *)
Theorem AddLink_then_lookup (link : ChannelLink) (s : Switch) (totals : forwardStats) :
  forwarder s = Parked totals →
  (∀ err, StartErr link = Some err → AddLink selComm link s = Some (Some err, s)) ∧
  (StartErr link = None →
   ∃ s', AddLink selComm link s = Some (None, s') ∧
     forwarder s' = Parked totals ∧
     (∀ chanID, GetLink selComm chanID s' = Some (getLink chanID s', s')) ∧
     (∀ hop, GetLinks selComm hop s' = Some (getLinks hop s', s')) ∧
     getLink (ChanID link) s' = inl link ∧
     getLinks (NewHopID (PeerPubKey link)) s'
       = inl (default [] (linksIndex s !! NewHopID (PeerPubKey link)) ++ [link]) ∧
     (∀ chanID, chanID ≠ ChanID link → getLink chanID s' = getLink chanID s) ∧
     (∀ hop, hop ≠ NewHopID (PeerPubKey link) → getLinks hop s' = getLinks hop s)).
Proof.
  intros Hf. split.
  - intros err He. unfold AddLink, submit. rewrite Hf. simpl. unfold addLink. by rewrite He.
  - intros He. eexists. split_and!.
    + unfold AddLink, submit. rewrite Hf. simpl. by rewrite (addLink_ok _ _ He).
    + done.
    + intros chanID. unfold GetLink, submit. simpl. by rewrite Hf.
    + intros hop. unfold GetLinks, submit. simpl. by rewrite Hf.
    + unfold getLink. simpl. by rewrite lookup_insert_eq.
    + unfold getLinks. simpl. by rewrite lookup_insert_eq.
    + intros chanID Hne. unfold getLink. simpl. by rewrite lookup_insert_ne.
    + intros hop Hne. unfold getLinks. simpl. by rewrite lookup_insert_ne.
Qed.

(** What [removeLink] does to the peer index, in a consistent registry:
    the slice of the peer of the link loses the entry of the link. *)
Lemma removeLink_linksIndex chanID link s :
  registry_inv s →
  links s !! chanID = Some link →
  ∃ ls i, linksIndex s !! NewHopID (PeerPubKey link) = Some ls ∧ ls !! i = Some link ∧
    linksIndex (removeLink chanID s).2 =
      if decide (swap_remove i ls = [])
      then delete (NewHopID (PeerPubKey link)) (linksIndex s)
      else <[NewHopID (PeerPubKey link) := swap_remove i ls]> (linksIndex s).
Proof.
  intros (I1 & I2 & I3) Hlink.
  pose proof (I1 _ _ Hlink) as Hc.
  destruct (I2 _ _ Hlink) as (ls & Hls & Hin).
  destruct (I3 _ _ Hls) as (Hnd & Hnil & Hm).
  unfold removeLink. rewrite Hlink. simpl. rewrite Hls. simpl.
  destruct (list_find _ ls) as [[i x]|] eqn:Hfind; last first.
  { apply list_find_None in Hfind. rewrite Forall_forall in Hfind.
    by destruct (Hfind link Hin). }
  apply list_find_Some in Hfind as (Hi & Hx & _).
  assert (x = link) as ->.
  { destruct (Hm x) as [_ Hx']; [by eapply list_elem_of_lookup_2|].
    rewrite Hx, Hc in Hx'. congruence. }
  exists ls, i. split_and!; [done..|].
  rewrite lookup_insert_eq. simpl.
  destruct (decide (length (swap_remove i ls) = 0)) as [Hlen|Hlen]; simpl.
  - apply nil_length_inv in Hlen. rewrite decide_True by done.
    by rewrite delete_insert_eq.
  - rewrite decide_False; [done|]. intros Hnil'. by rewrite Hnil' in Hlen.
Qed.

(** X2.  Removing a link through the facade of a running switch with a
    consistent registry.  For a channel id that is not registered,
    [RemoveLink] returns "channel link not found" and the switch is as
    before: no link is stopped.  For a registered one it returns [nil], the
    link is stopped (and that is all the switch does to its collaborators),
    a lookup of the channel id now fails, the link is in the slice of no
    peer, and every other link is found where it was: by its channel id
    and in the slice of its peer. *)
Theorem RemoveLink_then_lookup (chanID : ChannelID) (s : Switch) (totals : forwardStats) :
  registry_inv s →
  forwarder s = Parked totals →
  (links s !! chanID = None →
   RemoveLink selComm chanID s = Some (Some ErrChannelLinkNotFound, s)) ∧
  (∀ link, links s !! chanID = Some link →
   ∃ s', RemoveLink selComm chanID s = Some (None, s') ∧
     log s' = log s ++ [ELinkStop link] ∧
     getLink chanID s' = inr ErrChannelLinkNotFound ∧
     (∀ c, c ≠ chanID → getLink c s' = getLink c s) ∧
     (∀ hop ls, getLinks hop s' = inl ls → link ∉ ls) ∧
     (∀ hop l, l ≠ link →
        (∃ ls, getLinks hop s' = inl ls ∧ l ∈ ls) ↔ (∃ ls, getLinks hop s = inl ls ∧ l ∈ ls))).
Proof.
  intros Hinv Hf. split.
  - intros Hn. unfold RemoveLink, submit. rewrite Hf. simpl. unfold removeLink. by rewrite Hn.
  - intros link Hlink.
    pose proof (removeLink_registry chanID s Hinv) as Hinv'.
    pose proof (removeLink_links chanID s) as Hlinks. rewrite Hlink in Hlinks.
    pose proof (removeLink_stops chanID link s Hlink) as Hlog.
    pose proof (removeLink_frame chanID s) as (_ & _ & _ & _ & _ & _ & _ & Hfw).
    destruct (removeLink_linksIndex chanID link s Hinv Hlink) as (ls & i & Hls & Hi & Hidx).
    assert (Hc : ChanID link = chanID) by (destruct Hinv as (I1 & _); by apply I1).
    assert (Hnd : NoDup ls).
    { destruct Hinv as (_ & _ & I3). by destruct (I3 _ _ Hls). }
    rewrite Hc in Hlinks.
    assert (Herr : (removeLink chanID s).1 = None) by (unfold removeLink; by rewrite Hlink).
    destruct (removeLink chanID s) as [err s'] eqn:Hrm. simpl in *. subst err.
    exists s'. split_and!.
    + unfold RemoveLink, submit. rewrite Hf. simpl. by rewrite Hrm.
    + done.
    + unfold getLink. by rewrite Hlinks, lookup_delete_eq.
    + intros c Hne. unfold getLink. by rewrite Hlinks, lookup_delete_ne.
    + intros hop ls'. unfold getLinks.
      destruct (linksIndex s' !! hop) as [ls0|] eqn:Hls0; [|done]. intros [= <-] Hin.
      destruct Hinv' as (_ & _ & I3'). destruct (I3' _ _ Hls0) as (_ & _ & Hm).
      destruct (Hm link Hin) as [_ Hl]. rewrite Hlinks, Hc, lookup_delete_eq in Hl. done.
    + intros hop l Hne. unfold getLinks. rewrite Hidx.
      destruct (decide (hop = NewHopID (PeerPubKey link))) as [->|Hhop].
      * rewrite Hls. case_decide as Hnil.
        -- rewrite lookup_delete_eq. split; [by intros (? & [=] & _)|].
           intros (ls0 & [= <-] & Hin). exfalso.
           assert (l ∈ swap_remove i ls) as Hin' by (by apply (swap_remove_elem_of i ls link)).
           rewrite Hnil in Hin'. by apply elem_of_nil in Hin'.
        -- rewrite lookup_insert_eq. split.
           ++ intros (ls0 & [= <-] & Hin). exists ls. split; [done|].
              by apply (swap_remove_elem_of i ls link) in Hin as [? _].
           ++ intros (ls0 & [= <-] & Hin). eexists. split; [done|].
              by apply (swap_remove_elem_of i ls link).
      * case_decide.
        -- by rewrite lookup_delete_ne.
        -- by rewrite lookup_insert_ne.
Qed.

(** X3.  [removeLink] undoes [addLink]: in a consistent registry, adding a
    link under a channel id that is not registered and removing that
    channel id again gives the switch as it was, with the link stopped. *)
Theorem removeLink_undoes_addLink (link : ChannelLink) (s : Switch) :
  registry_inv s →
  links s !! ChanID link = None →
  StartErr link = None →
  removeLink (ChanID link) (addLink link s).2 = (None, emit (ELinkStop link) s).
Proof.
  intros (I1 & I2 & I3) Hfresh Hstart.
  rewrite (addLink_ok _ _ Hstart). unfold removeLink. simpl.
  rewrite lookup_insert_eq. simpl. rewrite lookup_insert_eq. simpl.
  set (hop := NewHopID (PeerPubKey link)).
  set (old := default [] (linksIndex s !! hop)).
  assert (Hold : list_find (λ l, ChanID l = ChanID link) old = None).
  { apply list_find_None, Forall_forall. intros l Hl Heq. unfold old in Hl.
    destruct (linksIndex s !! hop) as [ls|] eqn:Hls; simpl in Hl; [|by apply elem_of_nil in Hl].
    destruct (I3 _ _ Hls) as (_ & _ & Hm). destruct (Hm l Hl) as [_ Hl'].
    rewrite Heq in Hl'. congruence. }
  rewrite (list_find_app_r _ _ _ Hold). simpl. rewrite decide_True by done. simpl.
  rewrite swap_remove_last. rewrite lookup_insert_eq. simpl.
  rewrite delete_insert_eq, (delete_id (links s)) by done.
  f_equal. destruct (decide (length old = 0)) as [Hlen|Hlen]; simpl.
  - assert (linksIndex s !! hop = None) as Hn.
    { unfold old in Hlen. destruct (linksIndex s !! hop) as [ls|] eqn:Hls; [|done].
      destruct (I3 _ _ Hls) as (_ & Hnil & _). simpl in Hlen.
      by apply nil_length_inv in Hlen. }
    rewrite !delete_insert_eq, delete_id by done. done.
  - assert (linksIndex s !! hop = Some old) as Hs.
    { unfold old in *. destruct (linksIndex s !! hop) as [ls|]; [done|]. by simpl in Hlen. }
    rewrite insert_insert_eq, insert_id by done. done.
Qed.

(** ** The link registry over a whole run *)

Lemma swap_remove_elem_of_other {A} (i : nat) (l : list A) (x y : A) :
  l !! i = Some x → y ∈ l → y ≠ x → y ∈ swap_remove i l.
Proof.
  intros Hi Hy Hne. rewrite (swap_remove_Permutation i l x Hi).
  apply list_elem_of_lookup in Hy as [j Hj].
  assert (j ≠ i) as Hji by (intros ->; congruence).
  rewrite delete_take_drop. apply elem_of_app. destruct (decide (j < i)) as [Hlt|Hge].
  - left. apply elem_of_take. eauto.
  - right. apply list_elem_of_lookup. exists (j - S i). rewrite lookup_drop.
    by replace (S i + (j - S i)) with j by lia.
Qed.

Lemma links_indexed_keep s s' : keeps_registry s s' → links_indexed s → links_indexed s'.
Proof. intros [Hl Hi] Hinv c l. rewrite Hl, Hi. apply Hinv. Qed.

Lemma addLink_indexed link s : links_indexed s → links_indexed (addLink link s).2.
Proof.
  intros Hinv. unfold addLink. destruct (StartErr link); [done|].
  unfold links_indexed. simpl. set (hop := NewHopID (PeerPubKey link)).
  intros c l. rewrite lookup_insert. case_decide as Hc.
  - intros [= <-]. split; [done|]. fold hop. rewrite lookup_insert_eq.
    eexists; split; [done|]. apply elem_of_app. right. constructor.
  - intros Hl. destruct (Hinv c l Hl) as (Hcl & ls & Hls & Hin). split; [done|].
    destruct (decide (NewHopID (PeerPubKey l) = hop)) as [Heq|Hneq].
    + rewrite Heq, lookup_insert_eq. eexists; split; [done|].
      rewrite Heq in Hls. rewrite Hls. simpl. apply elem_of_app. by left.
    + rewrite lookup_insert_ne by done. eauto.
Qed.

Lemma removeLink_indexed chanID s : links_indexed s → links_indexed (removeLink chanID s).2.
Proof.
  intros Hinv. unfold removeLink.
  destruct (links s !! chanID) as [link|] eqn:Hlink; [|done].
  destruct (Hinv _ _ Hlink) as (Hc & ls & Hls & Hin).
  unfold links_indexed. simpl. rewrite Hls. simpl.
  destruct (list_find _ ls) as [[i x]|] eqn:Hfind; last first.
  { apply list_find_None in Hfind. rewrite Forall_forall in Hfind.
    by destruct (Hfind link Hin). }
  apply list_find_Some in Hfind as (Hi & Hx & _).
  rewrite lookup_insert_eq. simpl.
  set (hop := NewHopID (PeerPubKey link)) in *.
  assert (Hkeep : ∀ c l, delete (ChanID link) (links s) !! c = Some l →
            links s !! c = Some l ∧ l ∈ swap_remove i ls ∨
            links s !! c = Some l ∧ NewHopID (PeerPubKey l) ≠ hop).
  { intros c l. rewrite lookup_delete. case_decide as Hd; [done|]. intros Hl.
    destruct (decide (NewHopID (PeerPubKey l) = hop)) as [Heq|Hneq]; [left|by right].
    split; [done|]. destruct (Hinv c l Hl) as (Hcl & ls0 & Hls0 & Hl0).
    rewrite Heq, Hls in Hls0. injection Hls0 as <-.
    eapply swap_remove_elem_of_other; [done..|]. intros ->. congruence. }
  case_decide as Hlen; simpl.
  - apply nil_length_inv in Hlen.
    intros c l [[Hl Hl']|[Hl Hneq]]%Hkeep.
    + rewrite Hlen in Hl'. by apply elem_of_nil in Hl'.
    + destruct (Hinv c l Hl) as (Hcl & ls0 & Hls0 & Hl0). split; [done|].
      rewrite lookup_delete_ne, lookup_insert_ne by done. eauto.
  - intros c l [[Hl Hl']|[Hl Hneq]]%Hkeep;
      destruct (Hinv c l Hl) as (Hcl & ls0 & Hls0 & Hl0); (split; [done|]).
    + destruct (decide (NewHopID (PeerPubKey l) = hop)) as [Heq|Hneq].
      * rewrite Heq, lookup_insert_eq. eauto.
      * rewrite lookup_insert_ne by done. eauto.
    + rewrite lookup_insert_ne by done. eauto.
Qed.

Lemma removeLinks_indexed entries s : links_indexed s → links_indexed (removeLinks entries s).
Proof.
  revert s. induction entries as [|[k l] entries IH]; intros s Hinv; [done|].
  simpl. destruct (links s !! k); [|by apply IH]. by apply IH, removeLink_indexed.
Qed.

Lemma forwarderReturn_indexed s : links_indexed s → links_indexed (forwarderReturn s).
Proof.
  intros Hinv. unfold forwarderReturn.
  by apply (removeLinks_indexed (map_to_list (links s)) s) in Hinv.
Qed.

Lemma htlcForwarder_indexed c totals s r s' :
  links_indexed s → htlcForwarder c totals s = Some (r, s') → links_indexed s'.
Proof.
  intros Hinv H. destruct c as [req | pkt | | cmd |]; simpl in H.
  - destruct (handleChanelClose_frame req s) as (_ & _ & Hk & _).
    destruct (handleChanelClose req s) as [errs s1]. simplify_eq.
    by eapply links_indexed_keep.
  - assert (Hd : ∀ h a err s1, dispatch h a pkt s = Some (err, s1) → links_indexed s1).
    { intros h a err s1. unfold dispatch. destruct (findPayment a h s) as [payment|].
      - intros Hd. destruct (handleLocalDispatch_frame _ _ _ _ _ Hd) as (_ & Hk & _).
        by eapply links_indexed_keep.
      - intros [= Hd]. destruct (handlePacketForward_frame pkt s) as (_ & _ & Hk & _).
        rewrite Hd in Hk. by eapply links_indexed_keep. }
    destruct (htlc pkt).
    + destruct (dispatch _ _ _ _) as [[err s1]|] eqn:E; [|done]. simpl in H. simplify_eq.
      by eapply Hd.
    + destruct (dispatch _ _ _ _) as [[err s1]|] eqn:E; [|done]. simpl in H. simplify_eq.
      by eapply Hd.
    + destruct (dispatch _ _ _ _) as [[err s1]|] eqn:E; [|done]. simpl in H. simplify_eq.
      by eapply Hd.
    + simplify_eq. by apply forwarderReturn_indexed.
  - by simplify_eq.
  - destruct cmd as [link | chanID | chanID | peer].
    + pose proof (addLink_indexed link s Hinv) as Hi.
      destruct (addLink link s) as [err s1]. by simplify_eq.
    + pose proof (removeLink_indexed chanID s Hinv) as Hi.
      destruct (removeLink chanID s) as [err s1]. by simplify_eq.
    + by simplify_eq.
    + by simplify_eq.
  - destruct (quit s); [|done]. simplify_eq. by apply forwarderReturn_indexed.
Qed.

Lemma submit_indexed sel c s r s' :
  links_indexed s → submit sel c s = Some (r, s') → links_indexed s'.
Proof.
  intros Hinv [(_ & _ & -> & _)|(_ & totals & r' & _ & H & _)]%submit_cases; [done|].
  by eapply htlcForwarder_indexed.
Qed.

Lemma Start_indexed s : links_indexed s → links_indexed (Start s).
Proof.
  intros Hinv. unfold Start. case_decide; [|done]. cbv zeta.
  set (s1 := emit EGoForwarder (set_started 1 s)).
  destruct (quit s1); [|done]. by apply forwarderReturn_indexed.
Qed.

Lemma Stop_indexed s : links_indexed s → links_indexed (Stop s).
Proof.
  intros Hinv. unfold Stop. case_decide; [|done]. cbv zeta.
  set (s1 := emit ECloseQuit (set_quit true (set_shutdown 1 s))).
  destruct (forwarder s1) as [|totals|]; [done| |done].
  change (default s1 (snd <$> htlcForwarder quitClosed totals s1)) with (forwarderReturn s1).
  by apply forwarderReturn_indexed.
Qed.

Lemma exec_indexed o s s' : links_indexed s → exec o s = Some s' → links_indexed s'.
Proof.
  intros Hinv H. apply exec_cases in H
    as [-> | [-> | [(sel & c & r & H) | [(totals & Hf & H) | [(n & u & pc & H) |
       [(sel & c & r & s1 & a & h & H & ->) | [(ch & e & buf & Hch & ->) |
       [(ch & p & buf & Hch & ->) | [_ ->]]]]]]]]].
  - by apply Start_indexed.
  - by apply Stop_indexed.
  - by eapply submit_indexed.
  - by eapply htlcForwarder_indexed.
  - destruct (SendHTLC_enter_frame _ _ _ _ _ H) as (_ & Hk & _). by eapply links_indexed_keep.
  - pose proof (submit_indexed _ _ _ _ _ Hinv H) as Hinv1.
    destruct (removePendingPayment_frame a h s1) as (_ & _ & _ & _ & Hl & Hi & _).
    by eapply links_indexed_keep.
  - done.
  - done.
  - done.
Qed.

Lemma reachable_indexed s : reachable s → links_indexed s.
Proof.
  induction 1 as [|s o s' Hs IH H].
  - intros c l. simpl. by rewrite lookup_empty.
  - by eapply exec_indexed.
Qed.

(** X4.  In every state of the switch, whatever was added (links that
    report a channel id already registered among them), removed or torn
    down: a link that [getLink] finds under a channel id reports that
    channel id, and [getLinks] for its peer returns a slice that holds
    it. *)
Theorem registered_link_is_indexed (s : Switch) (chanID : ChannelID) (link : ChannelLink) :
  reachable s →
  getLink chanID s = inl link →
  ChanID link = chanID ∧
  ∃ ls, getLinks (NewHopID (PeerPubKey link)) s = inl ls ∧ link ∈ ls.
Proof.
  intros Hr. unfold getLink, getLinks.
  destruct (links s !! chanID) as [l|] eqn:Hl; [|done]. intros [= ->].
  destruct (reachable_indexed s Hr _ _ Hl) as (Hc & ls & Hls & Hin).
  split; [done|]. exists ls. by rewrite Hls.
Qed.

(** ** Closing a channel *)

(** The range of [handleChanelClose] over a map whose links are stored
    under their own channel ids ends with the link stored under the
    channel id looked for. *)
Lemma last_match_lookup (entries : list (ChannelID * ChannelLink)) (chanID : ChannelID)
    (acc : option ChannelLink) :
  NoDup entries.*1 →
  (∀ k l, (k, l) ∈ entries → ChanID l = k) →
  foldl (λ link l, if decide (ChanID l = chanID) then Some l else link) acc entries.*2 =
  match (list_to_map entries : gmap ChannelID ChannelLink) !! chanID with
  | Some l => Some l
  | None => acc
  end.
Proof.
  revert acc. induction entries as [|[k l] entries IH]; intros acc Hnd Hkey; [done|].
  rewrite fmap_cons in Hnd. apply NoDup_cons in Hnd as [Hk Hnd].
  assert (ChanID l = k) as Hl by (apply Hkey; left).
  simpl. rewrite IH; [|done|intros k' l' Hin; apply Hkey; by right].
  rewrite lookup_insert. destruct (decide (k = chanID)) as [Hkc|Hkc].
  - subst k. simpl in Hk. rewrite <- Hkc, not_elem_of_list_to_map_1 by done.
    by rewrite decide_True.
  - destruct (_ !! chanID); [done|]. rewrite decide_False; [done|]. congruence.
Qed.

Lemma handleChanelClose_lookup req s :
  links_indexed s →
  handleChanelClose req s =
    match links s !! NewChanIDFromOutPoint (ChanPoint req) with
    | Some link => ([], emit (ELocalChannelClose (PeerPubKey link) req) s)
    | None => ([ErrChannelNotFound (NewChanIDFromOutPoint (ChanPoint req))], s)
    end.
Proof.
  intros Hinv. unfold handleChanelClose. rewrite last_match_lookup.
  - rewrite list_to_map_to_list. by destruct (links s !! _).
  - apply NoDup_fst_map_to_list.
  - intros k l Hin%elem_of_map_to_list. by destruct (Hinv _ _ Hin).
Qed.

(** X5.  [CloseLink] on a running switch, in any state of a run.  When the
    channel id of the outpoint is registered, the local close is started
    with the public key of the peer of that link and the request, once,
    nothing is sent on the error channel and the switch is otherwise as
    before; when it is not, "channel not found" is what the error channel
    holds, no close is started and the switch is as before.  In both cases
    the update channel is left open. *)
Theorem CloseLink_outcome (chanPoint : OutPoint) (closeType : ChannelCloseType)
    (s : Switch) (totals : forwardStats) :
  reachable s →
  forwarder s = Parked totals →
  let req := {| CloseType := closeType; ChanPoint := chanPoint |} in
  let chanID := NewChanIDFromOutPoint chanPoint in
  (∀ link, getLink chanID s = inl link →
     CloseLink selComm chanPoint closeType s =
       Some ({| updateChan_closed := false; errChan_buf := [] |},
             emit (ELocalChannelClose (PeerPubKey link) req) s)) ∧
  (getLink chanID s = inr ErrChannelLinkNotFound →
     CloseLink selComm chanPoint closeType s =
       Some ({| updateChan_closed := false; errChan_buf := [ErrChannelNotFound chanID] |}, s)).
Proof.
  intros Hr Hf req chanID. pose proof (reachable_indexed s Hr) as Hinv.
  unfold CloseLink, submit, getLink. rewrite Hf. simpl.
  rewrite (handleChanelClose_lookup _ s Hinv). simpl. fold chanID.
  destruct (links s !! chanID) as [l|]; split; try done. by intros link [= ->].
Qed.

(** ** Shutdown of a running switch *)

Lemma removeLinks_links entries s :
  links_indexed s →
  NoDup entries.*1 →
  (∀ chanID link, (chanID, link) ∈ entries → links s !! chanID = Some link) →
  log (removeLinks entries s) = log s ++ (ELinkStop <$> entries.*2) ∧
  (∀ chanID, chanID ∈ entries.*1 → links (removeLinks entries s) !! chanID = None) ∧
  (∀ chanID, links s !! chanID = None → links (removeLinks entries s) !! chanID = None).
Proof.
  revert s. induction entries as [|[k l] entries IH]; intros s Hinv Hnd Hin.
  - split_and!; [by rewrite app_nil_r| |done].
    intros chanID H. by apply elem_of_nil in H.
  - rewrite fmap_cons in Hnd. apply NoDup_cons in Hnd as [Hk Hnd].
    assert (links s !! k = Some l) as Hl by (apply Hin; left).
    cbn [removeLinks]. rewrite Hl.
    destruct (Hinv _ _ Hl) as [Hc _].
    pose proof (removeLink_indexed (ChanID l) s Hinv) as Hinv1.
    pose proof (removeLink_links (ChanID l) s) as Hlinks.
    pose proof (removeLink_stops (ChanID l) l s) as Hstop.
    rewrite Hc in *. rewrite Hl, Hc in Hlinks. specialize (Hstop Hl).
    destruct (IH (removeLink k s).2 Hinv1 Hnd) as (Hlog & Hgone & Hnone).
    { intros k' l' Hin'. rewrite Hlinks. rewrite lookup_delete_ne.
      - apply Hin. by right.
      - intros ->. apply Hk. apply list_elem_of_fmap. by exists (k', l'). }
    split_and!.
    + rewrite Hlog, Hstop. rewrite !fmap_cons. simpl. by rewrite <- app_assoc.
    + intros chanID. rewrite fmap_cons. intros [->|Hin']%elem_of_cons.
      * apply Hnone. rewrite Hlinks. apply lookup_delete_eq.
      * by apply Hgone.
    + intros chanID Hn. apply Hnone. rewrite Hlinks.
      rewrite lookup_delete. by case_decide.
Qed.

(** X6.  [Stop] on a running switch, in any state of a run: the switch was
    not shut down before; [Stop] sets [shutdown], closes [quit] once, and
    waits for the loop, which returns after it has removed every link:
    what the switch did is the close of [quit] followed by one stop per
    registered link, and nothing else; [links] is empty afterwards (and so
    is the peer index when the registry was consistent).  The pending
    payments, their channels and the circuit map are as before. *)
Theorem Stop_tears_down (s : Switch) (totals : forwardStats) :
  reachable s →
  forwarder s = Parked totals →
  shutdown s = 0%Z ∧ quit s = false ∧
  shutdown (Stop s) = 1%Z ∧ quit (Stop s) = true ∧ forwarder (Stop s) = Exited ∧
  log (Stop s) = log s ++ ECloseQuit :: (ELinkStop <$> (map_to_list (links s)).*2) ∧
  links (Stop s) = ∅ ∧
  (registry_inv s → linksIndex (Stop s) = ∅) ∧
  keeps_payments s (Stop s) ∧
  circuits (Stop s) = circuits s.
Proof.
  intros Hr Hf.
  destruct (reachable_lifecycle_inv s Hr) as [Hsd Hq].
  assert (quit s = false) as Hquit.
  { destruct (quit s); [|done]. by destruct (Hq eq_refl totals). }
  assert (shutdown s = 0%Z) as Hshut.
  { destruct (decide (shutdown s = 0%Z)) as [|Hne]; [done|]. apply Hsd in Hne. congruence. }
  split; [done|]. split; [done|].
  unfold Stop. rewrite decide_True by done. cbv zeta.
  set (s1 := emit ECloseQuit (set_quit true (set_shutdown 1 s))).
  change (forwarder s1) with (forwarder s). rewrite Hf.
  change (default s1 (snd <$> htlcForwarder quitClosed totals s1)) with (forwarderReturn s1).
  destruct (forwarderReturn_frame s1) as ((_ & Hsh & Hqt) & Hpay & Hcirc & Hfw).
  assert (links_indexed s1) as Hinv1 by (by apply (reachable_indexed s Hr)).
  destruct (removeLinks_links (map_to_list (links s1)) s1 Hinv1)
    as (Hlog & Hgone & Hnone).
  { apply NoDup_fst_map_to_list. }
  { intros k l. by apply elem_of_map_to_list. }
  split_and!; try done.
  - change (log (forwarderReturn s1)) with (log (removeLinks (map_to_list (links s1)) s1)).
    rewrite Hlog. unfold s1. simpl. by rewrite <- app_assoc.
  - change (links (forwarderReturn s1)) with (links (removeLinks (map_to_list (links s1)) s1)).
    apply map_eq. intros k. rewrite lookup_empty.
    destruct (links s1 !! k) as [l|] eqn:Hl; [|by apply Hnone].
    apply Hgone. apply list_elem_of_fmap. exists (k, l). split; [done|].
    by apply elem_of_map_to_list.
  - intros Hinv. by destruct (forwarderReturn_removes_links s1 Hinv) as (_ & ? & _).
Qed.

(** ** Counting and finding pending payments *)

Lemma numPendingPayments_sum s :
  numPendingPayments s = sum_list_with (λ e, length e.2) (map_to_list (pendingPayments s)).
Proof.
  unfold numPendingPayments. generalize (map_to_list (pendingPayments s)). intros l.
  induction l as [|e l IH]; [done|].
  rewrite fmap_cons. cbn [foldr sum_list_with]. rewrite IH. lia.
Qed.

Lemma numPendingPayments_split s hash :
  numPendingPayments s =
  length (default [] (pendingPayments s !! hash))
  + numPendingPayments (set_pendingPayments (delete hash (pendingPayments s)) s).
Proof.
  rewrite !numPendingPayments_sum. simpl.
  destruct (pendingPayments s !! hash) as [ps|] eqn:Hps; simpl.
  - by rewrite <- (map_to_list_delete _ _ _ Hps).
  - by rewrite delete_id.
Qed.

Lemma numPendingPayments_insert s hash ps :
  numPendingPayments (set_pendingPayments (<[hash := ps]> (pendingPayments s)) s)
  + length (default [] (pendingPayments s !! hash))
  = numPendingPayments s + length ps.
Proof.
  rewrite (numPendingPayments_split s hash).
  rewrite (numPendingPayments_split (set_pendingPayments _ s) hash). simpl.
  rewrite lookup_insert_eq, delete_insert_eq. simpl. lia.
Qed.

Lemma numPendingPayments_ext s s' :
  pendingPayments s' = pendingPayments s → numPendingPayments s' = numPendingPayments s.
Proof. unfold numPendingPayments. by intros ->. Qed.

Lemma SendHTLC_enter_count nextNode update s pc s' :
  SendHTLC_enter nextNode update s = Some (pc, s') →
  numPendingPayments s' = S (numPendingPayments s).
Proof.
  destruct update as [h a| | |]; try done. intros H.
  destruct (SendHTLC_enter_spec nextNode h a s) as (Hs' & _).
  rewrite Hs' in H. injection H as _ <-.
  set (payment := {| pp_paymentHash := h |}).
  pose proof (numPendingPayments_insert s h
                (default [] (pendingPayments s !! h) ++ [payment])) as Hn.
  rewrite length_app in Hn. simpl in Hn.
  rewrite !numPendingPayments_sum in *. simpl in *. lia.
Qed.

Lemma removePendingPayment_count amount hash s payment :
  findPayment amount hash s = inl payment →
  (removePendingPayment amount hash s).1 = None ∧
  S (numPendingPayments (removePendingPayment amount hash s).2) = numPendingPayments s.
Proof.
  intros Hfind.
  destruct (findPayment_pending _ _ _ _ Hfind) as (ps & i & Hps & Hfound).
  pose proof (removePendingPayment_pendingPayments amount hash s) as Hpp.
  rewrite Hps in Hpp. simpl in Hpp. rewrite Hfound in Hpp.
  apply list_find_Some in Hfound as Hi. destruct Hi as (Hi & _).
  pose proof (swap_remove_length i ps payment Hi) as Hlen.
  split.
  - unfold removePendingPayment. rewrite Hps. simpl. by rewrite Hfound.
  - rewrite (numPendingPayments_split s hash), Hps. simpl.
    rewrite (numPendingPayments_split (removePendingPayment amount hash s).2 hash).
    rewrite !numPendingPayments_sum. simpl. rewrite Hpp.
    case_decide as Hnil.
    + rewrite lookup_delete_eq. simpl. rewrite Hnil in Hlen. simpl in Hlen.
      rewrite (delete_id (delete _ _)) by apply lookup_delete_eq. lia.
    + rewrite lookup_insert_eq, delete_insert_eq. simpl. lia.
Qed.

(** X7.  [numPendingPayments] counts the records of the table: none in a
    new switch; one more after [SendHTLC] has put its payment in; one less
    after a [removePendingPayment] that finds a record to remove, and the
    same when it finds none (it then returns its error and the switch is as
    before). *)
Theorem numPendingPayments_counts (s : Switch) :
  numPendingPayments New = 0 ∧
  (∀ nextNode h a pc s',
     SendHTLC_enter nextNode (UpdateAddHTLC h a) s = Some (pc, s') →
     numPendingPayments s' = S (numPendingPayments s)) ∧
  (∀ amount hash payment,
     findPayment amount hash s = inl payment →
     (removePendingPayment amount hash s).1 = None ∧
     S (numPendingPayments (removePendingPayment amount hash s).2) = numPendingPayments s) ∧
  (∀ amount hash e,
     findPayment amount hash s = inr e →
     removePendingPayment amount hash s = (Some e, s)).
Proof.
  split_and!.
  - done.
  - intros nextNode h a pc s'. apply SendHTLC_enter_count.
  - intros amount hash payment. apply removePendingPayment_count.
  - intros amount hash e. unfold findPayment, removePendingPayment.
    destruct (list_find _ _) as [[i x]|]; [done|]. by intros [= <-].
Qed.

Lemma removePendingPayment_found amount hash s payment :
  pending_inv s →
  findPayment amount hash s = inl payment →
  ∀ p, pending p (removePendingPayment amount hash s).2 ↔ pending p s ∧ p ≠ payment.
Proof.
  intros (I1 & _ & _) Hfind p.
  destruct (findPayment_pending _ _ _ _ Hfind) as (ps & i & Hps & Hfound).
  pose proof (removePendingPayment_pendingPayments amount hash s) as Hpp.
  rewrite Hps in Hpp. simpl in Hpp. rewrite Hfound in Hpp.
  apply list_find_Some in Hfound as (Hi & _).
  destruct (I1 _ _ Hps) as (Hnd & _ & Hh).
  pose proof (swap_remove_elem_of i ps payment p Hnd Hi) as Hin.
  assert (Hother : ∀ h, h ≠ hash →
            pendingPayments (removePendingPayment amount hash s).2 !! h
            = pendingPayments s !! h).
  { intros h Hne. rewrite Hpp. case_decide.
    - by rewrite lookup_delete_ne.
    - by rewrite lookup_insert_ne. }
  assert (Hsame : p ∈ swap_remove i ps ↔
            ∃ ps', pendingPayments (removePendingPayment amount hash s).2 !! hash = Some ps'
                   ∧ p ∈ ps').
  { rewrite Hpp. case_decide as Hnil.
    - rewrite lookup_delete_eq, Hnil. split; [by intros ?%elem_of_nil|by intros (? & [=] & _)].
    - rewrite lookup_insert_eq. split; [by eauto|by intros (? & [= <-] & ?)]. }
  split.
  - intros (h & ps' & Hps' & Hp). destruct (decide (h = hash)) as [->|Hne].
    + assert (p ∈ swap_remove i ps) as [Hp' Hne]%Hin by (apply Hsame; eauto).
      split; [by exists hash, ps|done].
    + rewrite Hother in Hps' by done. split; [by exists h, ps'|].
      intros ->. apply Hne. destruct (I1 _ _ Hps') as (_ & _ & Hh').
      rewrite <- (Hh' _ Hp). apply Hh. by eapply list_elem_of_lookup_2.
  - intros [(h & ps' & Hps' & Hp) Hne]. destruct (decide (h = hash)) as [->|Hneh].
    + rewrite Hps in Hps'. injection Hps' as <-.
      assert (p ∈ swap_remove i ps) as (ps' & Hps' & Hp')%Hsame by (by apply Hin).
      by exists hash, ps'.
    + exists h, ps'. by rewrite Hother.
Qed.

(** X8.  [findPayment] and [removePendingPayment] agree, in every state of
    a run.  When [findPayment] returns a record for an amount and a hash,
    the record has that hash and that amount and is pending, and
    [removePendingPayment] for the same amount and hash returns [nil] and
    takes exactly that record out of the table: it is pending no more, and
    every other record is pending after the call if and only if it was
    before.  When [findPayment] returns its error, no pending record has
    that hash and that amount, and [removePendingPayment] returns the same
    error with the switch as before. *)
Theorem removePendingPayment_removes_found (amount : Amount) (hash : PaymentHash)
    (s : Switch) :
  reachable s →
  (∀ payment, findPayment amount hash s = inl payment →
     pp_paymentHash payment = hash ∧ pp_amount payment = amount ∧ pending payment s ∧
     (removePendingPayment amount hash s).1 = None ∧
     ¬ pending payment (removePendingPayment amount hash s).2 ∧
     (∀ p, p ≠ payment →
        pending p (removePendingPayment amount hash s).2 ↔ pending p s)) ∧
  (∀ e, findPayment amount hash s = inr e →
     e = ErrPendingPayment hash amount ∧
     removePendingPayment amount hash s = (Some e, s) ∧
     (∀ p, pending p s → ¬ (pp_paymentHash p = hash ∧ pp_amount p = amount))).
Proof.
  intros Hr. pose proof (reachable_pending_inv s Hr) as Hinv. split.
  - intros payment Hfind.
    pose proof (removePendingPayment_found _ _ _ _ Hinv Hfind) as Hiff.
    destruct (findPayment_pending _ _ _ _ Hfind) as (ps & i & Hps & Hfound).
    pose proof Hfound as Hi. apply list_find_Some in Hi as (Hi & Ha & _).
    destruct Hinv as (I1 & _). destruct (I1 _ _ Hps) as (_ & _ & Hh).
    assert (payment ∈ ps) as Hin by (by eapply list_elem_of_lookup_2).
    split_and!.
    + by apply Hh.
    + done.
    + by exists hash, ps.
    + unfold removePendingPayment. rewrite Hps. simpl. by rewrite Hfound.
    + intros [_ Hne]%Hiff. done.
    + intros p Hne. rewrite Hiff. tauto.
  - intros e. unfold findPayment, removePendingPayment.
    destruct (list_find _ _) as [[i x]|] eqn:Hfind; [done|]. intros [= <-].
    split_and!; [done..|].
    intros p (h & ps & Hps & Hin) [Hh Ha].
    destruct Hinv as (I1 & _). destruct (I1 _ _ Hps) as (_ & _ & Hkey).
    rewrite (Hkey _ Hin) in Hh. subst h. rewrite Hps in Hfind. simpl in Hfind.
    apply list_find_None in Hfind. rewrite Forall_forall in Hfind. by apply (Hfind p).
Qed.


(** ** The choice of the outgoing link *)

(** Both handlers take the first link of the slice of the peer that has
    the bandwidth for the amount. *)
Lemma findDestination_Some amount ls destination :
  findDestination amount ls = Some destination ↔
  ∃ i, ls !! i = Some destination ∧ (amount ≤ Bandwidth destination)%Z ∧
       ∀ j l, j < i → ls !! j = Some l → (Bandwidth l < amount)%Z.
Proof.
  unfold findDestination. induction ls as [|l0 ls IH]; simpl.
  - split; [done|]. by intros (i & Hi & _).
  - case_bool_decide as Hb.
    + split.
      * intros [= <-]. exists 0. split_and!; [done..|]. intros j l Hj. lia.
      * intros (i & Hi & Ha & Hlow). destruct i as [|i]; [by injection Hi as ->|].
        specialize (Hlow 0 l0). simpl in Hlow. specialize (Hlow ltac:(lia) eq_refl). lia.
    + rewrite IH. split.
      * intros (i & Hi & Ha & Hlow). exists (S i). split_and!; [done..|].
        intros [|j] l Hj Hl; simpl in Hl; [injection Hl as <-; lia|].
        apply (Hlow j); [lia|done].
      * intros (i & Hi & Ha & Hlow). destruct i as [|i]; simpl in Hi.
        -- injection Hi as ->. lia.
        -- exists i. split_and!; [done..|]. intros j l Hj Hl. apply (Hlow (S j)); [lia|done].
Qed.

(** X10.  [handleLocalDispatch] for the Add of a local payment.  When the
    peer has no links it returns the code [UnknownDestination] as its
    error; when none of the links of the peer has the bandwidth for the
    amount it returns [InsufficientCapacity]; in both cases the switch is
    as before: the payment stays in the table and no packet is offered to
    any link.  Otherwise it returns [nil] and hands the packet, once, to
    the first link of the slice of the peer whose bandwidth is at least the
    amount. *)
Theorem local_add_dispatch (payment : pendingPayment) (packet : htlcPacket)
    (h : PaymentHash) (a : Amount) (s : Switch) :
  htlc packet = UpdateAddHTLC h a →
  (getLinks (dest packet) s = inr (ErrLocateLinks (dest packet)) →
     handleLocalDispatch payment packet s
       = Some (Some (ErrFailCode UnknownDestination), s)) ∧
  (∀ ls, getLinks (dest packet) s = inl ls →
     Forall (λ link, (Bandwidth link < a)%Z) ls →
     handleLocalDispatch payment packet s
       = Some (Some (ErrFailCode InsufficientCapacity), s)) ∧
  (∀ ls i destination,
     getLinks (dest packet) s = inl ls →
     ls !! i = Some destination →
     (a ≤ Bandwidth destination)%Z →
     (∀ j l, j < i → ls !! j = Some l → (Bandwidth l < a)%Z) →
     handleLocalDispatch payment packet s
       = Some (None, emit (EHandleSwitchPacket false destination packet) s)).
Proof.
  intros Hm. unfold handleLocalDispatch. rewrite Hm. split_and!.
  - by intros ->.
  - intros ls -> Hall. apply findDestination_None in Hall. by rewrite Hall.
  - intros ls i destination -> Hi Ha Hlow.
    assert (findDestination a ls = Some destination) as -> by (apply findDestination_Some; eauto).
    done.
Qed.

(** X11.  [handlePacketForward] for an Add that a link forwards.  When the
    source channel of the packet is not registered, it returns its error
    and the switch is as before: there is no link to offer a Fail to.  When
    the source is registered, the first link of the slice of the
    destination peer with the bandwidth for the amount is the outgoing
    link, and no circuit is in flight for the payment hash, the Add is
    accepted: it returns [nil], the circuit from the channel of the source
    to the channel of the outgoing link is stored under the payment hash,
    and the packet is handed to the outgoing link, once. *)
Theorem forwarded_add_accepted (packet : htlcPacket) (h : PaymentHash) (a : Amount)
    (s : Switch) :
  htlc packet = UpdateAddHTLC h a →
  (getLink (src packet) s = inr ErrChannelLinkNotFound →
     handlePacketForward packet s
       = (Some (ErrFindSourceLink (src packet) ErrChannelLinkNotFound), s)) ∧
  (∀ source ls i destination,
     getLink (src packet) s = inl source →
     getLinks (dest packet) s = inl ls →
     ls !! i = Some destination →
     (a ≤ Bandwidth destination)%Z →
     (∀ j l, j < i → ls !! j = Some l → (Bandwidth l < a)%Z) →
     circuits s !! h = None →
     handlePacketForward packet s =
       (None,
        emit (EHandleSwitchPacket false destination packet)
          (set_circuits
             (<[h := newPaymentCircuit (ChanID source) (ChanID destination) h]> (circuits s))
             s))).
Proof.
  intros Hm. unfold handlePacketForward. rewrite Hm. split.
  - by intros ->.
  - intros source ls i destination -> -> Hi Ha Hlow Hc.
    assert (findDestination a ls = Some destination) as -> by (apply findDestination_Some; eauto).
    unfold circuitMap_add. simpl. by rewrite Hc.
Qed.

(** ** What the calls of the facade leave alone *)

Lemma dispatch_registry paymentHash amount pkt s err s' :
  dispatch paymentHash amount pkt s = Some (err, s') → keeps_registry s s'.
Proof.
  unfold dispatch. destruct (findPayment amount paymentHash s) as [payment|].
  - intros Hd. by destruct (handleLocalDispatch_frame _ _ _ _ _ Hd) as (_ & Hk & _).
  - intros [= Hd]. destruct (handlePacketForward_frame pkt s) as (_ & _ & Hk & _).
    by rewrite Hd in Hk.
Qed.

(** X12.  A [forward] of an Add, a Settle or a Fail, whichever way it
    ends, leaves the link registry, the lifecycle flags and the dispatch
    loop as they were: the two link maps change by the link-control
    commands and the teardown of the loop only. *)
Theorem forward_keeps_registry (sel : selected) (packet : htlcPacket) (s : Switch)
    (err : option error) (s' : Switch) :
  forward sel packet s = Some (err, s') →
  htlc packet ≠ OtherMessage →
  links s' = links s ∧ linksIndex s' = linksIndex s ∧
  keeps_lifecycle s s' ∧ forwarder s' = forwarder s.
Proof.
  intros [r [(_ & _ & -> & _)|(_ & totals & r' & Hf & H & _)]%submit_cases]%forward_submit Hm;
    [done|].
  simpl in H.
  assert (Hd : ∀ h a e s1, dispatch h a packet s = Some (e, s1) →
            links s1 = links s ∧ linksIndex s1 = linksIndex s ∧
            keeps_lifecycle s s1 ∧ forwarder s1 = forwarder s).
  { intros h a e s1 Hd. destruct (dispatch_registry _ _ _ _ _ _ Hd) as [? ?].
    by destruct (dispatch_frame _ _ _ _ _ _ Hd) as [? ?]. }
  destruct (htlc packet); [..|done];
    (destruct (dispatch _ _ _ _) as [[e s1]|] eqn:E; [|done]); simpl in H; simplify_eq;
    by eapply Hd.
Qed.

(** X13.  The link-control calls and [CloseLink], whichever case their
    [select] takes, leave the pending payments, the channels of the
    payments, the circuit map, the lifecycle flags and the dispatch loop as
    they were, and send nothing on a channel of a payment; [GetLink] and
    [GetLinks] leave the whole switch as it was. *)
Theorem link_control_keeps_payments (o : op) (s s' : Switch) :
  exec o s = Some s' →
  is_link_control o →
  keeps_payments s s' ∧ circuits s' = circuits s ∧
  keeps_lifecycle s s' ∧ forwarder s' = forwarder s ∧
  extends_quietly s s' ∧
  (is_lookup o → s' = s).
Proof.
  intros H Ho.
  assert (Hsame : keeps_payments s s ∧ circuits s = circuits s ∧
            keeps_lifecycle s s ∧ forwarder s = forwarder s ∧
            extends_quietly s s ∧ (is_lookup o → s = s)).
  { split_and!; try done. by apply extends_quietly_refl. }
  destruct o as [| | | | sel link | sel chanID | sel chanID | sel hop | sel cp ct | |];
    try done; simpl in H; apply fmap_Some in H as [[e s1] [H ->]]; simpl.
  - apply AddLink_submit in H
      as [r [(_ & _ & -> & _)|(_ & totals & r' & Hf & H & _)]%submit_cases]; [done|].
    simpl in H. destruct (addLink_frame link s) as (? & ? & ? & ? & Hlog).
    destruct (addLink link s) as [err s2]. simplify_eq.
    split_and!; try done. by apply extends_quietly_refl.
  - apply RemoveLink_submit in H
      as [r [(_ & _ & -> & _)|(_ & totals & r' & Hf & H & _)]%submit_cases]; [done|].
    simpl in H. destruct (removeLink_frame chanID s) as (? & ? & ? & ? & ? & ? & ? & ?).
    pose proof (removeLink_quiet chanID s) as Hq.
    destruct (removeLink chanID s) as [err s2]. simplify_eq.
    split_and!; done.
  - apply GetLink_submit in H
      as [r [(_ & _ & -> & _)|(_ & totals & r' & Hf & H & _)]%submit_cases]; [done|].
    simpl in H. by simplify_eq.
  - apply GetLinks_submit in H
      as [r [(_ & _ & -> & _)|(_ & totals & r' & Hf & H & _)]%submit_cases]; [done|].
    simpl in H. by simplify_eq.
  - apply CloseLink_submit in H
      as [r [(_ & _ & -> & _)|(_ & totals & r' & Hf & H & _)]%submit_cases]; [done|].
    simpl in H.
    destruct (handleChanelClose_frame {| CloseType := ct; ChanPoint := cp |} s)
      as (? & ? & ? & ? & ?).
    pose proof (handleChanelClose_quiet {| CloseType := ct; ChanPoint := cp |} s) as Hq.
    destruct (handleChanelClose _ s) as [errs s2]. simplify_eq.
    split_and!; done.
Qed.

(** ** The turns of the dispatch loop *)


(** ** The statistics ticker *)

Lemma u64_range n : in_u64 (u64 n).
Proof. unfold in_u64, u64. by apply N.mod_upper_bound. Qed.

Lemma i64_range z : in_i64 (i64 z).
Proof.
  unfold in_i64, i64. pose proof (Z.mod_pos_bound (z + 2 ^ 63) (2 ^ 64)) as H. lia.
Qed.

Lemma u64_id n : in_u64 n → u64 n = n.
Proof. unfold in_u64, u64. intros H. by apply N.mod_small. Qed.

Lemma i64_id z : in_i64 z → i64 z = z.
Proof. unfold in_i64, i64. intros H. rewrite Z.mod_small; lia. Qed.

Lemma i64_add_i64 x y : i64 (x + i64 y) = i64 (x + y).
Proof.
  unfold i64. f_equal.
  replace (x + ((y + 2 ^ 63) `mod` 2 ^ 64 - 2 ^ 63) + 2 ^ 63)%Z
    with (x + (y + 2 ^ 63) `mod` 2 ^ 64)%Z by lia.
  rewrite Zplus_mod_idemp_r. f_equal. lia.
Qed.

Lemma u64_sub_spec a b :
  in_u64 a → in_u64 b →
  u64_sub a b = if decide (b ≤ a)%N then (a - b)%N else (a + 2 ^ 64 - b)%N.
Proof.
  unfold in_u64. intros Ha Hb. unfold u64_sub. rewrite !u64_id by done.
  case_decide as Hle.
  - replace (a + 2 ^ 64 - b)%N with ((a - b) + 1 * 2 ^ 64)%N by lia.
    rewrite N.Div0.mod_add. apply N.mod_small. lia.
  - apply N.mod_small. lia.
Qed.

Lemma collate_typed s : ∀ n st rv, collate s = (n, st, rv) → in_u64 n ∧ in_i64 st ∧ in_i64 rv.
Proof.
  unfold collate. generalize (map_to_list (links s)).*2. intros l.
  assert (Hacc : ∀ acc : N * Amount * Amount,
            in_u64 acc.1.1 ∧ in_i64 acc.1.2 ∧ in_i64 acc.2 →
            ∀ n st rv,
              foldl (λ '(n, st, rv) link,
                       let '(updates, sent, recv) := Stats link in
                       (u64 (n + updates), i64 (st + sent), i64 (rv + recv))) acc l
              = (n, st, rv) →
              in_u64 n ∧ in_i64 st ∧ in_i64 rv).
  { induction l as [|link l IH]; intros [[n0 st0] rv0] H0 n st rv; simpl.
    - by intros [= <- <- <-].
    - destruct (Stats link) as [[updates sent] recv]. apply IH. simpl.
      split_and!; [apply u64_range|apply i64_range..]. }
  apply Hacc. unfold in_u64, in_i64. simpl. lia.
Qed.

Lemma logTick_typed totals s : stats_typed totals → stats_typed (logTick totals s).
Proof.
  intros Ht. unfold logTick.
  destruct (foldl _ _ _) as [[n st] rv].
  destruct (if decide (totalNumUpdates totals = 0%N) then _ else _) as [[dn dst] drv].
  case_decide; [done|]. split_and!; [apply u64_range|apply i64_range..].
Qed.

Lemma htlcForwarder_forwarder c totals s r s' :
  forwarder s = Parked totals →
  htlcForwarder c totals s = Some (r, s') →
  forwarder s' = Exited ∨ forwarder s' = Parked totals ∨
  forwarder s' = Parked (logTick totals s).
Proof.
  intros Hf H. destruct c as [req | pkt | | cmd |]; simpl in H.
  - destruct (handleChanelClose_frame req s) as (_ & _ & _ & _ & Hfw).
    destruct (handleChanelClose req s) as [errs s1]. simplify_eq. simpl in Hfw. right. left. congruence.
  - destruct (htlc pkt);
      [destruct (dispatch _ _ _ _) as [[err s1]|] eqn:E; [|done]; simpl in H; simplify_eq;
       apply dispatch_frame in E as [_ Hfw]; right; left; congruence ..|].
    simplify_eq. left. by destruct (forwarderReturn_frame s) as (_ & _ & _ & ?).
  - simplify_eq. right. by right.
  - destruct cmd as [link | chanID | chanID | peer].
    + destruct (addLink_frame link s) as (_ & _ & _ & Hfw & _).
      destruct (addLink link s) as [err s1]. simplify_eq. simpl in Hfw. right. left. congruence.
    + destruct (removeLink_frame chanID s) as (_ & _ & _ & _ & _ & _ & _ & Hfw).
      destruct (removeLink chanID s) as [err s1]. simplify_eq. simpl in Hfw. right. left. congruence.
    + simplify_eq. by right; left.
    + simplify_eq. by right; left.
  - destruct (quit s); [|done]. simplify_eq. left.
    by destruct (forwarderReturn_frame s) as (_ & _ & _ & ?).
Qed.

Lemma forwarder_typed_keep s s' :
  forwarder s' = forwarder s → forwarder_typed s → forwarder_typed s'.
Proof. intros Hfw Ht totals. rewrite Hfw. apply Ht. Qed.

Lemma htlcForwarder_typed c totals s r s' :
  forwarder_typed s → forwarder s = Parked totals →
  htlcForwarder c totals s = Some (r, s') → forwarder_typed s'.
Proof.
  intros Ht Hf H totals'.
  destruct (htlcForwarder_forwarder _ _ _ _ _ Hf H) as [-> | [-> | ->]]; [done|..].
  - intros [= <-]. by apply Ht.
  - intros [= <-]. by apply logTick_typed, Ht.
Qed.

Lemma exec_forwarder_typed o s s' :
  forwarder_typed s → exec o s = Some s' → forwarder_typed s'.
Proof.
  intros Ht H. apply exec_cases in H
    as [-> | [-> | [(sel & c & r & H) | [(totals & Hf & H) | [(n & u & pc & H) |
       [(sel & c & r & s1 & a & h & H & ->) | [(ch & e & buf & Hch & ->) |
       [(ch & p & buf & Hch & ->) | [_ ->]]]]]]]]].
  - unfold Start. case_decide; [|done]. cbv zeta.
    set (s1 := emit EGoForwarder (set_started 1 s)). destruct (quit s1).
    + intros totals. by destruct (forwarderReturn_frame s1) as (_ & _ & _ & ->).
    + intros totals [= <-]. unfold stats_typed, in_u64, in_i64. simpl. lia.
  - unfold Stop. case_decide; [|done]. cbv zeta.
    set (s1 := emit ECloseQuit (set_quit true (set_shutdown 1 s))).
    destruct (forwarder s1) as [|totals|] eqn:E; [intros ? ?; congruence| |intros ? ?; congruence].
    change (default s1 (snd <$> htlcForwarder quitClosed totals s1)) with (forwarderReturn s1).
    intros totals'. by destruct (forwarderReturn_frame s1) as (_ & _ & _ & ->).
  - apply submit_cases in H as [(_ & _ & -> & _)|(_ & totals & r' & Hf & H & _)]; [done|].
    by eapply htlcForwarder_typed.
  - by eapply htlcForwarder_typed.
  - destruct (SendHTLC_enter_frame _ _ _ _ _ H) as (_ & _ & _ & Hfw & _).
    by eapply forwarder_typed_keep.
  - destruct (removePendingPayment_frame a h s1) as (_ & _ & _ & _ & _ & _ & _ & _ & Hfw & _).
    eapply forwarder_typed_keep; [done|].
    apply submit_cases in H as [(_ & _ & -> & _)|(_ & totals & r' & Hf & H & _)]; [done|].
    by eapply htlcForwarder_typed.
  - done.
  - done.
  - done.
Qed.

Lemma reachable_forwarder_typed s : reachable s → forwarder_typed s.
Proof.
  induction 1 as [|s o s' Hs IH H]; [done|]. by eapply exec_forwarder_typed.
Qed.

(** X9.  A tick of the statistics ticker, in any state of a run in which
    the loop waits in its [select]: it changes nothing but the running
    totals of the loop.  With [n] forwarded updates, [st] satoshis sent and
    [rv] received as the sums over the registered links (in [uint64] and
    [int64] arithmetic): when [n] is the running number of updates, the
    totals stay as they are, whatever the amounts are; otherwise, when the
    running number is not zero, the three totals become [n], [st] and [rv]:
    adding the difference to the old total gives the new sum, also when
    the subtraction wraps around; and when the running number is zero, the
    number becomes [n] and the sums of the amounts are added to the running
    amounts. *)
Theorem logTick_totals (s : Switch) (totals : forwardStats) (n : N) (st rv : Amount) :
  reachable s →
  forwarder s = Parked totals →
  collate s = (n, st, rv) →
  exec OpTick s = Some (set_forwarder (Parked (logTick totals s)) s) ∧
  (n = totalNumUpdates totals → logTick totals s = totals) ∧
  (n ≠ totalNumUpdates totals → totalNumUpdates totals ≠ 0%N →
     logTick totals s = {| totalNumUpdates := n; totalSatSent := st; totalSatRecv := rv |}) ∧
  (n ≠ 0%N → totalNumUpdates totals = 0%N →
     logTick totals s =
       {| totalNumUpdates := n;
          totalSatSent := i64 (totalSatSent totals + st);
          totalSatRecv := i64 (totalSatRecv totals + rv) |}).
Proof.
  intros Hr Hf Hc.
  destruct (reachable_forwarder_typed s Hr totals Hf) as (Tn & Ts & Tr).
  destruct (collate_typed s _ _ _ Hc) as (Cn & Cs & Cr).
  split; [by simpl; rewrite Hf|].
  unfold logTick. fold (collate s). rewrite Hc.
  destruct totals as [pn ps pr]. simpl in *.
  destruct (decide (pn = 0%N)) as [Hz|Hnz].
  - subst pn. split_and!.
    + intros ->. by rewrite decide_True.
    + done.
    + intros Hn _. rewrite decide_False by done. f_equal. rewrite N.add_0_l. by apply u64_id.
  - rewrite (u64_sub_spec n pn Cn Tn).
    assert (Hacc : n ≠ pn →
              u64 (pn + (if decide (pn ≤ n)%N then (n - pn)%N else (n + 2 ^ 64 - pn)%N)) = n).
    { intros Hne. unfold in_u64 in *. case_decide.
      - replace (pn + (n - pn))%N with n by lia. by apply u64_id.
      - replace (pn + (n + 2 ^ 64 - pn))%N with (n + 1 * 2 ^ 64)%N by lia.
        unfold u64. rewrite N.Div0.mod_add. by apply N.mod_small. }
    split_and!.
    + intros Heq. destruct (decide (pn ≤ n)%N); [|lia]. by rewrite decide_True by lia.
    + intros Hne _. rewrite decide_False; last first.
      { unfold in_u64 in *. case_decide; lia. }
      rewrite (Hacc Hne), !i64_add_i64. f_equal.
      * replace (ps + (st - ps))%Z with st by lia. by apply i64_id.
      * replace (pr + (rv - pr))%Z with rv by lia. by apply i64_id.
    + done.
Qed.

(** ** The lifecycle over a whole run *)

Lemma spawns_app l1 l2 : spawns (l1 ++ l2) = spawns l1 + spawns l2.
Proof. induction l1 as [|[] l1 IH]; simpl; lia. Qed.

Lemma closes_app l1 l2 : closes (l1 ++ l2) = closes l1 + closes l2.
Proof. induction l1 as [|[] l1 IH]; simpl; lia. Qed.

Lemma calm_counts l : calm l → spawns l = 0 ∧ closes l = 0.
Proof. induction 1 as [|ev l Hev _ IH]; [done|]. by destruct ev. Qed.

Lemma extends_calmly_refl s s' : log s' = log s → extends_calmly s s'.
Proof. intros H. exists []. rewrite H, app_nil_r. split; [done|constructor]. Qed.

Lemma extends_calmly_trans s1 s2 s3 :
  extends_calmly s1 s2 → extends_calmly s2 s3 → extends_calmly s1 s3.
Proof.
  intros (l1 & H1 & Hq1) (l2 & H2 & Hq2). exists (l1 ++ l2).
  rewrite H2, H1, app_assoc. split; [done|]. by apply Forall_app.
Qed.

Lemma extends_calmly_counts s s' :
  extends_calmly s s' →
  spawns (log s') = spawns (log s) ∧ closes (log s') = closes (log s).
Proof.
  intros (l & -> & Hq). rewrite spawns_app, closes_app.
  destruct (calm_counts l Hq) as [-> ->]. lia.
Qed.

Lemma removeLink_calm chanID s : extends_calmly s (removeLink chanID s).2.
Proof.
  unfold removeLink. destruct (links s !! chanID) as [link|]; [|by apply extends_calmly_refl].
  simpl. destruct (list_find _ _) as [[i x]|]; simpl.
  - case_decide; exists [ELinkStop link]; split; try done; by repeat constructor.
  - exists [ELinkStop link]. split; [done|]. by repeat constructor.
Qed.

Lemma removeLinks_calm entries s : extends_calmly s (removeLinks entries s).
Proof.
  revert s. induction entries as [|[chanID link] entries IH]; intros s; simpl.
  - by apply extends_calmly_refl.
  - destruct (links s !! chanID); [|apply IH].
    eapply extends_calmly_trans; [apply removeLink_calm|apply IH].
Qed.

Lemma forwarderReturn_calm s : extends_calmly s (forwarderReturn s).
Proof.
  unfold forwarderReturn.
  destruct (removeLinks_calm (map_to_list (links s)) s) as (l & Hl & Hq).
  exists l. done.
Qed.

Lemma handleChanelClose_calm req s : extends_calmly s (handleChanelClose req s).2.
Proof.
  unfold handleChanelClose. destruct (foldl _ _ _); simpl.
  - eexists [_]. split; [done|]. by repeat constructor.
  - by apply extends_calmly_refl.
Qed.

Lemma handlePacketForward_calm packet s :
  extends_calmly s (handlePacketForward packet s).2.
Proof.
  unfold handlePacketForward, failBack, getLink, getLinks, circuitMap_add, circuitMap_remove.
  repeat case_match; simplify_eq; simpl;
    first [by apply extends_calmly_refl
          | by (eexists [_]; split; [done|]; repeat constructor)].
Qed.

Lemma send_err_log ch e s s' :
  send_err ch e s = Some s' → log s' = log s ++ [EChanSendErr ch e].
Proof. unfold send_err. repeat case_match; by intros [= <-]. Qed.

Lemma send_preimage_log ch p s s' :
  send_preimage ch p s = Some s' → log s' = log s ++ [EChanSendPreimage ch p].
Proof. unfold send_preimage. repeat case_match; by intros [= <-]. Qed.

Lemma handleLocalDispatch_calm payment packet s err s' :
  handleLocalDispatch payment packet s = Some (err, s') → extends_calmly s s'.
Proof.
  unfold handleLocalDispatch, getLinks. intros H.
  assert (Hres : ∀ e p, (s1 ← send_err (pp_err payment) e s;
                         s2 ← send_preimage (pp_preimage payment) p s1;
                         Some (None, (removePendingPayment (pp_amount payment)
                                        (pp_paymentHash payment) s2).2))
                        = Some (err, s') → extends_calmly s s').
  { intros e p Hr. destruct (send_err _ e s) as [s1|] eqn:E1; [|done]. simpl in Hr.
    destruct (send_preimage _ p s1) as [s2|] eqn:E2; [|done]. simpl in Hr.
    injection Hr as _ <-.
    destruct (removePendingPayment_frame (pp_amount payment) (pp_paymentHash payment) s2)
      as (_ & _ & _ & _ & _ & _ & _ & _ & _ & Hlog).
    apply send_err_log in E1. apply send_preimage_log in E2.
    eexists [_; _]. rewrite Hlog, E2, E1, <- app_assoc. split; [done|]. by repeat constructor. }
  destruct (htlc packet); [| by eapply Hres | by eapply Hres |];
    repeat case_match; simplify_eq;
    first [by apply extends_calmly_refl
          | by (eexists [_]; split; [done|]; repeat constructor)].
Qed.

Lemma htlcForwarder_calm c totals s r s' :
  htlcForwarder c totals s = Some (r, s') → extends_calmly s s'.
Proof.
  intros H. destruct c as [req | pkt | | cmd |]; simpl in H.
  - pose proof (handleChanelClose_calm req s) as Hq.
    destruct (handleChanelClose req s) as [errs s1]. by simplify_eq.
  - assert (Hd : ∀ h a e s1, dispatch h a pkt s = Some (e, s1) → extends_calmly s s1).
    { intros h a e s1. unfold dispatch. destruct (findPayment a h s) as [payment|].
      - apply handleLocalDispatch_calm.
      - intros [= Hd]. pose proof (handlePacketForward_calm pkt s) as Hq. by rewrite Hd in Hq. }
    destruct (htlc pkt);
      [destruct (dispatch _ _ _ _) as [[err s1]|] eqn:E; [|done]; simpl in H; simplify_eq;
       by eapply Hd ..|].
    simplify_eq. apply forwarderReturn_calm.
  - simplify_eq. by apply extends_calmly_refl.
  - destruct cmd as [link | chanID | chanID | peer].
    + destruct (addLink_frame link s) as (_ & _ & _ & _ & Hlog).
      destruct (addLink link s) as [err s1]. simplify_eq. by apply extends_calmly_refl.
    + pose proof (removeLink_calm chanID s) as Hq.
      destruct (removeLink chanID s) as [err s1]. by simplify_eq.
    + simplify_eq. by apply extends_calmly_refl.
    + simplify_eq. by apply extends_calmly_refl.
  - destruct (quit s); [|done]. simplify_eq. apply forwarderReturn_calm.
Qed.

(** A step that keeps the flags and [quit], adds neither a spawn nor a
    close, and leaves a goroutine spawned if and only if one was. *)
Lemma lifecycle_log_inv_keep s s' :
  keeps_lifecycle s s' → extends_calmly s s' →
  (forwarder s' = NotSpawned ↔ forwarder s = NotSpawned) →
  lifecycle_log_inv s → lifecycle_log_inv s'.
Proof.
  intros (Hst & Hsd & Hq) [Hsp Hcl]%extends_calmly_counts Hfw.
  unfold lifecycle_log_inv. rewrite Hst, Hsd, Hq, Hsp, Hcl, Hfw. done.
Qed.

Lemma htlcForwarder_lifecycle_log c totals s r s' :
  forwarder s = Parked totals →
  htlcForwarder c totals s = Some (r, s') →
  lifecycle_log_inv s → lifecycle_log_inv s'.
Proof.
  intros Hf H. apply lifecycle_log_inv_keep.
  - by destruct (htlcForwarder_lifecycle _ _ _ _ _ Hf H).
  - by eapply htlcForwarder_calm.
  - rewrite Hf. destruct (htlcForwarder_lifecycle _ _ _ _ _ Hf H) as [_ [->|[t ->]]]; done.
Qed.

Lemma exec_lifecycle_log o s s' :
  lifecycle_log_inv s → exec o s = Some s' → lifecycle_log_inv s'.
Proof.
  intros Hinv H. apply exec_cases in H
    as [-> | [-> | [(sel & c & r & H) | [(totals & Hf & H) | [(n & u & pc & H) |
       [(sel & c & r & s1 & a & h & H & ->) | [(ch & e & buf & Hch & ->) |
       [(ch & p & buf & Hch & ->) | [_ ->]]]]]]]]].
  - unfold Start. case_decide as Hst; [|done]. cbv zeta.
    destruct Hinv as [[(_ & Hns & Hsp)|(Hst' & _)] Hcl]; [|congruence].
    set (s1 := emit EGoForwarder (set_started 1 s)).
    assert (Hinv1 : ∀ s2, keeps_lifecycle s1 s2 → extends_calmly s1 s2 →
              forwarder s2 ≠ NotSpawned → lifecycle_log_inv s2).
    { intros s2 (Hst2 & Hsd2 & Hq2) [Hsp2 Hcl2]%extends_calmly_counts Hfw2.
      unfold lifecycle_log_inv. rewrite Hst2, Hsd2, Hq2, Hsp2, Hcl2. unfold s1. simpl.
      rewrite spawns_app, closes_app, Hsp. simpl. rewrite Nat.add_0_r. split; [by right|done]. }
    destruct (quit s1).
    + destruct (forwarderReturn_frame s1) as (? & _ & _ & Hex).
      apply Hinv1; [done|apply forwarderReturn_calm|by rewrite Hex].
    + apply Hinv1; [done|by apply extends_calmly_refl|done].
  - unfold Stop. case_decide as Hsd; [|done]. cbv zeta.
    destruct Hinv as [Hsp [(_ & Hq & Hcl)|(Hsd' & _)]]; [|congruence].
    set (s1 := emit ECloseQuit (set_quit true (set_shutdown 1 s))).
    assert (Hinv1 : lifecycle_log_inv s1).
    { unfold lifecycle_log_inv, s1. simpl. rewrite spawns_app, closes_app, Hcl. simpl.
      rewrite Nat.add_0_r. split; [done|by right]. }
    destruct (forwarder s1) as [|totals|] eqn:E; [done| |done].
    change (default s1 (snd <$> htlcForwarder quitClosed totals s1)) with (forwarderReturn s1).
    destruct (forwarderReturn_frame s1) as (? & _ & _ & Hex).
    eapply lifecycle_log_inv_keep; [done|apply forwarderReturn_calm| |done].
    by rewrite Hex, E.
  - apply submit_cases in H as [(_ & _ & -> & _)|(_ & totals & r' & Hf & H & _)]; [done|].
    by eapply htlcForwarder_lifecycle_log.
  - by eapply htlcForwarder_lifecycle_log.
  - destruct (SendHTLC_enter_frame _ _ _ _ _ H) as (? & _ & _ & Hfw & Hlog).
    eapply lifecycle_log_inv_keep; [done|by apply extends_calmly_refl|by rewrite Hfw|done].
  - destruct (removePendingPayment_frame a h s1)
      as (Hst & Hsd & Hq & _ & _ & _ & _ & _ & Hfw & Hlog).
    eapply (lifecycle_log_inv_keep s1);
      [done|by apply extends_calmly_refl|by rewrite Hfw|].
    apply submit_cases in H as [(_ & _ & -> & _)|(_ & totals & r' & Hf & H & _)]; [done|].
    by eapply htlcForwarder_lifecycle_log.
  - done.
  - done.
  - done.
Qed.

Lemma reachable_lifecycle_log s : reachable s → lifecycle_log_inv s.
Proof.
  induction 1 as [|s o s' Hs IH H].
  - split; by left.
  - by eapply exec_lifecycle_log.
Qed.

(** X18.  Over every run the dispatch goroutine is spawned at most once
    and [quit] is closed at most once, and the two flags tell it: [started]
    is 0 while nothing was spawned and no goroutine exists, and 1 from the
    spawn on; [shutdown] is 0 while [quit] is open and was never closed,
    and 1 from the close on. *)
Theorem spawn_and_close_once (s : Switch) :
  reachable s →
  spawns (log s) ≤ 1 ∧ closes (log s) ≤ 1 ∧
  (started s = 0%Z ∨ started s = 1%Z) ∧ (shutdown s = 0%Z ∨ shutdown s = 1%Z) ∧
  (started s = 0%Z ↔ spawns (log s) = 0) ∧
  (started s = 0%Z ↔ forwarder s = NotSpawned) ∧
  (shutdown s = 0%Z ↔ closes (log s) = 0) ∧
  (shutdown s = 0%Z ↔ quit s = false).
Proof.
  intros Hr.
  destruct (reachable_lifecycle_log s Hr)
    as [[(-> & -> & ->)|(-> & Hf & ->)] [(-> & -> & ->)|(-> & -> & ->)]];
    split_and!; try lia; try tauto; try (split; congruence); try (split; done).
Qed.

(** X19.  Before [Start] and [Stop], in any state of a run, every call of
    the facade blocks, whichever case of its [select] it would take: no
    loop receives its command and [quit] is open.  Nothing is processed
    and nothing is answered. *)
Theorem facade_blocks_before_Start (s : Switch) (sel : selected) :
  reachable s →
  started s = 0%Z →
  shutdown s = 0%Z →
  (∀ packet, forward sel packet s = None) ∧
  (∀ link, AddLink sel link s = None) ∧
  (∀ chanID, RemoveLink sel chanID s = None) ∧
  (∀ chanID, GetLink sel chanID s = None) ∧
  (∀ hop, GetLinks sel hop s = None) ∧
  (∀ chanPoint closeType, CloseLink sel chanPoint closeType s = None) ∧
  (∀ payment packet, SendHTLC_step sel (atForward payment packet) s = None) ∧
  exec OpTick s = None.
Proof.
  intros Hr Hst Hsd.
  destruct (reachable_lifecycle_log s Hr)
    as [[(_ & Hf & _)|(? & _)] [(_ & Hq & _)|(? & _)]]; try congruence.
  assert (Hsub : ∀ c, submit sel c s = None).
  { intros c. unfold submit. rewrite Hf, Hq. by destruct sel. }
  unfold forward, AddLink, RemoveLink, GetLink, GetLinks, CloseLink, SendHTLC_step, forward.
  split_and!; intros; rewrite ?Hsub; try done. simpl. by rewrite Hf.
Qed.

(** ** [SendHTLC] up to the dispatch of its Add *)

(** X15.  A call of [SendHTLC] on a running switch, in any state of a
    run, up to the return of [forward].  Its payment goes into the table
    and its Add is dispatched locally, since the table now has a record
    with its hash and amount: no circuit is made, and the link registry
    and the loop are as before.  When the next node has no links, the call
    returns the zero preimage and the code [UnknownDestination]; when none
    of its links has the bandwidth, the zero preimage and
    [InsufficientCapacity]; in both cases nothing was offered to any link
    and the table has as many records as before the call.  Otherwise the
    packet is handed, once, to the first link of the next node with the
    bandwidth for the amount, the payment is pending, and the call goes on
    to wait for the resolution. *)
Theorem SendHTLC_dispatch_outcome (nextNode : PubKey) (h : PaymentHash) (a : Amount)
    (s : Switch) (totals : forwardStats) :
  reachable s →
  forwarder s = Parked totals →
  ∃ payment packet s1 pc s2,
    SendHTLC_enter nextNode (UpdateAddHTLC h a) s = Some (atForward payment packet, s1) ∧
    packet = newInitPacket (NewHopID nextNode) (UpdateAddHTLC h a) ∧
    SendHTLC_step selComm (atForward payment packet) s1 = Some (pc, s2) ∧
    keeps_registry s s2 ∧ circuits s2 = circuits s ∧ forwarder s2 = Parked totals ∧
    match getLinks (NewHopID nextNode) s with
    | inr _ =>
      pc = atReturn zeroPreimage (Some (ErrFailCode UnknownDestination)) ∧
      log s2 = log s ∧ numPendingPayments s2 = numPendingPayments s
    | inl ls =>
      match findDestination a ls with
      | None =>
        pc = atReturn zeroPreimage (Some (ErrFailCode InsufficientCapacity)) ∧
        log s2 = log s ∧ numPendingPayments s2 = numPendingPayments s
      | Some destination =>
        pc = atAwaitErr payment ∧
        log s2 = log s ++ [EHandleSwitchPacket false destination packet] ∧
        pending payment s2 ∧ numPendingPayments s2 = S (numPendingPayments s)
      end
    end.
Proof.
  intros Hr Hf.
  destruct (SendHTLC_enter_spec nextNode h a s) as (Henter & _ & _).
  pose proof (SendHTLC_enter_count _ _ _ _ _ Henter) as Hcount.
  destruct (SendHTLC_enter_frame _ _ _ _ _ Henter) as (_ & [Hl Hi] & Hc & Hfw & Hlog).
  set (payment := {| pp_paymentHash := h |}) in *.
  set (packet := newInitPacket (NewHopID nextNode) (UpdateAddHTLC h a)) in *.
  set (s1 := set_pendingPayments _ _) in *.
  assert (Hin : payment ∈ default [] (pendingPayments s1 !! h)).
  { unfold s1. simpl. rewrite lookup_insert_eq. simpl. apply elem_of_app. right. constructor. }
  assert (Hfind : ∃ p, findPayment a h s1 = inl p).
  { unfold findPayment.
    destruct (list_find_elem_of (λ p, pp_amount p = a) _ payment Hin eq_refl) as [[i p] ->].
    by eexists. }
  destruct Hfind as [p Hfind].
  assert (Hstep : ∀ err s', handleLocalDispatch p packet s1 = Some (err, s') →
            SendHTLC_step selComm (atForward payment packet) s1 =
              Some (match err with
                    | Some e => (atReturn zeroPreimage (Some e),
                                 (removePendingPayment a h s').2)
                    | None => (atAwaitErr payment, s')
                    end)).
  { intros err s' Hd. unfold SendHTLC_step, forward, submit. rewrite Hfw, Hf. simpl.
    unfold dispatch. rewrite Hfind, Hd. simpl. by destruct err. }
  exists payment, packet, s1.
  unfold getLinks.
  destruct (linksIndex s !! NewHopID nextNode) as [ls|] eqn:Hls.
  - destruct (findDestination a ls) as [destination|] eqn:Hdest.
    + assert (Hd : handleLocalDispatch p packet s1
                   = Some (None, emit (EHandleSwitchPacket false destination packet) s1)).
      { unfold handleLocalDispatch, getLinks. simpl. by rewrite Hls, Hdest. }
      apply Hstep in Hd. eexists _, _. split; [done|]. split; [done|]. split; [exact Hd|].
      simpl. split_and!; try done.
      exists h, (default [] (pendingPayments s !! h) ++ [payment]). split.
      * unfold s1. simpl. by rewrite lookup_insert_eq.
      * apply elem_of_app. right. constructor.
    + assert (Hd : handleLocalDispatch p packet s1
                   = Some (Some (ErrFailCode InsufficientCapacity), s1)).
      { unfold handleLocalDispatch, getLinks. simpl. by rewrite Hls, Hdest. }
      apply Hstep in Hd. eexists _, _. split; [done|]. split; [done|]. split; [exact Hd|].
      destruct (removePendingPayment_frame a h s1)
        as (_ & _ & _ & ? & ? & ? & _ & _ & ? & ?).
      destruct (removePendingPayment_count _ _ _ _ Hfind) as [_ Hrm].
      split; [split; congruence|]. split_and!; congruence.
  - assert (Hd : handleLocalDispatch p packet s1
                 = Some (Some (ErrFailCode UnknownDestination), s1)).
    { unfold handleLocalDispatch, getLinks. simpl. by rewrite Hls. }
    apply Hstep in Hd. eexists _, _. split; [done|]. split; [done|]. split; [exact Hd|].
    destruct (removePendingPayment_frame a h s1)
      as (_ & _ & _ & ? & ? & ? & _ & _ & ? & ?).
    destruct (removePendingPayment_count _ _ _ _ Hfind) as [_ Hrm].
    split; [split; congruence|]. split_and!; congruence.
Qed.

(** ** Removing a channel id that was added twice *)

Lemma swap_remove_snoc {A} (i : nat) (l : list A) (x : A) :
  i < length l → swap_remove i (l ++ [x]) = <[i := x]> l.
Proof.
  intros Hi. unfold swap_remove. rewrite last_snoc, length_app. simpl.
  replace (length l + 1 - 1) with (length l) by lia.
  rewrite insert_app_l by done. rewrite take_app_length'; [done|by rewrite length_insert].
Qed.

(** X20.  What a later [removeLink] does after [addLink] has put a second
    link under a channel id (C9), in a registry that was consistent: it
    returns [nil], takes the channel id out of [links] and stops the new
    link; the old link is not stopped.  When the two links have the same
    peer, the loop over the slice of the peer meets the entry of the old
    link first: the new link takes its place in the slice and stays there.
    When they have different peers, the entry of the new link goes and the
    peer index is as it was before the second link was added, so the old
    link stays in the slice of its peer.  In both cases [getLinks] still
    returns a link with that channel id, which [getLink] does not find
    any more. *)
Theorem duplicate_add_then_remove (link old : ChannelLink) (s : Switch) :
  registry_inv s →
  links s !! ChanID link = Some old →
  StartErr link = None →
  let s2 := (removeLink (ChanID link) (addLink link s).2).2 in
  let hop := NewHopID (PeerPubKey link) in
  (removeLink (ChanID link) (addLink link s).2).1 = None ∧
  links s2 = delete (ChanID link) (links s) ∧
  getLink (ChanID link) s2 = inr ErrChannelLinkNotFound ∧
  log s2 = log s ++ [ELinkStop link] ∧
  (NewHopID (PeerPubKey old) = hop →
   ∃ ls i, linksIndex s !! hop = Some ls ∧ ls !! i = Some old ∧
           linksIndex s2 = <[hop := <[i := link]> ls]> (linksIndex s)) ∧
  (NewHopID (PeerPubKey old) ≠ hop → linksIndex s2 = linksIndex s) ∧
  (∃ stale ls, ChanID stale = ChanID link ∧
     getLinks (NewHopID (PeerPubKey stale)) s2 = inl ls ∧ stale ∈ ls).
Proof.
  intros (I1 & I2 & I3) Hold Hstart s2 hop.
  pose proof (I1 _ _ Hold) as Hc.
  destruct (I2 _ _ Hold) as (lso & Hlso & Hino).
  destruct (I3 _ _ Hlso) as (Hndo & _ & Hmo).
  set (s1 := (addLink link s).2).
  assert (Hs1 : s1 = set_linksIndex
            (<[hop := default [] (linksIndex s !! hop) ++ [link]]> (linksIndex s))
            (set_links (<[ChanID link := link]> (links s)) s)).
  { unfold s1. by rewrite (addLink_ok _ _ Hstart). }
  assert (Hlk1 : links s1 !! ChanID link = Some link).
  { rewrite Hs1. simpl. by rewrite lookup_insert_eq. }
  pose proof (removeLink_links (ChanID link) s1) as Hlinks. rewrite Hlk1 in Hlinks.
  pose proof (removeLink_stops (ChanID link) link s1 Hlk1) as Hlog.
  assert (Hlinks2 : links s2 = delete (ChanID link) (links s)).
  { unfold s2. fold s1. rewrite Hlinks, Hs1. simpl. by rewrite delete_insert_eq. }
  assert (Hmatch : ∀ ls l, linksIndex s !! hop = Some ls → l ∈ ls →
            ChanID l = ChanID link → l = old ∧ NewHopID (PeerPubKey old) = hop).
  { intros ls l Hls Hl Heq. destruct (I3 _ _ Hls) as (_ & _ & Hm).
    destruct (Hm l Hl) as [Hhop Hl']. rewrite Heq, Hold in Hl'. injection Hl' as ->. done. }
  assert (Hidx : linksIndex s2 =
            match list_find (λ l, ChanID l = ChanID link)
                    (default [] (linksIndex s !! hop) ++ [link]) with
            | Some (i, _) =>
              let ls' := swap_remove i (default [] (linksIndex s !! hop) ++ [link]) in
              if decide (ls' = []) then delete hop (linksIndex s)
              else <[hop := ls']> (linksIndex s)
            | None => linksIndex s1
            end).
  { unfold s2. fold s1. unfold removeLink. rewrite Hlk1. simpl. fold hop.
    assert (linksIndex s1 !! hop = Some (default [] (linksIndex s !! hop) ++ [link])) as ->.
    { rewrite Hs1. simpl. by rewrite lookup_insert_eq. }
    simpl. destruct (list_find _ _) as [[i x]|]; [|done]. simpl.
    rewrite lookup_insert_eq. simpl.
    destruct (decide (length (swap_remove i _) = 0)) as [Hlen|Hlen]; simpl.
    - apply nil_length_inv in Hlen. rewrite decide_True by done.
      rewrite Hs1. simpl. by rewrite !delete_insert_eq.
    - rewrite decide_False; last first. { intros Hnil. by rewrite Hnil in Hlen. }
      rewrite Hs1. simpl. by rewrite insert_insert_eq. }
  assert (Hsame : NewHopID (PeerPubKey old) = hop →
            ∃ ls i, linksIndex s !! hop = Some ls ∧ ls !! i = Some old ∧
                    linksIndex s2 = <[hop := <[i := link]> ls]> (linksIndex s)).
  { intros Hhop. rewrite Hhop in Hlso.
    apply list_elem_of_lookup in Hino as [i Hi].
    exists lso, i. split_and!; [done..|].
    rewrite Hidx, Hlso. simpl.
    assert (list_find (λ l, ChanID l = ChanID link) (lso ++ [link]) = Some (i, old)) as ->.
    { apply list_find_Some. split_and!.
      - by apply lookup_app_l_Some.
      - by rewrite Hc.
      - intros j y Hj Hlt Heq.
        assert (j < length lso) as Hjl by (apply lookup_lt_Some in Hi; lia).
        rewrite lookup_app_l in Hj by done.
        destruct (Hmatch lso y Hlso) as [-> _]; [by eapply list_elem_of_lookup_2|done|].
        assert (j = i) by (by eapply NoDup_lookup). lia. }
    cbv zeta. rewrite swap_remove_snoc by (by eapply lookup_lt_Some).
    rewrite decide_False; [done|]. intros Hnil.
    apply (f_equal length) in Hnil. rewrite length_insert in Hnil.
    apply lookup_lt_Some in Hi. simpl in Hnil. lia. }
  assert (Hdiff : NewHopID (PeerPubKey old) ≠ hop → linksIndex s2 = linksIndex s).
  { intros Hhop. rewrite Hidx.
    set (ls := default [] (linksIndex s !! hop)).
    assert (Hnone : list_find (λ l, ChanID l = ChanID link) ls = None).
    { apply list_find_None, Forall_forall. intros l Hl Heq. unfold ls in Hl.
      destruct (linksIndex s !! hop) as [ls0|] eqn:Hls0; simpl in Hl;
        [|by apply elem_of_nil in Hl].
      by destruct (Hmatch ls0 l eq_refl Hl Heq). }
    rewrite (list_find_app_r _ _ _ Hnone). simpl. rewrite decide_True by done. simpl.
    rewrite swap_remove_last. case_decide as Hnil.
    - apply delete_id. unfold ls in Hnil.
      destruct (linksIndex s !! hop) as [ls0|] eqn:Hls0; [|done]. simpl in Hnil.
      by destruct (I3 _ _ Hls0) as (_ & ? & _).
    - apply insert_id. unfold ls in *.
      destruct (linksIndex s !! hop) as [ls0|] eqn:Hls0; [done|]. by simpl in Hnil. }
  split_and!.
  - unfold removeLink. fold s1. by rewrite Hlk1.
  - done.
  - unfold getLink. by rewrite Hlinks2, lookup_delete_eq.
  - unfold s2. fold s1. rewrite Hlog, Hs1. done.
  - done.
  - done.
  - destruct (decide (NewHopID (PeerPubKey old) = hop)) as [Hhop|Hhop].
    + destruct (Hsame Hhop) as (ls & i & Hls & Hi & Hidx2).
      exists link, (<[i := link]> ls). split_and!; [done| |].
      * unfold getLinks. fold hop. by rewrite Hidx2, lookup_insert_eq.
      * eapply list_elem_of_lookup_2. apply list_lookup_insert_eq. by eapply lookup_lt_Some.
    + exists old, lso. split_and!; [done| |done].
      unfold getLinks. by rewrite (Hdiff Hhop), Hlso.
Qed.

(** ** A resolution that arrives twice *)


End Switch.

(** * The properties on a sample switch *)

Lemma sample_started_reachable :
  reachable sample_NewHopID sample_NewChanID sample_UnknownDestination
    sample_InsufficientCapacity sample_UnknownError sample_ToFailCode sample_started.
Proof.
  apply (run_reachable _ _ _ _ _ _ sample_ops New); [constructor|].
  vm_compute. reflexivity.
Qed.

Lemma sample_pending_reachable :
  reachable sample_NewHopID sample_NewChanID sample_UnknownDestination
    sample_InsufficientCapacity sample_UnknownError sample_ToFailCode sample_pending.
Proof.
  apply (run_reachable _ _ _ _ _ _ sample_pending_ops New); [constructor|].
  vm_compute. reflexivity.
Qed.

#[local] Abbreviation s_reachable :=
  (reachable sample_NewHopID sample_NewChanID sample_UnknownDestination
     sample_InsufficientCapacity sample_UnknownError sample_ToFailCode).
#[local] Abbreviation s_handlePacketForward :=
  (handlePacketForward sample_UnknownDestination sample_InsufficientCapacity
     sample_UnknownError).
#[local] Abbreviation s_handleLocalDispatch :=
  (handleLocalDispatch sample_UnknownDestination sample_InsufficientCapacity
     sample_ToFailCode).
#[local] Abbreviation s_forward :=
  (forward sample_NewHopID sample_NewChanID sample_UnknownDestination
     sample_InsufficientCapacity sample_UnknownError sample_ToFailCode).
#[local] Abbreviation s_SendHTLC_step :=
  (SendHTLC_step sample_NewHopID sample_NewChanID sample_UnknownDestination
     sample_InsufficientCapacity sample_UnknownError sample_ToFailCode).
#[local] Abbreviation s_Stop :=
  (Stop sample_NewHopID sample_NewChanID sample_UnknownDestination
     sample_InsufficientCapacity sample_UnknownError sample_ToFailCode).
#[local] Abbreviation s_facade_stopped :=
  (facade_stopped sample_NewHopID sample_NewChanID sample_UnknownDestination
     sample_InsufficientCapacity sample_UnknownError sample_ToFailCode).


(** C2 on the sample sequence. *)
Lemma link_registry_consistent_witness :
  NoDup (ChanID <$> added sample_registry_ops) ∧
  registry_consistent sample_NewHopID
    (registry_run sample_NewHopID (take 3 sample_registry_ops) New).
Proof.
  assert (NoDup (ChanID <$> added sample_registry_ops)) as Hnd by compute_done.
  split; [done|]. by apply (link_registry_consistent sample_NewHopID sample_registry_ops 3).
Defined.

(** C3 on the sample switch: an Add to a peer without links, an Add larger
    than every bandwidth, and an Add whose hash has a circuit already. *)
Lemma forwarded_add_failure_witness :
  (is_Some (s_handlePacketForward sample_add_nowhere sample_started).1 ∧
   log (s_handlePacketForward sample_add_nowhere sample_started).2
     = log sample_started
       ++ [failOffer linkA sample_add_nowhere 170 sample_UnknownDestination] ∧
   circuits (s_handlePacketForward sample_add_nowhere sample_started).2
     = circuits sample_started) ∧
  (is_Some (s_handlePacketForward sample_add_large sample_started).1 ∧
   log (s_handlePacketForward sample_add_large sample_started).2
     = log sample_started
       ++ [failOffer linkA sample_add_large 170 sample_InsufficientCapacity] ∧
   circuits (s_handlePacketForward sample_add_large sample_started).2
     = circuits sample_started) ∧
  (is_Some (s_handlePacketForward sample_add sample_forwarded).1 ∧
   log (s_handlePacketForward sample_add sample_forwarded).2
     = log sample_forwarded ++ [failOffer linkA sample_add 170 sample_UnknownError] ∧
   circuits (s_handlePacketForward sample_add sample_forwarded).2
     = circuits sample_forwarded).
Proof.
  split; [|split].
  - destruct (forwarded_add_failure sample_UnknownDestination sample_InsufficientCapacity
                sample_UnknownError sample_add_nowhere 170%N 50%Z linkA sample_started
                eq_refl eq_refl) as (H & _). apply H. reflexivity.
  - destruct (forwarded_add_failure sample_UnknownDestination sample_InsufficientCapacity
                sample_UnknownError sample_add_large 170%N 500%Z linkA sample_started
                eq_refl eq_refl) as (_ & H & _).
    apply (H [linkB]); [reflexivity|]. repeat constructor.
  - destruct (forwarded_add_failure sample_UnknownDestination sample_InsufficientCapacity
                sample_UnknownError sample_add 170%N 50%Z linkA sample_forwarded
                eq_refl eq_refl) as (_ & _ & H).
    by apply (H [linkB] linkB (ErrCircuitExists 170%N) (circuits sample_forwarded)).
Defined.



(** C6 on the sample switch: the Fail makes the call of [SendHTLC] for the
    pending payment return the zero preimage and the error of the failure
    code; and a send of hash 2 and amount 30 to a peer without links, with
    no such payment pending, returns the zero preimage and the error of
    [forward], its record gone and the table as before the call. *)
Lemma SendHTLC_result_contract_witness :
  s_reachable sample_pending ∧
  (∃ s1 s2 s3,
    s_handleLocalDispatch sample_payment sample_fail sample_pending = Some (None, s1) ∧
    s_SendHTLC_step selComm (atAwaitErr sample_payment) s1
      = Some (atAwaitPreimage sample_payment (Some (ErrFailCode 4%N)), s2) ∧
    s_SendHTLC_step selComm (atAwaitPreimage sample_payment (Some (ErrFailCode 4%N))) s2
      = Some (atReturn zeroPreimage (Some (ErrFailCode 4%N)), s3)) ∧
  s_reachable sample_started ∧
  findPayment 30 2 sample_started = inr (ErrPendingPayment 2%N 30%Z) ∧
  ∃ payment packet s1 s3,
    SendHTLC_enter sample_NewHopID [99%N] (UpdateAddHTLC 2 30) sample_started
      = Some (atForward payment packet, s1) ∧
    s_SendHTLC_step selComm (atForward payment packet) s1
      = Some (atReturn zeroPreimage (Some (ErrFailCode sample_UnknownDestination)), s3) ∧
    pendingPayments s3 = pendingPayments sample_started ∧
    ¬ pending payment s3.
Proof.
  split; [exact sample_pending_reachable|]. split.
  { destruct (SendHTLC_result_contract _ _ _ _ _ _ sample_pending sample_pending_reachable)
      as (_ & H & _).
    exact (H 30%Z 2%N sample_payment sample_fail eq_refl I). }
  split; [exact sample_started_reachable|]. split; [reflexivity|].
  destruct (SendHTLC_result_contract _ _ _ _ _ _ sample_started sample_started_reachable)
    as (H & _).
  destruct (SendHTLC_enter_spec sample_NewHopID [99%N] 2%N 30%Z sample_started) as (He & _).
  match type of He with
  | _ = Some (atForward ?p ?k, ?st) =>
    set (payment := p) in *; set (packet := k) in *; set (s1 := st) in *
  end.
  assert (Hfwd : s_forward selComm packet s1
                 = Some (Some (ErrFailCode sample_UnknownDestination), s1))
    by reflexivity.
  destruct (H [99%N] 2%N 30%Z payment packet s1 selComm _ s1 He Hfwd)
    as (s3 & Hstep & _ & Hrest).
  destruct (Hrest eq_refl) as [Htab Hgone].
  exists payment, packet, s1, s3. by split_and!.
Defined.

(** Outside the contract of the table: with [sample_payment] pending, a
    second send with the same hash and amount, to a peer without links,
    returns the zero preimage and the error of [forward];
    [removePendingPayment] takes the first record with that hash and
    amount, so the record of the earlier send is gone and the one the
    second send inserted ([sample_payment2]) is still in the table. *)
Lemma SendHTLC_failure_keeps_inserted_record :
  ∃ s1 s2,
    SendHTLC_enter sample_NewHopID [99%N] (UpdateAddHTLC 2 30) sample_pending
      = Some (atForward sample_payment2 sample_init2, s1) ∧
    s_SendHTLC_step selComm (atForward sample_payment2 sample_init2) s1
      = Some (atReturn zeroPreimage (Some (ErrFailCode sample_UnknownDestination)), s2) ∧
    pendingPayments s2 !! 2%N = Some [sample_payment2] ∧
    pending sample_payment2 s2 ∧ ¬ pending sample_payment s2.
Proof.
  eexists _, _. split; [vm_compute; reflexivity|]. split; [vm_compute; reflexivity|].
  assert (Hl : ∀ h ps,
            <[2%N := [sample_payment2]]> (∅ : gmap N (list pendingPayment)) !! h = Some ps →
            h = 2%N ∧ ps = [sample_payment2]).
  { intros h ps. rewrite lookup_insert. case_decide; [by intros [= <-]|].
    by rewrite lookup_empty. }
  split_and!.
  - reflexivity.
  - exists 2%N, [sample_payment2]. split; [reflexivity|]. constructor.
  - intros (h & ps & Hps & Hin). apply Hl in Hps as [-> ->].
    apply list_elem_of_singleton in Hin. discriminate Hin.
Qed.

(** C7 fails on the code: for a forward command whose packet carries
    another message, the reply is "wrong type of update", and the loop
    returns although [quit] is open; its deferred teardown has removed the
    links, and no later [forward] can proceed. *)
Lemma htlcForwarder_returns_on_other_message :
  s_forward selComm sample_other sample_started
    = Some (Some ErrWrongTypeOfUpdate, forwarderReturn sample_NewHopID sample_started) ∧
  forwarder (forwarderReturn sample_NewHopID sample_started) = Exited ∧
  quit (forwarderReturn sample_NewHopID sample_started) = false ∧
  links (forwarderReturn sample_NewHopID sample_started) = ∅ ∧
  (∀ sel packet,
     s_forward sel packet (forwarderReturn sample_NewHopID sample_started) = None).
Proof.
  destruct (forward_other_message sample_NewHopID sample_NewChanID sample_UnknownDestination
              sample_InsufficientCapacity sample_UnknownError sample_ToFailCode
              sample_other zeroStats sample_started eq_refl eq_refl)
    as (H1 & H2 & H3 & H4).
  split_and!; [done..| |by apply H4].
  vm_compute. reflexivity.
Qed.

(** C8 on the sample switch: after [Stop] every facade call fails fast. *)
Lemma lifecycle_idempotent_and_stopped_witness :
  s_reachable sample_started ∧ s_facade_stopped (s_Stop sample_started).
Proof.
  split; [exact sample_started_reachable|].
  destruct (lifecycle_idempotent_and_stopped sample_NewHopID sample_NewChanID
              sample_UnknownDestination sample_InsufficientCapacity sample_UnknownError
              sample_ToFailCode) as (_ & _ & H).
  exact (H sample_started [] _ sample_started_reachable eq_refl).
Defined.

(** C9 on the sample switch: [linkA'] added over [linkA]. *)
Lemma addLink_duplicate_chanID_witness :
  registry_inv sample_NewHopID sample_started ∧
  links sample_started !! ChanID linkA' = Some linkA ∧
  StartErr linkA' = None ∧
  links (addLink sample_NewHopID linkA' sample_started).2 !! 1%N = Some linkA' ∧
  linksIndex (addLink sample_NewHopID linkA' sample_started).2 !! 10%N
    = Some [linkA; linkA'] ∧
  ¬ registry_consistent sample_NewHopID (addLink sample_NewHopID linkA' sample_started).2.
Proof.
  assert (Hinv : registry_inv sample_NewHopID sample_started).
  { change sample_started with
      (set_forwarder (Parked zeroStats) (emit EGoForwarder (set_started 1
         (addLink sample_NewHopID linkB (addLink sample_NewHopID linkA New).2).2))).
    apply (addLink_registry sample_NewHopID linkB); [|reflexivity].
    apply (addLink_registry sample_NewHopID linkA); [|reflexivity].
    apply New_registry. }
  destruct (addLink_duplicate_chanID sample_NewHopID linkA' linkA sample_started
              Hinv eq_refl eq_refl) as (_ & _ & H1 & H2 & _ & _ & H3).
  by split_and!.
Defined.

(** C10 on the sample switch: [Stop] while the call of [SendHTLC] for
    [sample_payment] waits for its error. *)
Lemma SendHTLC_shutdown_keeps_pending_witness :
  s_reachable sample_pending ∧
  s_SendHTLC_step selQuit (atAwaitErr sample_payment) (s_Stop sample_pending)
    = Some (atReturn zeroPreimage (Some ErrServiceShutdown), s_Stop sample_pending) ∧
  pendingPayments (s_Stop sample_pending) = pendingPayments sample_pending ∧
  pending sample_payment (s_Stop sample_pending).
Proof.
  split; [exact sample_pending_reachable|].
  destruct (SendHTLC_shutdown_keeps_pending _ _ _ _ _ _ sample_pending sample_payment
              (atAwaitErr sample_payment) sample_pending_reachable (or_introl eq_refl))
    as (H1 & H2 & H3 & _).
  split_and!; [done..|]. apply H3.
  exists 2%N, [sample_payment]. split; [reflexivity|]. constructor.
Defined.

(** * The further properties on the sample switch *)

Lemma sample_busy_reachable :
  reachable sample_NewHopID sample_NewChanID sample_UnknownDestination
    sample_InsufficientCapacity sample_UnknownError sample_ToFailCode sample_busy.
Proof.
  apply (run_reachable _ _ _ _ _ _ sample_busy_ops New); [constructor|].
  vm_compute. reflexivity.
Qed.

Lemma sample_started_registry : registry_inv sample_NewHopID sample_started.
Proof.
  change sample_started with
    (set_forwarder (Parked zeroStats) (emit EGoForwarder (set_started 1
       (addLink sample_NewHopID linkB (addLink sample_NewHopID linkA New).2).2))).
  apply (addLink_registry sample_NewHopID linkB); [|reflexivity].
  apply (addLink_registry sample_NewHopID linkA); [|reflexivity].
  apply New_registry.
Qed.


#[local] Abbreviation s_AddLink :=
  (AddLink sample_NewHopID sample_NewChanID sample_UnknownDestination
     sample_InsufficientCapacity sample_UnknownError sample_ToFailCode).
#[local] Abbreviation s_RemoveLink :=
  (RemoveLink sample_NewHopID sample_NewChanID sample_UnknownDestination
     sample_InsufficientCapacity sample_UnknownError sample_ToFailCode).
#[local] Abbreviation s_CloseLink :=
  (CloseLink sample_NewHopID sample_NewChanID sample_UnknownDestination
     sample_InsufficientCapacity sample_UnknownError sample_ToFailCode).
#[local] Abbreviation s_exec :=
  (exec sample_NewHopID sample_NewChanID sample_UnknownDestination
     sample_InsufficientCapacity sample_UnknownError sample_ToFailCode).
#[local] Abbreviation s_htlcForwarder :=
  (htlcForwarder sample_NewHopID sample_NewChanID sample_UnknownDestination
     sample_InsufficientCapacity sample_UnknownError sample_ToFailCode).

(** X17 on a slice of three links. *)
Lemma swap_remove_spec_witness :
  [linkA; linkB; linkC] !! 0 = Some linkA ∧
  S (length (swap_remove 0 [linkA; linkB; linkC])) = 3 ∧
  swap_remove 0 [linkA; linkB; linkC] !! 0 = Some linkC ∧
  swap_remove 0 [linkA; linkB; linkC] ≡ₚ [linkB; linkC].
Proof.
  split; [reflexivity|].
  destruct (swap_remove_spec 0 [linkA; linkB; linkC] linkA eq_refl) as (H1 & _ & H2 & _ & H3).
  split_and!; [exact H1|apply H2; simpl; lia|exact H3].
Defined.

(** X1 on the sample switch: [linkC] is added and found. *)
Lemma AddLink_then_lookup_witness :
  forwarder sample_started = Parked zeroStats ∧ StartErr linkC = None ∧
  ∃ s', s_AddLink selComm linkC sample_started = Some (None, s') ∧
        getLink 3 s' = inl linkC ∧ getLinks 20 s' = inl [linkB; linkC] ∧
        getLink 1 s' = inl linkA.
Proof.
  split; [reflexivity|]. split; [reflexivity|].
  destruct (AddLink_then_lookup sample_NewHopID sample_NewChanID sample_UnknownDestination
              sample_InsufficientCapacity sample_UnknownError sample_ToFailCode
              linkC sample_started zeroStats eq_refl) as [_ H].
  destruct (H eq_refl) as (s' & Ha & _ & _ & _ & Hg & Hgs & Hother & _).
  exists s'. split_and!; [exact Ha|exact Hg|exact Hgs|].
  rewrite (Hother 1%N); [reflexivity|done].
Defined.

(** X2 on the sample switch: the channel of [linkA] is removed. *)
Lemma RemoveLink_then_lookup_witness :
  registry_inv sample_NewHopID sample_started ∧
  forwarder sample_started = Parked zeroStats ∧
  links sample_started !! 1%N = Some linkA ∧
  ∃ s', s_RemoveLink selComm 1 sample_started = Some (None, s') ∧
        log s' = [EGoForwarder; ELinkStop linkA] ∧
        getLink 1 s' = inr ErrChannelLinkNotFound ∧
        getLink 2 s' = inl linkB.
Proof.
  split; [exact sample_started_registry|]. split; [reflexivity|]. split; [reflexivity|].
  destruct (RemoveLink_then_lookup sample_NewHopID sample_NewChanID sample_UnknownDestination
              sample_InsufficientCapacity sample_UnknownError sample_ToFailCode
              1%N sample_started zeroStats sample_started_registry eq_refl) as [_ H].
  destruct (H linkA eq_refl) as (s' & Hr & Hlog & Hg & Hother & _).
  exists s'. split_and!; [exact Hr|exact Hlog|exact Hg|].
  rewrite (Hother 2%N); [reflexivity|done].
Defined.

(** X3 on the sample switch: [linkC] is added and removed again. *)
Lemma removeLink_undoes_addLink_witness :
  registry_inv sample_NewHopID sample_started ∧
  links sample_started !! ChanID linkC = None ∧ StartErr linkC = None ∧
  removeLink sample_NewHopID 3 (addLink sample_NewHopID linkC sample_started).2
    = (None, emit (ELinkStop linkC) sample_started).
Proof.
  split; [exact sample_started_registry|]. split; [reflexivity|]. split; [reflexivity|].
  exact (removeLink_undoes_addLink sample_NewHopID linkC sample_started
           sample_started_registry eq_refl eq_refl).
Defined.

(** X4 on the sample switch. *)
Lemma registered_link_is_indexed_witness :
  s_reachable sample_started ∧ getLink 2 sample_started = inl linkB ∧
  ∃ ls, getLinks 20 sample_started = inl ls ∧ linkB ∈ ls.
Proof.
  split; [exact sample_started_reachable|]. split; [reflexivity|].
  destruct (registered_link_is_indexed sample_NewHopID sample_NewChanID
              sample_UnknownDestination sample_InsufficientCapacity sample_UnknownError
              sample_ToFailCode sample_started 2%N linkB sample_started_reachable eq_refl)
    as [_ H].
  exact H.
Defined.

(** X5 on the sample switch: the channel of [linkA] is closed, an unknown
    one is not. *)
Lemma CloseLink_outcome_witness :
  s_reachable sample_started ∧ forwarder sample_started = Parked zeroStats ∧
  s_CloseLink selComm sample_outpoint CloseRegular sample_started =
    Some ({| updateChan_closed := false; errChan_buf := [] |},
          emit (ELocalChannelClose [10%N]
                  {| CloseType := CloseRegular; ChanPoint := sample_outpoint |})
            sample_started) ∧
  s_CloseLink selComm sample_outpoint_unknown CloseBreach sample_started =
    Some ({| updateChan_closed := false; errChan_buf := [ErrChannelNotFound 9%N] |},
          sample_started).
Proof.
  split; [exact sample_started_reachable|]. split; [reflexivity|]. split.
  - destruct (CloseLink_outcome sample_NewHopID sample_NewChanID sample_UnknownDestination
                sample_InsufficientCapacity sample_UnknownError sample_ToFailCode
                sample_outpoint CloseRegular sample_started zeroStats
                sample_started_reachable eq_refl) as [H _].
    exact (H linkA eq_refl).
  - destruct (CloseLink_outcome sample_NewHopID sample_NewChanID sample_UnknownDestination
                sample_InsufficientCapacity sample_UnknownError sample_ToFailCode
                sample_outpoint_unknown CloseBreach sample_started zeroStats
                sample_started_reachable eq_refl) as [_ H].
    exact (H eq_refl).
Defined.

(** X6 on the sample switch: both links are removed and stopped. *)
Lemma Stop_tears_down_witness :
  s_reachable sample_started ∧ forwarder sample_started = Parked zeroStats ∧
  forwarder (s_Stop sample_started) = Exited ∧
  links (s_Stop sample_started) = ∅ ∧
  linksIndex (s_Stop sample_started) = ∅ ∧
  log (s_Stop sample_started) =
    log sample_started ++ ECloseQuit :: (ELinkStop <$> (map_to_list (links sample_started)).*2).
Proof.
  split; [exact sample_started_reachable|]. split; [reflexivity|].
  destruct (Stop_tears_down sample_NewHopID sample_NewChanID sample_UnknownDestination
              sample_InsufficientCapacity sample_UnknownError sample_ToFailCode
              sample_started zeroStats sample_started_reachable eq_refl)
    as (_ & _ & _ & _ & Hf & Hlog & Hl & Hi & _).
  split_and!; [exact Hf|exact Hl|exact (Hi sample_started_registry)|exact Hlog].
Defined.

(** X7 on the sample switch with one pending payment. *)
Lemma numPendingPayments_counts_witness :
  findPayment 30 2 sample_pending = inl sample_payment ∧
  numPendingPayments sample_pending = 1 ∧
  numPendingPayments (removePendingPayment 30 2 sample_pending).2 = 0.
Proof.
  split; [reflexivity|].
  destruct (numPendingPayments_counts sample_NewHopID sample_pending) as (_ & _ & H & _).
  destruct (H 30%Z 2%N sample_payment eq_refl) as [_ Hn].
  assert (numPendingPayments sample_pending = 1) as H1 by reflexivity.
  split; [exact H1|]. rewrite H1 in Hn. exact (Nat.succ_inj _ _ Hn).
Defined.

(** X8 on the sample switch. *)
Lemma removePendingPayment_removes_found_witness :
  s_reachable sample_pending ∧
  findPayment 30 2 sample_pending = inl sample_payment ∧
  (removePendingPayment 30 2 sample_pending).1 = None ∧
  ¬ pending sample_payment (removePendingPayment 30 2 sample_pending).2.
Proof.
  split; [exact sample_pending_reachable|]. split; [reflexivity|].
  destruct (removePendingPayment_removes_found sample_NewHopID sample_NewChanID
              sample_UnknownDestination sample_InsufficientCapacity sample_UnknownError
              sample_ToFailCode 30%Z 2%N sample_pending sample_pending_reachable) as [H _].
  destruct (H sample_payment eq_refl) as (_ & _ & _ & Hn & Hgone & _).
  split; [exact Hn|exact Hgone].
Defined.

(** X9 on the sample switch with [linkC]: the first tick takes the sums. *)
Lemma logTick_totals_witness :
  s_reachable sample_busy ∧ forwarder sample_busy = Parked zeroStats ∧
  collate sample_busy = (3%N, 40%Z, 2%Z) ∧
  logTick zeroStats sample_busy
    = {| totalNumUpdates := 3%N; totalSatSent := 40%Z; totalSatRecv := 2%Z |}.
Proof.
  split; [exact sample_busy_reachable|]. split; [reflexivity|]. split; [reflexivity|].
  destruct (logTick_totals sample_NewHopID sample_NewChanID sample_UnknownDestination
              sample_InsufficientCapacity sample_UnknownError sample_ToFailCode
              sample_busy zeroStats 3%N 40%Z 2%Z sample_busy_reachable eq_refl eq_refl)
    as (_ & _ & _ & H).
  rewrite H; [reflexivity|done|reflexivity].
Defined.

(** X10 on the sample switch: the Add of the pending payment goes to
    [linkB]. *)
Lemma local_add_dispatch_witness :
  htlc sample_init = UpdateAddHTLC 2 30 ∧
  s_handleLocalDispatch sample_payment sample_init sample_pending
    = Some (None, emit (EHandleSwitchPacket false linkB sample_init) sample_pending) ∧
  s_handleLocalDispatch sample_payment2 sample_init2 sample_pending
    = Some (Some (ErrFailCode sample_UnknownDestination), sample_pending).
Proof.
  split; [reflexivity|]. split.
  - destruct (local_add_dispatch sample_UnknownDestination sample_InsufficientCapacity
                sample_ToFailCode sample_payment sample_init 2%N 30%Z sample_pending eq_refl)
      as (_ & _ & H).
    apply (H [linkB] 0 linkB); [reflexivity|reflexivity|simpl; lia|intros j l Hj; lia].
  - destruct (local_add_dispatch sample_UnknownDestination sample_InsufficientCapacity
                sample_ToFailCode sample_payment2 sample_init2 2%N 30%Z sample_pending eq_refl)
      as (H & _).
    apply H. reflexivity.
Defined.

(** X11 on the sample switch: [sample_add] is accepted. *)
Lemma forwarded_add_accepted_witness :
  htlc sample_add = UpdateAddHTLC 170 50 ∧
  s_handlePacketForward sample_add sample_started =
    (None,
     emit (EHandleSwitchPacket false linkB sample_add)
       (set_circuits (<[170%N := newPaymentCircuit 1 2 170]> (circuits sample_started))
          sample_started)).
Proof.
  split; [reflexivity|].
  destruct (forwarded_add_accepted sample_UnknownDestination sample_InsufficientCapacity
              sample_UnknownError sample_add 170%N 50%Z sample_started eq_refl) as (_ & H).
  apply (H linkA [linkB] 0 linkB); [reflexivity|reflexivity|reflexivity|simpl; lia| |reflexivity].
  intros j l Hj. lia.
Defined.

(** X12 on the sample switch: the forward of [sample_add]. *)
Lemma forward_keeps_registry_witness :
  s_forward selComm sample_add sample_started
    = Some (s_handlePacketForward sample_add sample_started) ∧
  htlc sample_add ≠ OtherMessage ∧
  links (s_handlePacketForward sample_add sample_started).2 = links sample_started ∧
  linksIndex (s_handlePacketForward sample_add sample_started).2 = linksIndex sample_started.
Proof.
  assert (H : s_forward selComm sample_add sample_started
              = Some ((s_handlePacketForward sample_add sample_started).1,
                      (s_handlePacketForward sample_add sample_started).2))
    by reflexivity.
  split; [exact H|]. split; [done|].
  destruct (forward_keeps_registry sample_NewHopID sample_NewChanID sample_UnknownDestination
              sample_InsufficientCapacity sample_UnknownError sample_ToFailCode
              selComm sample_add sample_started _ _ H) as (Hl & Hi & _); [done|].
  split; [exact Hl|exact Hi].
Defined.

(** X13 on the sample switch: a link is removed while a payment is
    pending. *)
Lemma link_control_keeps_payments_witness :
  s_exec (OpRemoveLink selComm 1) sample_pending
    = Some (removeLink sample_NewHopID 1 sample_pending).2 ∧
  is_link_control (OpRemoveLink selComm 1) ∧
  keeps_payments sample_pending (removeLink sample_NewHopID 1 sample_pending).2 ∧
  circuits (removeLink sample_NewHopID 1 sample_pending).2 = circuits sample_pending.
Proof.
  assert (H : s_exec (OpRemoveLink selComm 1) sample_pending
              = Some (removeLink sample_NewHopID 1 sample_pending).2) by reflexivity.
  split; [exact H|]. split; [exact I|].
  destruct (link_control_keeps_payments sample_NewHopID sample_NewChanID
              sample_UnknownDestination sample_InsufficientCapacity sample_UnknownError
              sample_ToFailCode _ _ _ H I) as (Hp & Hc & _).
  split; [exact Hp|exact Hc].
Defined.


(** X15 on the sample switch: a payment of 30 to the peer of [linkB]. *)
Lemma SendHTLC_dispatch_outcome_witness :
  s_reachable sample_started ∧ forwarder sample_started = Parked zeroStats ∧
  ∃ payment packet s1 s2,
    SendHTLC_enter sample_NewHopID [20%N] (UpdateAddHTLC 2 30) sample_started
      = Some (atForward payment packet, s1) ∧
    s_SendHTLC_step selComm (atForward payment packet) s1 = Some (atAwaitErr payment, s2) ∧
    log s2 = log sample_started ++ [EHandleSwitchPacket false linkB packet] ∧
    pending payment s2.
Proof.
  split; [exact sample_started_reachable|]. split; [reflexivity|].
  destruct (SendHTLC_dispatch_outcome sample_NewHopID sample_NewChanID
              sample_UnknownDestination sample_InsufficientCapacity sample_UnknownError
              sample_ToFailCode [20%N] 2%N 30%Z sample_started zeroStats
              sample_started_reachable eq_refl)
    as (payment & packet & s1 & pc & s2 & He & _ & Hs & _ & _ & _ & Hm).
  assert (Hm' : pc = atAwaitErr payment ∧
                log s2 = log sample_started ++ [EHandleSwitchPacket false linkB packet] ∧
                pending payment s2 ∧
                numPendingPayments s2 = S (numPendingPayments sample_started)) by exact Hm.
  destruct Hm' as (-> & Hlog & Hp & _).
  exists payment, packet, s1, s2. split_and!; [exact He|exact Hs|exact Hlog|exact Hp].
Defined.


(** X18 on the sample switch. *)
Lemma spawn_and_close_once_witness :
  s_reachable sample_started ∧
  spawns (log sample_started) ≤ 1 ∧ closes (log sample_started) ≤ 1 ∧
  (started sample_started = 0%Z ↔ forwarder sample_started = NotSpawned).
Proof.
  split; [exact sample_started_reachable|].
  destruct (spawn_and_close_once sample_NewHopID sample_NewChanID sample_UnknownDestination
              sample_InsufficientCapacity sample_UnknownError sample_ToFailCode
              sample_started sample_started_reachable) as (H1 & H2 & _ & _ & _ & H3 & _).
  split_and!; [exact H1|exact H2|exact H3].
Defined.

(** X19 on the new switch. *)
Lemma facade_blocks_before_Start_witness :
  s_reachable New ∧ started New = 0%Z ∧ shutdown New = 0%Z ∧
  (∀ sel packet, s_forward sel packet New = None) ∧
  (∀ sel link, s_AddLink sel link New = None).
Proof.
  split; [constructor|]. split; [reflexivity|]. split; [reflexivity|].
  split.
  - intros sel.
    by destruct (facade_blocks_before_Start sample_NewHopID sample_NewChanID
                   sample_UnknownDestination sample_InsufficientCapacity sample_UnknownError
                   sample_ToFailCode New sel (reachable_New _ _ _ _ _ _) eq_refl eq_refl)
      as (H & _).
  - intros sel.
    by destruct (facade_blocks_before_Start sample_NewHopID sample_NewChanID
                   sample_UnknownDestination sample_InsufficientCapacity sample_UnknownError
                   sample_ToFailCode New sel (reachable_New _ _ _ _ _ _) eq_refl eq_refl)
      as (_ & H & _).
Defined.

(** X20 on the sample switch: [linkA'] is added under the channel id of
    [linkA], and the channel id is removed. *)
Lemma duplicate_add_then_remove_witness :
  registry_inv sample_NewHopID sample_started ∧
  links sample_started !! ChanID linkA' = Some linkA ∧ StartErr linkA' = None ∧
  getLink 1 (removeLink sample_NewHopID 1 (addLink sample_NewHopID linkA' sample_started).2).2
    = inr ErrChannelLinkNotFound ∧
  linksIndex (removeLink sample_NewHopID 1 (addLink sample_NewHopID linkA' sample_started).2).2
    !! 10%N = Some [linkA'] ∧
  log (removeLink sample_NewHopID 1 (addLink sample_NewHopID linkA' sample_started).2).2
    = [EGoForwarder; ELinkStop linkA'].
Proof.
  split; [exact sample_started_registry|]. split; [reflexivity|]. split; [reflexivity|].
  destruct (duplicate_add_then_remove sample_NewHopID linkA' linkA sample_started
              sample_started_registry eq_refl eq_refl)
    as (_ & _ & Hg & Hlog & Hsame & _).
  split_and!; [exact Hg| |exact Hlog].
  destruct (Hsame eq_refl) as (ls & i & Hls & Hi & Hidx).
  change (Some [linkA] = Some ls) in Hls. injection Hls as <-.
  assert (i = 0) as -> by (destruct i as [|[|i]]; [done|discriminate Hi..]).
  etrans; [exact (f_equal (λ m, m !! 10%N) Hidx)|]. reflexivity.
Defined.

